(** * ai-code-review: the diff filter, the prompt builder, the response parser
    and the single-file review entry point, embedded from the TypeScript
    sources (core reviewer [CodeReviewer], provider [OpenAIProvider]).

    JavaScript strings are sequences of UTF-16 code units; the built-ins the
    program calls (String.prototype methods, regular expressions, JSON.parse)
    are given as executable definitions following ECMA-262. *)

From Stdlib Require Import String Ascii.
From Stdlib Require Import List Bool Arith NArith ZArith Lia.
From Stdlib Require Floats Uint63.
Import ListNotations.

Open Scope string_scope.
Open Scope list_scope.

Set Warnings "-register-all".

(* ================================================================== *)
(** ** JavaScript strings *)
(* ================================================================== *)

Module JS.

(** A UTF-16 code unit. *)
Definition cu := N.

Definition jsstring := list cu.

Definition jsstring_eq_dec (a b : jsstring) : {a = b} + {a <> b} :=
  list_eq_dec N.eq_dec a b.

Fixpoint eqb (a b : jsstring) : bool :=
  match a, b with
  | [], [] => true
  | x :: a', y :: b' => N.eqb x y && eqb a' b'
  | _, _ => false
  end.

(** *** Source literals: a UTF-8 literal of this file read as UTF-16. *)

Fixpoint bytes_of (s : string) : list N :=
  match s with
  | EmptyString => []
  | String a t => N_of_ascii a :: bytes_of t
  end.

Definition utf16 (cp : N) : list cu :=
  if (cp <? 0x10000)%N then [cp]
  else let c := (cp - 0x10000)%N in
       [(0xD800 + c / 0x400)%N; (0xDC00 + c mod 0x400)%N].

Fixpoint utf8_decode (l : list N) : list cu :=
  match l with
  | [] => []
  | b0 :: l1 =>
    if (b0 <? 0x80)%N then b0 :: utf8_decode l1
    else
      match l1 with
      | [] => [0xFFFD%N]
      | b1 :: l2 =>
        if (b0 <? 0xE0)%N then
          utf16 ((b0 mod 0x20) * 0x40 + b1 mod 0x40)%N ++ utf8_decode l2
        else
          match l2 with
          | [] => [0xFFFD%N]
          | b2 :: l3 =>
            if (b0 <? 0xF0)%N then
              utf16 ((b0 mod 0x10) * 0x1000 + (b1 mod 0x40) * 0x40 + b2 mod 0x40)%N
                ++ utf8_decode l3
            else
              match l3 with
              | [] => [0xFFFD%N]
              | b3 :: l4 =>
                utf16 ((b0 mod 0x8) * 0x40000 + (b1 mod 0x40) * 0x1000
                       + (b2 mod 0x40) * 0x40 + b3 mod 0x40)%N
                  ++ utf8_decode l4
              end
          end
      end
  end.

(** [u "text"] is the JavaScript string written ["text"] in the source. *)
Definition u (s : string) : jsstring := utf8_decode (bytes_of s).

(** The line feed, written [\n] in the source. *)
Definition nl : jsstring := [10%N].

(** [lines [a; b; c]] is the text [a\nb\nc]. *)
Fixpoint lines (l : list string) : jsstring :=
  match l with
  | [] => []
  | [a] => u a
  | a :: t => u a ++ nl ++ lines t
  end.

(** A literal whose apostrophes stand for the double quote. *)
Definition uq (s : string) : jsstring :=
  map (fun c => if (c =? 39)%N then 34%N else c) (u s).

(** *** Character classes of ECMA-262 *)

Definition is_line_terminator (c : cu) : bool :=
  ((c =? 0x0A) || (c =? 0x0D) || (c =? 0x2028) || (c =? 0x2029))%N.

(** WhiteSpace and LineTerminator: what [\s] matches and [trim] removes. *)
Definition is_space (c : cu) : bool :=
  ((c =? 0x09) || (c =? 0x0A) || (c =? 0x0B) || (c =? 0x0C) || (c =? 0x0D)
   || (c =? 0x20) || (c =? 0xA0) || (c =? 0x1680)
   || ((0x2000 <=? c) && (c <=? 0x200A))
   || (c =? 0x2028) || (c =? 0x2029) || (c =? 0x202F) || (c =? 0x205F)
   || (c =? 0x3000) || (c =? 0xFEFF))%N.

Definition is_digit (c : cu) : bool := ((48 <=? c) && (c <=? 57))%N.

(** *** String.prototype methods *)

Fixpoint dropWhile (p : cu -> bool) (s : jsstring) : jsstring :=
  match s with
  | [] => []
  | c :: t => if p c then dropWhile p t else s
  end.

Definition trimStart (s : jsstring) : jsstring := dropWhile is_space s.

Definition trimEnd (s : jsstring) : jsstring := rev (dropWhile is_space (rev s)).

Definition trim (s : jsstring) : jsstring := trimEnd (trimStart s).

Fixpoint startsWith (s prefix : jsstring) : bool :=
  match prefix, s with
  | [], _ => true
  | p :: prefix', c :: s' => N.eqb c p && startsWith s' prefix'
  | _ :: _, [] => false
  end.

(** [s.includes(x)] *)
Fixpoint includes (s x : jsstring) : bool :=
  startsWith s x
  || match s with
     | [] => false
     | _ :: t => includes t x
     end.

(** Truthiness of a string: the empty string is falsy. *)
Definition truthy (s : jsstring) : bool :=
  match s with [] => false | _ => true end.

(** GetSubstitution for a match without capture groups: [$$], [$&], [$`]
    and [$'] are expanded in the replacement text, every other character
    (also [$1] and [$<], there being no captures) is copied. *)
Fixpoint getSubstitution (matched before after template : jsstring) : jsstring :=
  match template with
  | [] => []
  | 36%N :: t =>
    match t with
    | 36%N :: t' => 36%N :: getSubstitution matched before after t'
    | 38%N :: t' => matched ++ getSubstitution matched before after t'
    | 96%N :: t' => before ++ getSubstitution matched before after t'
    | 39%N :: t' => after ++ getSubstitution matched before after t'
    | _ => 36%N :: getSubstitution matched before after t
    end
  | c :: t => c :: getSubstitution matched before after t
  end.

(** First occurrence of [pat] in [s]: the text before it and the text after it. *)
Fixpoint find_first (pat : jsstring) (before_rev s : jsstring)
  : option (jsstring * jsstring) :=
  if startsWith s pat then Some (rev before_rev, skipn (length pat) s)
  else match s with
       | [] => None
       | c :: t => find_first pat (c :: before_rev) t
       end.

(** [s.replace(pat, repl)] with a string pattern: the first occurrence only,
    the replacement text going through GetSubstitution. *)
Definition replace (s pat repl : jsstring) : jsstring :=
  match find_first pat [] s with
  | None => s
  | Some (before, after) =>
    before ++ getSubstitution pat before after repl ++ after
  end.

(** [s.split(sep)] with a non-empty string separator. *)
Fixpoint split_from (sep : jsstring) (skip : nat) (acc_rev s : jsstring)
  : list jsstring :=
  match s with
  | [] => [rev acc_rev]
  | c :: t =>
    match skip with
    | S k => split_from sep k acc_rev t
    | O =>
      if startsWith s sep then rev acc_rev :: split_from sep (pred (length sep)) [] t
      else split_from sep 0 (c :: acc_rev) t
    end
  end.

Definition split (s sep : jsstring) : list jsstring := split_from sep 0 [] s.

(** [parts.join(sep)] *)
Fixpoint join (sep : jsstring) (parts : list jsstring) : jsstring :=
  match parts with
  | [] => []
  | [a] => a
  | a :: t => a ++ sep ++ join sep t
  end.

(** Decimal digits of a non-negative integer, as [String(n)] writes them. *)
Fixpoint digits_fuel (fuel : nat) (n : N) (acc : jsstring) : jsstring :=
  match fuel with
  | O => acc
  | S f =>
    let acc' := (48 + n mod 10)%N :: acc in
    if (n <? 10)%N then acc' else digits_fuel f (n / 10)%N acc'
  end.

Definition String_of_N (n : N) : jsstring := digits_fuel (S (N.to_nat (N.log2 n))) n [].

(** The integer a run of decimal digits denotes. *)
Definition digits_value (s : jsstring) : N :=
  fold_left (fun acc c => (acc * 10 + (c - 48))%N) s 0%N.

(** A Number that is a non-negative integer is written as that integer, and
    [Infinity] as 2^1024, which no finite Number is. *)
Definition Infinity : N := (2 ^ 1024)%N.

(** The Number nearest to a non-negative integer: 53 significant bits, a
    tie going to the even one; [Infinity] from 2^1024 - 2^970 on. *)
Definition Number_of_N (n : N) : N :=
  if (n <? 2 ^ 53)%N then n
  else
    let e := (N.log2 n - 52)%N in
    let q := N.shiftr n e in
    let r := (n - N.shiftl q e)%N in
    let half := N.shiftl 1 (e - 1) in
    let q' := if (half <? r)%N || ((r =? half)%N && N.odd q) then (q + 1)%N else q in
    let v := N.shiftl q' e in
    if (Infinity <=? v)%N then Infinity else v.

(** [Number.parseInt(s, 10)] on a run of decimal digits. *)
Definition parseInt_digits (s : jsstring) : N := Number_of_N (digits_value s).

(** The shortest decimal digits that read back as the Number [n], an
    integer of [len] digits: the digits [s] and the power of ten they are
    multiplied by, the nearer to [n] when two runs of the same length do. *)
Fixpoint shortest_digits (fuel k : nat) (n : N) (len : nat) : N * nat :=
  match fuel with
  | O => (n, O)
  | S f =>
    let j := len - k in
    let p := (10 ^ N.of_nat j)%N in
    let lo := (n / p)%N in
    let hi := (lo + 1)%N in
    let ok_lo := (Number_of_N (lo * p) =? n)%N in
    let ok_hi := (Number_of_N (hi * p) =? n)%N in
    if ok_lo && ok_hi then
      (if (n - lo * p <=? hi * p - n)%N then (lo, j) else (hi, j))
    else if ok_lo then (lo, j)
    else if ok_hi then (hi, j)
    else shortest_digits f (S k) n len
  end.

(** Number::toString (6.1.6.1.20) on a Number that is a non-negative
    integer or [Infinity]: the digits of the integer below 10^21, the
    shortest digits with an exponent from there on. *)
Definition String_of_Number (n : N) : jsstring :=
  if (n =? Infinity)%N then u "Infinity"
  else if (n <? 10 ^ 21)%N then String_of_N n
  else
    let (s, j) := shortest_digits 17 1 n (length (String_of_N n)) in
    let all := String_of_N s in
    let ds := rev (dropWhile (N.eqb 48) (rev all)) in
    let exponent := String_of_N (N.of_nat (length all + j - 1)) in
    match ds with
    | [] => all
    | [d] => [d] ++ u "e+" ++ exponent
    | d :: more => [d] ++ u "." ++ more ++ u "e+" ++ exponent
    end.

(** ASCII part of [toUpperCase]; exact on strings whose cased letters are ASCII. *)
Definition upper (c : cu) : cu :=
  if ((97 <=? c) && (c <=? 122))%N then (c - 32)%N else c.

Definition toUpperCase (s : jsstring) : jsstring := map upper s.

End JS.

Import JS.

(* ================================================================== *)
(** ** Regular expressions *)
(* ================================================================== *)

(** The backtracking matcher of ECMA-262 (22.2.2), written with the list of
    successes: [run r st] lists, in the order backtracking tries them, the
    states in which [r] can leave the matcher when started in [st]; the
    match the engine reports is the head of that list. *)

Module Re.

Inductive citem : Type :=
| CChar (c : cu)              (* a class member written as a character *)
| CDigit                      (* \d *)
| CSpace                      (* \s *)
| CNotSpace.                  (* \S *)

Inductive regex : Type :=
| REmpty
| RChar (c : cu)                                   (* a pattern character *)
| RDot                                             (* . *)
| RSet (negated : bool) (items : list citem)       (* [...] and [^...] *)
| RSeq (a b : regex)
| RAlt (a b : regex)                               (* a|b *)
| RQuant (a : regex) (min : nat) (max : option nat) (greedy : bool)
| RGroup (n : nat) (a : regex)                     (* the n-th ( ) *)
| RLookahead (a : regex)                           (* (?= ) *)
| RBegin                                           (* ^ *)
| REnd.                                            (* $ *)

Record flags : Type := { ignoreCase : bool; dotAll : bool }.

Definition no_flags : flags := {| ignoreCase := false; dotAll := false |}.
Definition flag_i : flags := {| ignoreCase := true; dotAll := false |}.
Definition flag_s : flags := {| ignoreCase := false; dotAll := true |}.

(** Captures: group number to captured text, most recent binding first. *)
Definition captures := list (nat * jsstring).

Fixpoint capture (n : nat) (c : captures) : option jsstring :=
  match c with
  | [] => None
  | (k, v) :: c' => if Nat.eqb k n then Some v else capture n c'
  end.

Definition reset (gs : list nat) (c : captures) : captures :=
  filter (fun kv => negb (existsb (Nat.eqb (fst kv)) gs)) c.

Fixpoint groups (r : regex) : list nat :=
  match r with
  | RSeq a b | RAlt a b => groups a ++ groups b
  | RQuant a _ _ _ | RLookahead a => groups a
  | RGroup n a => n :: groups a
  | _ => []
  end.

(** The matcher state: the text not yet consumed, and the captures. *)
Definition state : Type := jsstring * captures.

(** Canonicalize (22.2.5.6) without the unicode flag. Only the ASCII letters
    are folded: the patterns of this program written with the [i] flag have
    ASCII letters, CJK characters, a full-width colon and surrogate halves,
    and no character outside ASCII upper-cases to one of those. *)
Definition canonicalize (fl : flags) (c : cu) : cu :=
  if ignoreCase fl then upper c else c.

Definition item_matches (fl : flags) (x : cu) (i : citem) : bool :=
  match i with
  | CChar c => N.eqb (canonicalize fl c) (canonicalize fl x)
  | CDigit => is_digit x
  | CSpace => is_space x
  | CNotSpace => negb (is_space x)
  end.

Definition char_step (p : cu -> bool) (st : state) : list state :=
  match fst st with
  | x :: t => if p x then [(t, snd st)] else []
  | [] => []
  end.

(** RepeatMatcher (22.2.2.3.1). [fuel] bounds the unfolding; it is taken
    larger than [min] plus the length of the remaining text, which the
    recursion never exceeds: an iteration either counts down [min] or, once
    [min] is zero, must consume a character. *)
Fixpoint repeat_matcher (step : state -> list state) (gs : list nat)
    (greedy : bool) (fuel min : nat) (max : option nat) (st : state)
    {struct fuel} : list state :=
  match max with
  | Some O => [st]
  | _ =>
    match fuel with
    | O => []
    | S f =>
      let iter :=
        flat_map
          (fun y =>
             if Nat.eqb min 0 && Nat.eqb (length (fst y)) (length (fst st))
             then []
             else repeat_matcher step gs greedy f (pred min) (option_map pred max) y)
          (step (fst st, reset gs (snd st))) in
      if negb (Nat.eqb min 0) then iter
      else if greedy then iter ++ [st]
      else st :: iter
    end
  end.

(** The text consumed between two states. *)
Definition consumed (st st' : state) : jsstring :=
  firstn (length (fst st) - length (fst st')) (fst st).

Section Matcher.

Variable fl : flags.
(** Length of the whole input, for [^]. *)
Variable input_length : nat.

Fixpoint run (r : regex) (st : state) : list state :=
  match r with
  | REmpty => [st]
  | RChar c => char_step (fun x => N.eqb (canonicalize fl c) (canonicalize fl x)) st
  | RDot => char_step (fun x => dotAll fl || negb (is_line_terminator x)) st
  | RSet negated items =>
    char_step (fun x => xorb negated (existsb (item_matches fl x) items)) st
  | RSeq a b => flat_map (run b) (run a st)
  | RAlt a b => run a st ++ run b st
  | RQuant a min max greedy =>
    repeat_matcher (run a) (groups a) greedy (S (min + length (fst st))) min max st
  | RGroup n a =>
    map (fun st' => (fst st', (n, consumed st st') :: snd st')) (run a st)
  | RLookahead a =>
    match run a st with
    | [] => []
    | st' :: _ => [(fst st, snd st')]
    end
  | RBegin => if Nat.eqb (length (fst st)) input_length then [st] else []
  | REnd => match fst st with [] => [st] | _ :: _ => [] end
  end.

End Matcher.

(** A literal run of pattern characters. *)
Fixpoint lit (s : jsstring) : regex :=
  match s with
  | [] => REmpty
  | [c] => RChar c
  | c :: t => RSeq (RChar c) (lit t)
  end.

Fixpoint seq (rs : list regex) : regex :=
  match rs with
  | [] => REmpty
  | [r] => r
  | r :: t => RSeq r (seq t)
  end.

Fixpoint alt (rs : list regex) : regex :=
  match rs with
  | [] => REmpty
  | [r] => r
  | r :: t => RAlt r (alt t)
  end.

Definition star (a : regex) : regex := RQuant a 0 None true.        (* a*  *)
Definition star_lazy (a : regex) : regex := RQuant a 0 None false.  (* a*? *)
Definition plus (a : regex) : regex := RQuant a 1 None true.        (* a+  *)
Definition plus_lazy (a : regex) : regex := RQuant a 1 None false.  (* a+? *)
Definition opt (a : regex) : regex := RQuant a 0 (Some 1) true.     (* a?  *)

Definition ws : regex := RSet false [CSpace].                        (* \s *)
Definition digit : regex := RSet false [CDigit].                     (* \d *)
Definition any : regex := RSet false [CSpace; CNotSpace].            (* [\s\S] *)

(** A compiled regular expression: the pattern and its flags. *)
Record RegExp : Type := { pattern : regex; re_flags : flags }.

(** The result of a successful match. *)
Record MatchResult : Type := {
  m_before : jsstring;     (* the text before the match *)
  m_text : jsstring;       (* match[0] *)
  m_groups : captures;     (* match[n] is [capture n m_groups] *)
  m_after : jsstring       (* the text after the match *)
}.

Definition group (n : nat) (m : MatchResult) : option jsstring :=
  capture n (m_groups m).

(** One attempt at the current position. *)
Definition match_here (re : RegExp) (input_length : nat) (s : jsstring)
  : option state :=
  hd_error (run (re_flags re) input_length (pattern re) (s, [])).

(** RegExpBuiltinExec from a position: the attempt is repeated one code unit
    further until it succeeds or the text is exhausted. *)
Fixpoint search_from (re : RegExp) (input_length : nat)
    (before_rev s : jsstring) : option MatchResult :=
  match match_here re input_length s with
  | Some st' =>
    Some {| m_before := rev before_rev;
            m_text := consumed (s, []) st';
            m_groups := snd st';
            m_after := fst st' |}
  | None =>
    match s with
    | [] => None
    | c :: t => search_from re input_length (c :: before_rev) t
    end
  end.

(** [re.exec(s)] and [s.match(re)] for a regular expression without the
    [g] flag. *)
Definition exec (re : RegExp) (s : jsstring) : option MatchResult :=
  search_from re (length s) [] s.

(** [re.test(s)] *)
Definition test (re : RegExp) (s : jsstring) : bool :=
  match exec re s with Some _ => true | None => false end.

(** [s.match(re)] with the [g] flag: the texts of the successive matches,
    each search starting where the previous match ended (one further after
    an empty match). [skip] counts the code units still covered by the
    previous match. JavaScript returns [null] for the empty list. *)
Fixpoint match_all_from (re : RegExp) (input_length skip : nat) (s : jsstring)
  : list jsstring :=
  match skip with
  | S k =>
    match s with
    | [] => []
    | _ :: t => match_all_from re input_length k t
    end
  | O =>
    match match_here re input_length s with
    | Some st' =>
      let n := length s - length (fst st') in
      firstn n s ::
        match s with
        | [] => []
        | _ :: t => match_all_from re input_length (pred n) t
        end
    | None =>
      match s with
      | [] => []
      | _ :: t => match_all_from re input_length 0 t
      end
    end
  end.

Definition match_all (re : RegExp) (s : jsstring) : list jsstring :=
  match_all_from re (length s) 0 s.

(** The loop [m = re.exec(s); while (m !== null) { ...; m = re.exec(s) }]
    over a [g] regular expression: the successive match results. [exec]
    leaves [lastIndex] at the end of the match and does not move it past an
    empty match, so an empty match repeats forever: [None]. *)
Fixpoint exec_loop_from (re : RegExp) (input_length skip : nat)
    (before_rev s : jsstring) : option (list MatchResult) :=
  match skip with
  | S k =>
    match s with
    | [] => Some []
    | c :: t => exec_loop_from re input_length k (c :: before_rev) t
    end
  | O =>
    match match_here re input_length s with
    | Some st' =>
      let n := length s - length (fst st') in
      let m := {| m_before := rev before_rev; m_text := firstn n s;
                  m_groups := snd st'; m_after := fst st' |} in
      match n, s with
      | S k, c :: t =>
        option_map (cons m) (exec_loop_from re input_length k (c :: before_rev) t)
      | _, _ => None
      end
    | None =>
      match s with
      | [] => Some []
      | c :: t => exec_loop_from re input_length 0 (c :: before_rev) t
      end
    end
  end.

Definition exec_loop (re : RegExp) (s : jsstring) : option (list MatchResult) :=
  exec_loop_from re (length s) 0 [] s.

(** [s.split(re)] for a separator without capture groups (22.2.6.14): the
    separator is tried at each position [q]; a match that ends where the
    current piece starts is passed over. *)
Fixpoint split_from (re : RegExp) (input_length skip : nat)
    (acc_rev s : jsstring) : list jsstring :=
  match s with
  | [] => [rev acc_rev]
  | c :: t =>
    match skip with
    | S k => split_from re input_length k acc_rev t
    | O =>
      match match_here re input_length s with
      | Some st' =>
        let n := length s - length (fst st') in
        match n, acc_rev with
        | O, [] => split_from re input_length 0 [c] t
        | O, _ :: _ => rev acc_rev :: split_from re input_length 0 [c] t
        | S k, _ => rev acc_rev :: split_from re input_length k [] t
        end
      | None => split_from re input_length 0 (c :: acc_rev) t
      end
    end
  end.

Definition split (s : jsstring) (re : RegExp) : list jsstring :=
  match s with
  | [] => match match_here re 0 [] with Some _ => [] | None => [[]] end
  | _ :: _ => split_from re (length s) 0 [] s
  end.

(** [s.replace(re, repl)] with the [g] flag, for a pattern without capture
    groups. *)
Fixpoint replace_all_from (re : RegExp) (repl : jsstring)
    (input_length skip : nat) (before_rev s : jsstring) : jsstring :=
  match skip with
  | S k =>
    match s with
    | [] => []
    | c :: t => replace_all_from re repl input_length k (c :: before_rev) t
    end
  | O =>
    match match_here re input_length s with
    | Some st' =>
      let n := length s - length (fst st') in
      getSubstitution (firstn n s) (rev before_rev) (fst st') repl
        ++ match s with
           | [] => []
           | c :: t =>
             match n with
             | O => c :: replace_all_from re repl input_length 0 (c :: before_rev) t
             | S k => replace_all_from re repl input_length k (c :: before_rev) t
             end
           end
    | None =>
      match s with
      | [] => []
      | c :: t => c :: replace_all_from re repl input_length 0 (c :: before_rev) t
      end
    end
  end.

Definition replace_all (s : jsstring) (re : RegExp) (repl : jsstring) : jsstring :=
  replace_all_from re repl (length s) 0 [] s.

(** *** What a quantified character class yields *)

Definition always (x : cu) : bool := true.

(** The results of [a*?] when [a] consumes one code unit satisfying [p]:
    the shortest first. *)
Fixpoint lazy_results (p : cu -> bool) (s : jsstring) (c : captures) : list state :=
  (s, c) ::
  match s with
  | x :: t => if p x then lazy_results p t c else []
  | [] => []
  end.

(** The results of [a*]: the longest first. *)
Fixpoint greedy_results (p : cu -> bool) (s : jsstring) (c : captures) : list state :=
  match s with
  | x :: t => if p x then greedy_results p t c else []
  | [] => []
  end ++ [(s, c)].

End Re.

(* ================================================================== *)
(** ** JSON.parse *)
(* ================================================================== *)

Module JSON.

(** A JSON number is kept as the decimal it is written as,
    [(-1)^neg * mantissa * 10^exponent]; the program only passes numbers on
    and tests them for truthiness. *)
Record number : Type := { neg : bool; mantissa : N; exponent : Z }.

Inductive json : Type :=
| JNull
| JBool (b : bool)
| JNum (n : number)
| JStr (s : jsstring)
| JArr (items : list json)
| JObj (members : list (jsstring * json)).   (* in source order *)

(** *** Lexer: one code unit at a time *)

Inductive token : Type :=
| TLBrace | TRBrace | TLBracket | TRBracket | TColon | TComma
| TString (s : jsstring)
| TNumber (n : number)
| TTrue | TFalse | TNull.

Inductive num_phase : Type :=
| NMinus       (* after [-]: a digit must follow *)
| NZero        (* after a leading [0] *)
| NInt         (* in the integer digits *)
| NDot         (* after [.]: a digit must follow *)
| NFrac        (* in the fraction digits *)
| NExp         (* after [e]: a sign or a digit must follow *)
| NExpSign     (* after the sign: a digit must follow *)
| NExpDigits.  (* in the exponent digits *)

Record num_acc : Type := {
  a_neg : bool; a_mant : N; a_frac : N; a_eneg : bool; a_exp : N
}.

Definition number_of (a : num_acc) : number :=
  {| neg := a_neg a;
     mantissa := a_mant a;
     exponent := ((if a_eneg a then - Z.of_N (a_exp a) else Z.of_N (a_exp a))
                  - Z.of_N (a_frac a))%Z |}.

Inductive lex_mode : Type :=
| LIdle
| LString (acc_rev : jsstring)
| LEscape (acc_rev : jsstring)
| LUnicode (acc_rev : jsstring) (hex : list N)
| LNumber (ph : num_phase) (a : num_acc)
| LWord (expected : jsstring) (tok : token).

Definition json_space (c : cu) : bool :=
  ((c =? 0x20) || (c =? 0x09) || (c =? 0x0A) || (c =? 0x0D))%N.

Definition hex_value (c : cu) : option N :=
  if is_digit c then Some (c - 48)%N
  else if ((65 <=? c) && (c <=? 70))%N then Some (c - 55)%N
  else if ((97 <=? c) && (c <=? 102))%N then Some (c - 87)%N
  else None.

Definition push_digit (a : num_acc) (c : cu) : num_acc :=
  {| a_neg := a_neg a; a_mant := (a_mant a * 10 + (c - 48))%N;
     a_frac := a_frac a; a_eneg := a_eneg a; a_exp := a_exp a |}.

Definition push_frac (a : num_acc) (c : cu) : num_acc :=
  {| a_neg := a_neg a; a_mant := (a_mant a * 10 + (c - 48))%N;
     a_frac := (a_frac a + 1)%N; a_eneg := a_eneg a; a_exp := a_exp a |}.

Definition push_exp (a : num_acc) (c : cu) : num_acc :=
  {| a_neg := a_neg a; a_mant := a_mant a; a_frac := a_frac a;
     a_eneg := a_eneg a; a_exp := (a_exp a * 10 + (c - 48))%N |}.

Definition set_eneg (a : num_acc) : num_acc :=
  {| a_neg := a_neg a; a_mant := a_mant a; a_frac := a_frac a;
     a_eneg := true; a_exp := a_exp a |}.

Definition new_acc (negative : bool) : num_acc :=
  {| a_neg := negative; a_mant := 0; a_frac := 0; a_eneg := false; a_exp := 0 |}.

Definition lex_state : Type := lex_mode * list token.   (* tokens reversed *)

(** A code unit met between tokens. *)
Definition lex_idle (toks : list token) (c : cu) : option lex_state :=
  if json_space c then Some (LIdle, toks)
  else if (c =? 123)%N then Some (LIdle, TLBrace :: toks)
  else if (c =? 125)%N then Some (LIdle, TRBrace :: toks)
  else if (c =? 91)%N then Some (LIdle, TLBracket :: toks)
  else if (c =? 93)%N then Some (LIdle, TRBracket :: toks)
  else if (c =? 58)%N then Some (LIdle, TColon :: toks)
  else if (c =? 44)%N then Some (LIdle, TComma :: toks)
  else if (c =? 34)%N then Some (LString [], toks)
  else if (c =? 45)%N then Some (LNumber NMinus (new_acc true), toks)
  else if (c =? 48)%N then Some (LNumber NZero (new_acc false), toks)
  else if is_digit c then Some (LNumber NInt (push_digit (new_acc false) c), toks)
  else if (c =? 116)%N then Some (LWord (u "rue") TTrue, toks)
  else if (c =? 102)%N then Some (LWord (u "alse") TFalse, toks)
  else if (c =? 110)%N then Some (LWord (u "ull") TNull, toks)
  else None.

(** A number ends at the first code unit that cannot continue it. *)
Definition lex_number_end (ph : num_phase) (a : num_acc) (toks : list token)
    (c : cu) : option lex_state :=
  match ph with
  | NZero | NInt | NFrac | NExpDigits => lex_idle (TNumber (number_of a) :: toks) c
  | _ => None
  end.

Definition is_e (c : cu) : bool := ((c =? 101) || (c =? 69))%N.

Definition lex_number (ph : num_phase) (a : num_acc) (toks : list token)
    (c : cu) : option lex_state :=
  match ph with
  | NMinus =>
    if (c =? 48)%N then Some (LNumber NZero a, toks)
    else if is_digit c then Some (LNumber NInt (push_digit a c), toks)
    else None
  | NZero =>
    if (c =? 46)%N then Some (LNumber NDot a, toks)
    else if is_e c then Some (LNumber NExp a, toks)
    else lex_number_end ph a toks c
  | NInt =>
    if is_digit c then Some (LNumber NInt (push_digit a c), toks)
    else if (c =? 46)%N then Some (LNumber NDot a, toks)
    else if is_e c then Some (LNumber NExp a, toks)
    else lex_number_end ph a toks c
  | NDot =>
    if is_digit c then Some (LNumber NFrac (push_frac a c), toks) else None
  | NFrac =>
    if is_digit c then Some (LNumber NFrac (push_frac a c), toks)
    else if is_e c then Some (LNumber NExp a, toks)
    else lex_number_end ph a toks c
  | NExp =>
    if (c =? 43)%N then Some (LNumber NExpSign a, toks)
    else if (c =? 45)%N then Some (LNumber NExpSign (set_eneg a), toks)
    else if is_digit c then Some (LNumber NExpDigits (push_exp a c), toks)
    else None
  | NExpSign =>
    if is_digit c then Some (LNumber NExpDigits (push_exp a c), toks) else None
  | NExpDigits =>
    if is_digit c then Some (LNumber NExpDigits (push_exp a c), toks)
    else lex_number_end ph a toks c
  end.

Definition lex_escape (acc_rev : jsstring) (toks : list token) (c : cu)
  : option lex_state :=
  if ((c =? 34) || (c =? 92) || (c =? 47))%N then Some (LString (c :: acc_rev), toks)
  else if (c =? 98)%N then Some (LString (8%N :: acc_rev), toks)
  else if (c =? 102)%N then Some (LString (12%N :: acc_rev), toks)
  else if (c =? 110)%N then Some (LString (10%N :: acc_rev), toks)
  else if (c =? 114)%N then Some (LString (13%N :: acc_rev), toks)
  else if (c =? 116)%N then Some (LString (9%N :: acc_rev), toks)
  else if (c =? 117)%N then Some (LUnicode acc_rev [], toks)
  else None.

Definition lex_step (st : lex_state) (c : cu) : option lex_state :=
  let (mode, toks) := st in
  match mode with
  | LIdle => lex_idle toks c
  | LString acc_rev =>
    if (c =? 34)%N then Some (LIdle, TString (rev acc_rev) :: toks)
    else if (c =? 92)%N then Some (LEscape acc_rev, toks)
    else if (c <? 0x20)%N then None
    else Some (LString (c :: acc_rev), toks)
  | LEscape acc_rev => lex_escape acc_rev toks c
  | LUnicode acc_rev hex =>
    match hex_value c with
    | None => None
    | Some d =>
      match hex with
      | [d1; d2; d3] =>
        Some (LString ((((d1 * 16 + d2) * 16 + d3) * 16 + d)%N :: acc_rev), toks)
      | _ => Some (LUnicode acc_rev (hex ++ [d]), toks)
      end
    end
  | LNumber ph a => lex_number ph a toks c
  | LWord expected tok =>
    match expected with
    | [] => None
    | e :: rest =>
      if (c =? e)%N then
        match rest with
        | [] => Some (LIdle, tok :: toks)
        | _ :: _ => Some (LWord rest tok, toks)
        end
      else None
    end
  end.

Fixpoint lex_run (st : lex_state) (s : jsstring) : option lex_state :=
  match s with
  | [] => Some st
  | c :: t =>
    match lex_step st c with
    | None => None
    | Some st' => lex_run st' t
    end
  end.

Definition lex_finish (st : lex_state) : option (list token) :=
  let (mode, toks) := st in
  match mode with
  | LIdle => Some (rev toks)
  | LNumber NZero a | LNumber NInt a | LNumber NFrac a | LNumber NExpDigits a =>
    Some (rev (TNumber (number_of a) :: toks))
  | _ => None
  end.

Definition lex (s : jsstring) : option (list token) :=
  match lex_run (LIdle, []) s with
  | None => None
  | Some st => lex_finish st
  end.

(** *** Parser: one token at a time, with the open containers on a stack *)

Inductive frame : Type :=
| FArray (items_rev : list json)
| FObject (members_rev : list (jsstring * json)) (key : jsstring).

Inductive pstate : Type :=
| PValue (stack : list frame)                 (* a value must follow *)
| PArrayStart (stack : list frame)            (* after [[]: a value or []] *)
| PObjectStart (stack : list frame)           (* after [{]: a key or [}] *)
| PKey (members_rev : list (jsstring * json)) (stack : list frame)
| PColon (members_rev : list (jsstring * json)) (key : jsstring) (stack : list frame)
| PArrayNext (items_rev : list json) (stack : list frame)
| PObjectNext (members_rev : list (jsstring * json)) (stack : list frame)
| PDone (v : json).

(** A value is complete: it goes into the container on top of the stack. *)
Definition complete (v : json) (stack : list frame) : pstate :=
  match stack with
  | [] => PDone v
  | FArray items_rev :: stack' => PArrayNext (v :: items_rev) stack'
  | FObject members_rev key :: stack' => PObjectNext ((key, v) :: members_rev) stack'
  end.

Definition parse_value (stack : list frame) (tok : token) : option pstate :=
  match tok with
  | TString s => Some (complete (JStr s) stack)
  | TNumber n => Some (complete (JNum n) stack)
  | TTrue => Some (complete (JBool true) stack)
  | TFalse => Some (complete (JBool false) stack)
  | TNull => Some (complete JNull stack)
  | TLBracket => Some (PArrayStart stack)
  | TLBrace => Some (PObjectStart stack)
  | _ => None
  end.

Definition parse_step (st : pstate) (tok : token) : option pstate :=
  match st with
  | PValue stack => parse_value stack tok
  | PArrayStart stack =>
    match tok with
    | TRBracket => Some (complete (JArr []) stack)
    | _ => parse_value (FArray [] :: stack) tok
    end
  | PObjectStart stack =>
    match tok with
    | TRBrace => Some (complete (JObj []) stack)
    | TString k => Some (PColon [] k stack)
    | _ => None
    end
  | PKey members_rev stack =>
    match tok with
    | TString k => Some (PColon members_rev k stack)
    | _ => None
    end
  | PColon members_rev k stack =>
    match tok with
    | TColon => Some (PValue (FObject members_rev k :: stack))
    | _ => None
    end
  | PArrayNext items_rev stack =>
    match tok with
    | TComma => Some (PValue (FArray items_rev :: stack))
    | TRBracket => Some (complete (JArr (rev items_rev)) stack)
    | _ => None
    end
  | PObjectNext members_rev stack =>
    match tok with
    | TComma => Some (PKey members_rev stack)
    | TRBrace => Some (complete (JObj (rev members_rev)) stack)
    | _ => None
    end
  | PDone _ => None
  end.

Fixpoint parse_run (st : pstate) (toks : list token) : option pstate :=
  match toks with
  | [] => Some st
  | tok :: rest =>
    match parse_step st tok with
    | None => None
    | Some st' => parse_run st' rest
    end
  end.

(** [JSON.parse(s)]: [None] when it throws SyntaxError. *)
Definition parse (s : jsstring) : option json :=
  match lex s with
  | None => None
  | Some toks =>
    match parse_run (PValue []) toks with
    | Some (PDone v) => Some v
    | _ => None
    end
  end.

(** *** The values as the program reads them *)

(** The property [k] of a parsed object; a later duplicate key overwrites
    an earlier one. [None] is [undefined]. *)
Fixpoint lookup (k : jsstring) (members : list (jsstring * json)) : option json :=
  match members with
  | [] => None
  | (k', v) :: rest =>
    match lookup k rest with
    | Some v' => Some v'
    | None => if JS.eqb k' k then Some v else None
    end
  end.

(** A number that is zero as a double: the written decimal is at most
    2^-1075, half the least positive double, and rounds to zero. *)
Definition number_is_zero (n : number) : bool :=
  (mantissa n =? 0)%N
  || ((exponent n <? 0)%Z
      && (Z.of_N (mantissa n) * 2 ^ 1075 <=? 10 ^ (- exponent n))%Z).

(** ToBoolean *)
Definition truthy (v : json) : bool :=
  match v with
  | JNull => false
  | JBool b => b
  | JNum n => negb (number_is_zero n)
  | JStr s => JS.truthy s
  | JArr _ | JObj _ => true
  end.

End JSON.

Import Re.
Import JSON.

(* ================================================================== *)
(** ** Data model *)
(* ================================================================== *)

(** [CodeDiff] (core reviewer). *)
Record CodeDiff : Type := {
  oldPath : jsstring;
  newPath : jsstring;
  oldContent : jsstring;
  newContent : jsstring;
  diffContent : jsstring;
  language : option jsstring
}.

(** One element of [ReviewResult.issues] as the interface declares it. The
    severity is kept as the string it is at run time. The line, which the
    parser reads from a run of digits, is a Number that is a non-negative
    integer or [Infinity] (2^1024 here, see [JS.Number_of_N]). *)
Record Issue : Type := {
  line : option N;
  severity : jsstring;
  message : jsstring;
  suggestion : option jsstring;
  code : option jsstring
}.

(** [ReviewResult] as the interface declares it. *)
Record ReviewResult : Type := {
  file : jsstring;
  issues : list Issue;
  summary : jsstring
}.

(** The three values of the severity type. *)
Definition valid_severity (s : jsstring) : Prop :=
  s = u "info" \/ s = u "warning" \/ s = u "error".

(** What [parseReviewResponse] returns at run time. Its [issues] are
    either objects the parser built or, when the model's JSON is passed
    through, whatever values the model's array holds; likewise the summary.
    The tag tells where a value came from and nothing else: a value the
    model sent may be, at run time, the very object the parser would have
    built, and no statement tells two results apart by the tag. *)
Inductive IssueValue : Type :=
| Built (i : Issue)
| FromModel (v : json).

Record ReviewValue : Type := {
  rv_file : jsstring;
  rv_issues : list IssueValue;
  rv_summary : json
}.

(** A run-time issue that fits the declared [Issue] shape. *)
Definition optional_string (v : option json) : Prop :=
  v = None \/ exists s, v = Some (JStr s).

Definition issue_conforms (x : IssueValue) : Prop :=
  match x with
  | Built i => valid_severity (severity i)
  | FromModel (JObj m) =>
    (exists s, lookup (u "severity") m = Some (JStr s) /\ valid_severity s)
    /\ (exists s, lookup (u "message") m = Some (JStr s))
    /\ (lookup (u "line") m = None \/ exists n, lookup (u "line") m = Some (JNum n))
    /\ optional_string (lookup (u "suggestion") m)
    /\ optional_string (lookup (u "code") m)
  | FromModel _ => False
  end.

(** A run-time result that fits the declared [ReviewResult] shape. *)
Definition well_formed (r : ReviewValue) : Prop :=
  (exists s, rv_summary r = JStr s) /\ Forall issue_conforms (rv_issues r).

(** How a JavaScript computation ends. *)
Inductive completion (A : Type) : Type :=
| Normal (a : A)
| Throw (detail : jsstring)     (* an exception; [detail] is [String(error)] *)
| Diverge.                       (* it does not end *)
Arguments Normal {A} a.
Arguments Throw {A} detail.
Arguments Diverge {A}.

Definition bind {A B : Type} (c : completion A) (k : A -> completion B)
  : completion B :=
  match c with
  | Normal a => k a
  | Throw d => Throw d
  | Diverge => Diverge
  end.

(** [try { c } catch (e) { handler e }] *)
Definition try_catch {A : Type} (c : completion A) (handler : jsstring -> completion A)
  : completion A :=
  match c with
  | Throw d => handler d
  | other => other
  end.

Notation "x <- c ;; k" := (bind c (fun x => k))
  (at level 61, c at next level, right associativity).

(* ================================================================== *)
(** ** The provider: prompts and the response parser *)
(* ================================================================== *)

Module Provider.

(** *** The regular expressions of [parseReviewResponse] and [extractSummary] *)

Definition re (r : regex) : RegExp := {| pattern := r; re_flags := no_flags |}.
Definition re_i (r : regex) : RegExp := {| pattern := r; re_flags := flag_i |}.
Definition re_s (r : regex) : RegExp := {| pattern := r; re_flags := flag_s |}.

Definition colon : cu := 58%N.
Definition colons : regex := RSet false [CChar colon; CChar 0xFF1A%N].   (* [:：] *)
Definition not_nl : regex := RSet true [CChar 10%N].                      (* [^\n] *)

(** [/```json\n([\s\S]*?)\n```/] *)
Definition fence_open : jsstring := u "```json" ++ nl.
Definition fence_close : jsstring := nl ++ u "```".

Definition re_json_fence : RegExp :=
  re (seq [lit fence_open; RGroup 1 (star_lazy any); lit fence_close]).

(** [/```([\s\S]*?)```/] *)
Definition re_fence : RegExp :=
  re (seq [lit (u "```"); RGroup 1 (star_lazy any); lit (u "```")]).

(** [/###\s+/] *)
Definition re_section : RegExp := re (seq [lit (u "###"); plus ws]).

(** [/🔴|🟠|🔵|严重问题|警告|建议|error|warning|info/i] *)
Definition re_marker : RegExp :=
  re_i (alt [lit (u "🔴"); lit (u "🟠"); lit (u "🔵"); lit (u "严重问题");
             lit (u "警告"); lit (u "建议"); lit (u "error"); lit (u "warning");
             lit (u "info")]).

(** [/🔴|严重问题|error/i] *)
Definition re_error : RegExp :=
  re_i (alt [lit (u "🔴"); lit (u "严重问题"); lit (u "error")]).

(** [/🟠|警告|warning/i] *)
Definition re_warning : RegExp :=
  re_i (alt [lit (u "🟠"); lit (u "警告"); lit (u "warning")]).

(** [/####\s+(.+?):(.+?)(?=####|$)/gs] *)
Definition re_problem : RegExp :=
  re_s (seq [lit (u "####"); plus ws; RGroup 1 (plus_lazy RDot); RChar colon;
             RGroup 2 (plus_lazy RDot); RLookahead (RAlt (lit (u "####")) REnd)]).

(** [/####\s+第(\d+)行:/] *)
Definition re_line : RegExp :=
  re (seq [lit (u "####"); plus ws; lit (u "第"); RGroup 1 (plus digit);
           lit (u "行:")]).

(** [/####\s+(?:第\d+行|整体):\s*(.+)(?:\n|$)/] *)
Definition re_message : RegExp :=
  re (seq [lit (u "####"); plus ws;
           RAlt (seq [lit (u "第"); plus digit; lit (u "行")]) (lit (u "整体"));
           RChar colon; star ws; RGroup 1 (plus RDot); RAlt (RChar 10%N) REnd]).

(** [/\*\*💡 改进建议:\*\*\n([\s\S]*?)(?=\*\*|$)/] *)
Definition re_suggestion : RegExp :=
  re (seq [lit (u "**💡 改进建议:**"); RChar 10%N; RGroup 1 (star_lazy any);
           RLookahead (RAlt (lit (u "**")) REnd)]).

(** [/```\n([\s\S]*?)\n```/] *)
Definition re_code : RegExp :=
  re (seq [lit (u "```" ++ nl); RGroup 1 (star_lazy any); lit (nl ++ u "```")]).

(** [error|warning|info] *)
Definition severity_words : regex :=
  alt [lit (u "error"); lit (u "warning"); lit (u "info")].

(** [/(\d+)?\s*[:：]\s*(?:\[(error|warning|info)\]\s* )?([^\n]+)/g]
    (the source has no space before the second [)?]) *)
Definition problemRegex : RegExp :=
  re (seq [opt (RGroup 1 (plus digit)); star ws; colons; star ws;
           opt (seq [RChar 91%N; RGroup 2 severity_words; RChar 93%N; star ws]);
           RGroup 3 (plus not_nl)]).

(** [/##\s*📝\s*总体评价\s*\n([^#]+)/] *)
Definition re_overall : RegExp :=
  re (seq [lit (u "##"); star ws; lit (u "📝"); star ws; lit (u "总体评价");
           star ws; RChar 10%N; RGroup 1 (plus (RSet true [CChar 35%N]))]).

(** [/(?:总结|总体评价|总体评估|总览|Summary)[:：]\s*([^\n]+)(?:\n\n|$)/i] *)
Definition re_summary : RegExp :=
  re_i (seq [alt [lit (u "总结"); lit (u "总体评价"); lit (u "总体评估");
                  lit (u "总览"); lit (u "Summary")];
             colons; star ws; RGroup 1 (plus not_nl);
             RAlt (seq [RChar 10%N; RChar 10%N]) REnd]).

(** [match[n]] of a group that takes part in every match of its pattern. *)
Definition group_text (n : nat) (m : MatchResult) : jsstring :=
  match group n m with
  | Some s => s
  | None => []
  end.

(** [m && m[1]]: the first group of a match, when there is a match and the
    group's text is not empty. *)
Definition first_group (m : option MatchResult) : option jsstring :=
  match m with
  | Some r => if JS.truthy (group_text 1 r) then Some (group_text 1 r) else None
  | None => None
  end.

(** [extractSummary] *)
Definition extractSummary (content : jsstring) : jsstring :=
  match first_group (exec re_overall content) with
  | Some overall => trim overall
  | None =>
    match first_group (exec re_summary content) with
    | Some s => trim s
    | None =>
      let firstParagraph := hd [] (JS.split content (nl ++ nl)) in
      if JS.truthy firstParagraph && Nat.ltb (length firstParagraph) 200 then
        trim firstParagraph
      else
        let paragraphs := JS.split content (nl ++ nl) in
        trim (last paragraphs [])
    end
  end.

(** The issue built from one problem block of a section. *)
Definition problem_issue (severity : jsstring) (problemMatch : jsstring) : Issue :=
  let lineMatch := exec re_line problemMatch in
  let line :=
    match lineMatch with
    | Some m => Some (parseInt_digits (group_text 1 m))
    | None => None
    end in
  let messageMatch := exec re_message problemMatch in
  let message :=
    match messageMatch with
    | Some m => trim (group_text 1 m)
    | None => u "未知问题"
    end in
  let suggestionMatch := exec re_suggestion problemMatch in
  let suggestion :=
    match suggestionMatch with
    | Some m => Some (trim (group_text 1 m))
    | None => None
    end in
  let codeMatch := exec re_code problemMatch in
  let code :=
    match codeMatch with
    | Some m => Some (group_text 1 m)
    | None => None
    end in
  {| line := line; severity := severity; message := message;
     suggestion := suggestion; code := code |}.

(** The body of [for (const section of problemSections)]: the issues one
    section adds. *)
Definition section_issues (section : jsstring) : list Issue :=
  if negb (test re_marker section) then []
  else
    let severity :=
      if test re_error section then u "error"
      else if test re_warning section then u "warning"
      else u "info" in
    let problemMatches := match_all re_problem section in
    map (problem_issue severity) problemMatches.

(** The sectioned-markdown pass. *)
Definition markdown_issues (content : jsstring) : list Issue :=
  let problemSections := filter JS.truthy (Re.split content re_section) in
  flat_map section_issues problemSections.

(** The issue built from one match of [problemRegex]. *)
Definition line_issue (m : MatchResult) : Issue :=
  let line :=
    match group 1 m with
    | Some d => if JS.truthy d then Some (parseInt_digits d) else None
    | None => None
    end in
  let severity :=
    match group 2 m with
    | Some s => if JS.truthy s then s else u "info"
    | None => u "info"
    end in
  {| line := line; severity := severity; message := trim (group_text 3 m);
     suggestion := None; code := None |}.

(** The [while (match !== null)] loop over [problemRegex]. *)
Definition scan_issues (content : jsstring) : completion (list Issue) :=
  match exec_loop problemRegex content with
  | Some ms => Normal (map line_issue ms)
  | None => Diverge
  end.

(** [parsed.name]: reading a property of [null] throws a TypeError; the
    program reads [issues] and [summary], which only an object can have. *)
Definition property (v : json) (name : jsstring) : completion (option json) :=
  match v with
  | JNull => Throw (u "TypeError")
  | JObj members => Normal (lookup name members)
  | _ => Normal None
  end.

(** [JSON.parse] as a computation. *)
Definition JSON_parse (s : jsstring) : completion json :=
  match JSON.parse s with
  | Some v => Normal v
  | None => Throw (u "SyntaxError")
  end.

(** [content.match(/```json\n([\s\S]*?)\n```/) || content.match(/```([\s\S]*?)```/)] *)
Definition jsonMatch (content : jsstring) : option MatchResult :=
  match exec re_json_fence content with
  | Some m => Some m
  | None => exec re_fence content
  end.

(** The inner [try] block: [Some r] when it returns [r], [None] when control
    falls out of the [if]. *)
Definition json_attempt (text filePath : jsstring)
  : completion (option ReviewValue) :=
  parsed <- JSON_parse text ;;
  parsed_issues <- property parsed (u "issues") ;;
  match parsed_issues with
  | Some (JArr items) =>
    parsed_summary <- property parsed (u "summary") ;;
    Normal (Some {| rv_file := filePath;
                    rv_issues := map FromModel items;
                    rv_summary :=
                      match parsed_summary with
                      | Some v => if JSON.truthy v then v else JStr []
                      | None => JStr []
                      end |})
  | _ => Normal None
  end.

(** The first part of [parseReviewResponse]: the fenced JSON, with its
    [try]/[catch] (the handler only logs a warning). *)
Definition json_strategy (content filePath : jsstring)
  : completion (option ReviewValue) :=
  match first_group (jsonMatch content) with
  | Some text =>
    try_catch (json_attempt text filePath) (fun _ => Normal None)
  | None => Normal None
  end.

(** The text parsing that follows. *)
Definition text_strategy (content filePath : jsstring) : completion ReviewValue :=
  let summary := extractSummary content in
  let issues := markdown_issues content in
  issues <- (match issues with
             | [] => scan_issues content
             | _ :: _ => Normal issues
             end) ;;
  let issues :=
    match issues with
    | [] =>
      if JS.truthy (trim content) then
        [ {| line := None; severity := u "info"; message := u "审查反馈";
             suggestion := Some (trim content); code := None |} ]
      else []
    | _ :: _ => issues
    end in
  Normal {| rv_file := filePath; rv_issues := map Built issues;
            rv_summary := JStr summary |}.

(** The body of the outer [try]. *)
Definition parse_body (content filePath : jsstring) : completion ReviewValue :=
  accepted <- json_strategy content filePath ;;
  match accepted with
  | Some r => Normal r
  | None => text_strategy content filePath
  end.

(** The outer [catch]: the result that carries the error. *)
Definition error_result (filePath detail : jsstring) : ReviewValue :=
  {| rv_file := filePath;
     rv_issues :=
       [ Built {| line := None; severity := u "error";
                  message := u "解析审查结果时出错";
                  suggestion := Some detail; code := None |} ];
     rv_summary := JStr (u "解析审查结果时出错") |}.

(** [parseReviewResponse] *)
Definition parseReviewResponse (content filePath : jsstring)
  : completion ReviewValue :=
  try_catch (parse_body content filePath)
            (fun detail => Normal (error_result filePath detail)).

(** When the fenced JSON is accepted, the result's issues are the model's
    array, whatever it holds. *)
Definition passes_model_json (content : jsstring) (r : ReviewValue) : Prop :=
  exists text v items,
    first_group (jsonMatch content) = Some text
    /\ JSON.parse text = Some v
    /\ property v (u "issues") = Normal (Some (JArr items))
    /\ rv_issues r = map FromModel items.

(** A text that starts with [###] and a white-space character: where
    [re_section] matches. *)
Definition starts_section (s : jsstring) : bool :=
  match s with
  | a :: b :: c :: x :: _ =>
    (a =? 35)%N && (b =? 35)%N && (c =? 35)%N && is_space x
  | _ => false
  end.

(** No position of [p], in the text [p ++ s], starts with [###] and a
    white-space character. *)
Fixpoint clean (p s : jsstring) : Prop :=
  match p with
  | [] => True
  | x :: p' => starts_section (x :: p' ++ s) = false /\ clean p' s
  end.

(** The issue of the last fallback. *)
Definition feedback_issue (content : jsstring) : Issue :=
  {| line := None; severity := u "info"; message := u "审查反馈";
     suggestion := Some (trim content); code := None |}.

(** A response with a fenced JSON block, as the built-in prompt asks for. *)
Definition example_json_body : jsstring :=
  uq "{'file':'other.ts','issues':[{'severity':'warning','line':3,'message':'m'}]}".

Definition example_json_response : jsstring :=
  u "Here is the review." ++ nl ++ u "```json" ++ nl ++ example_json_body
    ++ nl ++ u "```" ++ nl.

Definition example_json_items : list json :=
  [JObj [(u "severity", JStr (u "warning"));
         (u "line", JNum {| neg := false; mantissa := 3; exponent := 0 |});
         (u "message", JStr (u "m"))]].

Definition example_json_members : list (jsstring * json) :=
  [(u "file", JStr (u "other.ts")); (u "issues", JArr example_json_items)].

(** *** Prompts *)

(** [buildReviewPrompt]; [customPrompt] is [config.review?.prompts?.review]. *)
Definition buildReviewPrompt (customPrompt : option jsstring) (diff : CodeDiff)
    (language : jsstring) : jsstring :=
  match customPrompt with
  | Some ((_ :: _) as customPrompt) =>
    JS.replace
      (JS.replace
         (JS.replace customPrompt (u "{{language}}") language)
         (u "{{filePath}}") (newPath diff))
      (u "{{diffContent}}") (diffContent diff)
  | _ =>
    u "请以专业代码审查者的身份审查以下" ++ language ++ u "代码差异。" ++ nl
    ++ nl
    ++ u "文件路径: " ++ newPath diff ++ nl
    ++ nl
    ++ u "代码差异:" ++ nl
    ++ u "```diff" ++ nl
    ++ diffContent diff ++ nl
    ++ u "```" ++ nl
    ++ nl
    ++ lines [
      "请按照以下结构提供评论：";
      "";
      "1. **总体评价**: 简要总结代码质量，包括积极方面和需要改进的地方";
      "2. **关键发现**: 按优先级列出最重要的问题";
      "3. **详细分析**: 对每个问题进行详细说明，每个问题包含：";
      "   - 严重性: 低(info) | 中(warning) | 高(error)";
      "   - 问题位置: 具体到行号";
      "   - 问题描述: 清晰说明问题所在";
      "   - 改进建议: 提供具体的改进方法，可能包含代码示例";
      "   - 解释理由: 简要解释为什么这是一个问题或为什么建议的改进是有益的";
      "4. **最佳实践**: 指出代码中遵循或违反的最佳实践";
      "5. **学习资源**: 酌情提供相关文档或学习资源链接";
      "";
      "请以JSON格式返回响应，包含以下字段:";
      "1. file: 文件路径";
      "2. summary: 总体评价摘要";
      "3. issues: 问题数组，每个问题包含:";
      "   - severity: 'info' | 'warning' | 'error'";
      "   - line: 行号(可选)";
      "   - message: 问题描述";
      "   - suggestion: 改进建议(可选)";
      "   - code: 示例代码(可选)";
      "";
      "确保分析全面且具有建设性，重点关注可行的改进而不仅仅是指出问题。" ]
  end.

(** Numbers of the summary: counts are array lengths, held as doubles. *)
Definition Number_of_nat (n : nat) : PrimFloat.float :=
  PrimFloat.of_uint63 (Uint63Axioms.of_Z (Z.of_nat n)).

(** ToBoolean of a number: [NaN], [+0] and [-0] are falsy. *)
Definition Number_truthy (x : PrimFloat.float) : bool :=
  match FloatOps.Prim2SF x with
  | SpecFloat.S754_zero _ | SpecFloat.S754_nan => false
  | _ => true
  end.

(** What the template literal writes for [Math.round(x)]: for a finite [x]
    the integer [floor(x + 1/2)] in decimal (the values here are far below
    1e21, where the notation changes). *)
Definition Math_round_text (x : PrimFloat.float) : jsstring :=
  match FloatOps.Prim2SF x with
  | SpecFloat.S754_zero _ => u "0"
  | SpecFloat.S754_nan => u "NaN"
  | SpecFloat.S754_infinity false => u "Infinity"
  | SpecFloat.S754_infinity true => u "-Infinity"
  | SpecFloat.S754_finite sign m e =>
    let v := if sign then Z.neg m else Z.pos m in
    let r := if (0 <=? e)%Z then (v * 2 ^ e)%Z
             else ((2 * v + 2 ^ (- e)) / 2 ^ (1 - e))%Z in
    if (r <? 0)%Z then u "-" ++ String_of_N (Z.to_N (- r))
    else String_of_N (Z.to_N r)
  end.

(** [${Math.round(count / issuesCount * 100 || 0)}] *)
Definition percentage (count issuesCount : nat) : jsstring :=
  let ratio :=
    PrimFloat.mul (PrimFloat.div (Number_of_nat count) (Number_of_nat issuesCount))
                  (Number_of_nat 100) in
  Math_round_text (if Number_truthy ratio then ratio else Number_of_nat 0).

Definition String_of_nat (n : nat) : jsstring := String_of_N (N.of_nat n).

Definition count_severity (s : string) (l : list Issue) : nat :=
  length (filter (fun i => JS.eqb (severity i) (u s)) l).

(** [results.reduce((sum, result) => sum + result.issues.length, 0)] *)
Definition issuesCount (results : list ReviewResult) : nat :=
  fold_left (fun sum result => sum + length (issues result)) results 0.

(** [severityDistribution] in [buildSummaryPrompt]. *)
Definition severityDistribution (results : list ReviewResult) : jsstring :=
  let issuesCount := issuesCount results in
  let allIssues := flat_map issues results in
  let errorCount := count_severity "error" allIssues in
  let warningCount := count_severity "warning" allIssues in
  let infoCount := count_severity "info" allIssues in
  u "严重问题: " ++ String_of_nat errorCount ++ u "个 ("
    ++ percentage errorCount issuesCount ++ u "%)" ++ nl
  ++ u "警告: " ++ String_of_nat warningCount ++ u "个 ("
    ++ percentage warningCount issuesCount ++ u "%)" ++ nl
  ++ u "信息: " ++ String_of_nat infoCount ++ u "个 ("
    ++ percentage infoCount issuesCount ++ u "%)".

(** One line of the detailed report of a file. *)
Definition issue_line (issue : Issue) : jsstring :=
  let lineInfo :=
    match line issue with
    | Some n => if (n =? 0)%N then u "通用" else u "第" ++ String_of_Number n ++ u "行"
    | None => u "通用"
    end in
  let suggestion :=
    match suggestion issue with
    | Some ((_ :: _) as s) => nl ++ u "建议: " ++ s
    | _ => []
    end in
  u "- [" ++ toUpperCase (severity issue) ++ u "] " ++ lineInfo ++ u ": "
    ++ message issue ++ suggestion.

(** [detailedResults] in [buildSummaryPrompt]. *)
Definition detailedResults (results : list ReviewResult) : jsstring :=
  JS.join (nl ++ nl)
    (map (fun result =>
            let errorCount := count_severity "error" (issues result) in
            let warningCount := count_severity "warning" (issues result) in
            let infoCount := count_severity "info" (issues result) in
            let severitySummary :=
              u "严重问题: " ++ String_of_nat errorCount ++ u "个, 警告: "
                ++ String_of_nat warningCount ++ u "个, 信息: "
                ++ String_of_nat infoCount ++ u "个" in
            u "## 文件: " ++ file result ++ nl
              ++ severitySummary ++ nl
              ++ (if JS.truthy (summary result)
                  then nl ++ u "文件摘要: " ++ summary result ++ nl else [])
              ++ nl ++ nl
              ++ u "详细问题:" ++ nl
              ++ JS.join nl (map issue_line (issues result)) ++ nl)
         results).

(** [buildSummaryPrompt]; [customPrompt] is [config.review?.prompts?.summary]. *)
Definition buildSummaryPrompt (customPrompt : option jsstring)
    (results : list ReviewResult) : jsstring :=
  let filesCount := length results in
  let issuesCount := issuesCount results in
  match customPrompt with
  | Some ((_ :: _) as customPrompt) =>
    JS.replace
      (JS.replace
         (JS.replace
            (JS.replace customPrompt (u "{{filesCount}}") (String_of_nat filesCount))
            (u "{{issuesCount}}") (String_of_nat issuesCount))
         (u "{{resultsSummary}}") (detailedResults results))
      (u "{{severityDistribution}}") (severityDistribution results)
  | _ =>
    u "请对以下代码审查结果进行全面总结，并提供详细的整体改进建议:" ++ nl
    ++ nl
    ++ u "审查了 " ++ String_of_nat filesCount ++ u " 个文件，共发现 "
    ++ String_of_nat issuesCount ++ u " 个问题。" ++ nl
    ++ nl
    ++ u "问题严重程度分布:" ++ nl
    ++ severityDistribution results ++ nl
    ++ nl
    ++ u "详细审查结果:" ++ nl
    ++ detailedResults results ++ nl
    ++ nl
    ++ lines [
      "请基于以上结果提供:";
      "1. 代码库整体质量评估";
      "2. 按文件列出关键问题及建议";
      "3. 最常见的问题类型及改进方向";
      "4. 优先修复的关键问题";
      "5. 整体代码质量改进建议" ]
  end.

(** A diff whose content holds a dollar pair, as shell scripts do. *)
Definition example_shell_diff : CodeDiff :=
  {| oldPath := u "run.sh"; newPath := u "run.sh";
     oldContent := []; newContent := [];
     diffContent := u "+echo $$ > run.pid"; language := None |}.

(** Reviewed files without a finding. *)
Definition example_clean_results : list ReviewResult :=
  [ {| file := u "src/a.ts"; issues := []; summary := u "clean" |};
    {| file := u "src/b.ts"; issues := []; summary := [] |} ].

(** The severity distribution written for a run without issues. *)
Definition zero_distribution : jsstring :=
  lines ["严重问题: 0个 (0%)"; "警告: 0个 (0%)"; "信息: 0个 (0%)"].

End Provider.

(* ================================================================== *)
(** ** The core reviewer: the diff filter and the single-file review *)
(* ================================================================== *)

Module Reviewer.

(** [config.review]: the four optional pattern lists. *)
Record ReviewConfig : Type := {
  ignoreFiles : option (list jsstring);
  ignorePaths : option (list jsstring);
  includePatterns : option (list jsstring);
  excludePatterns : option (list jsstring)
}.

(** [/\./g] and [/\*/g] *)
Definition re_dot : RegExp := {| pattern := RChar 46%N; re_flags := no_flags |}.
Definition re_star : RegExp := {| pattern := RChar 42%N; re_flags := no_flags |}.

(** The source text handed to [new RegExp]. *)
Definition regexPattern (pattern : jsstring) : jsstring :=
  Re.replace_all (Re.replace_all pattern re_dot (u "\.")) re_star (u ".*").

Section Filter.

(** [new RegExp(source)]: the compiled expression, or [None] when the
    constructor throws a SyntaxError. *)
Variable new_RegExp : jsstring -> option RegExp.

(** The callback of [patterns.some] in [matchPatterns]. *)
Definition matchPattern (filePath pattern : jsstring) : completion bool :=
  if includes pattern (u "*") then
    match new_RegExp (u "^" ++ regexPattern pattern ++ u "$") with
    | Some compiled => Normal (test compiled filePath)
    | None => Throw (u "SyntaxError")
    end
  else Normal (JS.eqb filePath pattern).

(** [array.some(f)] with a callback that may throw: it stops at the first
    element for which [f] answers true. *)
Fixpoint some {A : Type} (f : A -> completion bool) (l : list A) : completion bool :=
  match l with
  | [] => Normal false
  | x :: rest =>
    found <- f x ;;
    if (found : bool) then Normal true else some f rest
  end.

(** [array.filter(f)] with a callback that may throw. *)
Fixpoint filter_c {A : Type} (f : A -> completion bool) (l : list A)
  : completion (list A) :=
  match l with
  | [] => Normal []
  | x :: rest =>
    keep <- f x ;;
    kept <- filter_c f rest ;;
    Normal (if (keep : bool) then x :: kept else kept)
  end.

(** [matchPatterns] *)
Definition matchPatterns (filePath : jsstring) (patterns : list jsstring)
  : completion bool :=
  some (matchPattern filePath) patterns.

(** The callback of [diffs.filter] in [filterDiffs]. *)
Definition keepDiff (cfg : ReviewConfig) (diff : CodeDiff) : completion bool :=
  let filePath := newPath diff in
  ignored <- (match ignoreFiles cfg with
              | Some pats => matchPatterns filePath pats
              | None => Normal false
              end) ;;
  if (ignored : bool) then Normal false
  else
    if (match ignorePaths cfg with
        | Some paths => existsb (fun path => startsWith filePath path) paths
        | None => false
        end)
    then Normal false
    else
      not_included <- (match includePatterns cfg with
                       | Some ((_ :: _) as pats) =>
                         matched <- matchPatterns filePath pats ;;
                         Normal (negb matched)
                       | _ => Normal false
                       end) ;;
      if (not_included : bool) then Normal false
      else
        excluded <- (match excludePatterns cfg with
                     | Some pats => matchPatterns filePath pats
                     | None => Normal false
                     end) ;;
        Normal (negb excluded).

(** [filterDiffs] *)
Definition filterDiffs (cfg : ReviewConfig) (diffs : list CodeDiff)
  : completion (list CodeDiff) :=
  filter_c (keepDiff cfg) diffs.

(** *** The decision order as the specification words it *)






(** The verdict on a diff whose tests all answered. *)
Definition kept (cfg : ReviewConfig) (diff : CodeDiff) : bool :=
  match keepDiff cfg diff with
  | Normal b => b
  | _ => false
  end.

End Filter.

(** *** [new RegExp(source)], without flags

    The pattern grammar of ECMA-262 (22.2.1) with the additions of its
    annex B, read into the terms of the matcher above. [Rejected] is the
    SyntaxError of the constructor. [Unread] marks what the matcher has no
    term for (word boundaries, back-references, negative look-ahead,
    look-behind, named groups and group modifiers) and what is left out
    here (a backslash before a digit other than a lone [0], a control
    escape of a class with a digit or an underscore, a bound above 1000 in
    braces): nothing is said of what the constructor does with them. *)

Inductive reading (A : Type) : Type :=
| Read (a : A)
| Rejected
| Unread.
Arguments Read {A} a.
Arguments Rejected {A}.
Arguments Unread {A}.

Definition syntax_char (c : cu) : bool :=
  existsb (N.eqb c) (u "^$\.*+?()[]{}|").

Definition is_letter (c : cu) : bool :=
  (((65 <=? c) && (c <=? 90)) || ((97 <=? c) && (c <=? 122)))%N.

(** The code units from [a] to [b]. *)
Definition code_units (a b : N) : list cu :=
  map (fun k => (a + N.of_nat k)%N) (List.seq 0 (N.to_nat (b + 1 - a))).

Definition digit_units : list cu := code_units 48 57.

(** The letters, the digits and the underscore. *)
Definition word_units : list cu :=
  code_units 48 57 ++ code_units 65 90 ++ [95%N] ++ code_units 97 122.

(** ControlEscape: [\t \n \v \f \r]. *)
Definition control_escape (e : cu) : option cu :=
  if (e =? 116)%N then Some 9%N
  else if (e =? 110)%N then Some 10%N
  else if (e =? 118)%N then Some 11%N
  else if (e =? 102)%N then Some 12%N
  else if (e =? 114)%N then Some 13%N
  else None.

(** Whether the text goes on with a decimal digit. *)
Definition digit_next (s : jsstring) : bool :=
  match s with
  | d :: _ => is_digit d
  | [] => false
  end.

(** The value of a run of hexadecimal digits of the given length, when the
    text begins with one. *)
Fixpoint hex_run (n : nat) (acc : N) (s : jsstring) : option (N * jsstring) :=
  match n with
  | O => Some (acc, s)
  | S k =>
    match s with
    | h :: t =>
      match JSON.hex_value h with
      | Some d => hex_run k (acc * 16 + d)%N t
      | None => None
      end
    | [] => None
    end
  end.

(** CharacterEscape, for an atom and for a member of a class alike: the
    text after the backslash, which begins with [e]. [None] where the
    escape is read otherwise. *)
Definition character_escape (e : cu) (t : jsstring) : option (reading (cu * jsstring)) :=
  match control_escape e with
  | Some c => Some (Read (c, t))
  | None =>
    if (e =? 48)%N then Some (if digit_next t then Unread else Read (0%N, t))
    else if is_digit e then Some Unread
    else if (e =? 120)%N then
      Some (match hex_run 2 0 t with
            | Some (c, rest) => Read (c, rest)
            | None => Read (e, t)
            end)
    else if (e =? 117)%N then
      Some (match hex_run 4 0 t with
            | Some (c, rest) => Read (c, rest)
            | None => Read (e, t)
            end)
    else None
  end.

(** AtomEscape: the text after the backslash. *)
Definition atom_escape (s : jsstring) : reading (regex * jsstring) :=
  match s with
  | [] => Rejected
  | e :: t =>
    if (e =? 100)%N then Read (RSet false [CDigit], t)
    else if (e =? 68)%N then Read (RSet true [CDigit], t)
    else if (e =? 115)%N then Read (RSet false [CSpace], t)
    else if (e =? 83)%N then Read (RSet false [CNotSpace], t)
    else if (e =? 119)%N then Read (RSet false (map CChar word_units), t)
    else if (e =? 87)%N then Read (RSet true (map CChar word_units), t)
    else if (e =? 98)%N || (e =? 66)%N then Unread
    else if (e =? 99)%N then
      match t with
      | l :: t' =>
        if is_letter l then Read (RChar (l mod 32)%N, t') else Read (RChar 92%N, s)
      | [] => Read (RChar 92%N, s)
      end
    else
      match character_escape e t with
      | Some (Read (c, rest)) => Read (RChar c, rest)
      | Some Rejected => Rejected
      | Some Unread => Unread
      | None => Read (RChar e, t)
      end
  end.

(** *** Character classes *)

(** A member of a class: a character, some items, or every character but
    some. *)
Inductive class_atom : Type :=
| Single (c : cu)
| Several (items : list citem)
| Except (units : list cu).

(** ClassAtom: one member of a class that is not its closing bracket. *)
Definition read_class_atom (s : jsstring) : reading (class_atom * jsstring) :=
  match s with
  | [] => Rejected
  | c :: t =>
    if (c =? 92)%N then
      match t with
      | [] => Rejected
      | e :: t' =>
        if (e =? 100)%N then Read (Several [CDigit], t')
        else if (e =? 68)%N then Read (Except digit_units, t')
        else if (e =? 115)%N then Read (Several [CSpace], t')
        else if (e =? 83)%N then Read (Several [CNotSpace], t')
        else if (e =? 119)%N then Read (Several (map CChar word_units), t')
        else if (e =? 87)%N then Read (Except word_units, t')
        else if (e =? 98)%N then Read (Single 8%N, t')
        else if (e =? 99)%N then
          match t' with
          | l :: t'' =>
            if is_letter l then Read (Single (l mod 32)%N, t'')
            else if is_digit l || (l =? 95)%N then Unread
            else Read (Single 92%N, t)
          | [] => Read (Single 92%N, t)
          end
        else
          match character_escape e t' with
          | Some (Read (x, rest)) => Read (Single x, rest)
          | Some Rejected => Rejected
          | Some Unread => Unread
          | None => Read (Single e, t')
          end
      end
    else Read (Single c, t)
  end.

(** The members read so far: the items, and the characters outside which
    every character is a member, when an escape such as [\D] was read. *)
Definition class_members : Type := list citem * option (list cu).

Definition add_member (m : class_members) (a : class_atom) : class_members :=
  match a with
  | Single c => (fst m ++ [CChar c], snd m)
  | Several items => (fst m ++ items, snd m)
  | Except units =>
    (fst m,
     match snd m with
     | None => Some units
     | Some others => Some (filter (fun c => existsb (N.eqb c) units) others)
     end)
  end.

(** ClassRanges, up to the closing bracket. [fuel] bounds the unfolding by
    the length of the text. *)
Fixpoint class_ranges (fuel : nat) (acc : class_members) (s : jsstring)
  : reading (class_members * jsstring) :=
  match fuel with
  | O => Unread
  | S f =>
    match s with
    | [] => Rejected
    | c :: t =>
      if (c =? 93)%N then Read (acc, t)
      else
        match read_class_atom s with
        | Read (a, t1) =>
          match t1 with
          | dash :: x :: _ =>
            if (dash =? 45)%N && negb (x =? 93)%N then
              match read_class_atom (tl t1) with
              | Read (b, t2) =>
                match a, b with
                | Single lo, Single hi =>
                  if (lo <=? hi)%N
                  then class_ranges f (fst acc ++ map CChar (code_units lo hi), snd acc) t2
                  else Rejected
                | _, _ =>
                  class_ranges f (add_member (add_member (add_member acc a) (Single 45%N)) b) t2
                end
              | Rejected => Rejected
              | Unread => Unread
              end
            else class_ranges f (add_member acc a) t1
          | _ => class_ranges f (add_member acc a) t1
          end
        | Rejected => Rejected
        | Unread => Unread
        end
    end
  end.

(** CharacterClass: the text after the opening bracket. The members are
    the items or, with the characters [others] outside which every
    character is a member, all but those of [others] that no item holds. *)
Definition character_class (s : jsstring) : reading (regex * jsstring) :=
  let negated := match s with c :: _ => (c =? 94)%N | [] => false end in
  let body := if negated then tl s else s in
  match class_ranges (S (length body)) ([], None) body with
  | Read ((items, None), rest) => Read (RSet negated items, rest)
  | Read ((items, Some others), rest) =>
    Read (RSet (negb negated)
               (map CChar
                    (filter (fun c => negb (existsb (item_matches no_flags c) items))
                            others)),
          rest)
  | Rejected => Rejected
  | Unread => Unread
  end.

(** *** Quantifiers *)

Fixpoint digits_of (s : jsstring) : jsstring * jsstring :=
  match s with
  | d :: t =>
    if is_digit d then (let r := digits_of t in (d :: fst r, snd r)) else ([], s)
  | [] => ([], [])
  end.

(** The text after an opening brace, when it is that of a quantifier:
    [n}], [n,}] or [n,m}]. *)
Definition braced (s : jsstring) : option (N * option N * jsstring) :=
  let (lo, r1) := digits_of s in
  match lo with
  | [] => None
  | _ :: _ =>
    match r1 with
    | c :: r2 =>
      if (c =? 125)%N then Some (digits_value lo, Some (digits_value lo), r2)
      else if (c =? 44)%N then
        match r2 with
        | c' :: r3 =>
          if (c' =? 125)%N then Some (digits_value lo, None, r3)
          else
            let (hi, r4) := digits_of r2 in
            match hi, r4 with
            | _ :: _, c'' :: r5 =>
              if (c'' =? 125)%N
              then Some (digits_value lo, Some (digits_value hi), r5)
              else None
            | _, _ => None
            end
        | [] => None
        end
      else None
    | [] => None
    end
  end.

(** The optional [?] that makes a quantifier lazy. *)
Definition lazy_mark (a : regex) (min : nat) (max : option nat) (s : jsstring)
  : reading (regex * jsstring) :=
  match s with
  | c :: t =>
    if (c =? 63)%N then Read (RQuant a min max false, t)
    else Read (RQuant a min max true, s)
  | [] => Read (RQuant a min max true, s)
  end.

(** An atom and the quantifier that may follow it. *)
Definition with_quantifier (a : regex) (s : jsstring) : reading (regex * jsstring) :=
  match s with
  | c :: t =>
    if (c =? 42)%N then lazy_mark a 0 None t
    else if (c =? 43)%N then lazy_mark a 1 None t
    else if (c =? 63)%N then lazy_mark a 0 (Some 1) t
    else if (c =? 123)%N then
      match braced t with
      | None => Read (a, s)
      | Some (lo, hi, rest) =>
        if (1000 <? lo)%N || match hi with Some h => (1000 <? h)%N | None => false end
        then Unread
        else if match hi with Some h => (h <? lo)%N | None => false end
        then Rejected
        else lazy_mark a (N.to_nat lo) (option_map N.to_nat hi) rest
      end
    else Read (a, s)
  | [] => Read (a, s)
  end.

(** Whether the text begins with a character that may open a quantifier. *)
Definition quantifier_head (s : jsstring) : bool :=
  match s with
  | c :: _ => (c =? 42)%N || (c =? 43)%N || (c =? 63)%N || (c =? 123)%N
  | [] => false
  end.

(** Whether the text begins with a quantifier. *)
Definition quantifier_next (s : jsstring) : bool :=
  match s with
  | c :: t =>
    (c =? 42)%N || (c =? 43)%N || (c =? 63)%N
    || ((c =? 123)%N && match braced t with Some _ => true | None => false end)
  | [] => false
  end.

(** *** Disjunctions *)

Definition alternative (terms_rev : list regex) : regex :=
  fold_right RSeq REmpty (rev terms_rev).

(** The alternatives read so far, the last one first, and the one that ends. *)
Definition disjunction (terms_rev alts_rev : list regex) : regex :=
  fold_left (fun acc a => RAlt a acc) alts_rev (alternative terms_rev).

(** Disjunction: [inside] a group up to its closing parenthesis, otherwise
    up to the end of the text. [n] counts the capturing groups opened so
    far. The result is the expression, the text after it and the count.
    [fuel] bounds the unfolding by the length of the text. *)
Fixpoint read_disjunction (fuel : nat) (inside : bool) (n : nat)
    (terms_rev alts_rev : list regex) (s : jsstring) {struct fuel}
  : reading (regex * jsstring * nat) :=
  match fuel with
  | O => Unread
  | S f =>
    let next (a : reading (regex * jsstring)) (n' : nat) :=
      match a with
      | Read (atom, rest) =>
        match with_quantifier atom rest with
        | Read (term, rest') =>
          read_disjunction f inside n' (term :: terms_rev) alts_rev rest'
        | Rejected => Rejected
        | Unread => Unread
        end
      | Rejected => Rejected
      | Unread => Unread
      end in
    match s with
    | [] =>
      if inside then Rejected else Read (disjunction terms_rev alts_rev, [], n)
    | c :: t =>
      if (c =? 41)%N then
        if inside then Read (disjunction terms_rev alts_rev, t, n) else Rejected
      else if (c =? 124)%N then
        read_disjunction f inside n [] (alternative terms_rev :: alts_rev) t
      else if (c =? 94)%N then
        read_disjunction f inside n (RBegin :: terms_rev) alts_rev t
      else if (c =? 36)%N then
        read_disjunction f inside n (REnd :: terms_rev) alts_rev t
      else if quantifier_next s then Rejected
      else if (c =? 40)%N then
        match t with
        | q :: k :: t' =>
          if (q =? 63)%N then
            if (k =? 58)%N then
              match read_disjunction f true n [] [] t' with
              | Read (r, rest, n') => next (Read (r, rest)) n'
              | Rejected => Rejected
              | Unread => Unread
              end
            else if (k =? 61)%N then
              match read_disjunction f true n [] [] t' with
              | Read (r, rest, n') => next (Read (RLookahead r, rest)) n'
              | Rejected => Rejected
              | Unread => Unread
              end
            else Unread
          else
            match read_disjunction f true (S n) [] [] t with
            | Read (r, rest, n') => next (Read (RGroup (S n) r, rest)) n'
            | Rejected => Rejected
            | Unread => Unread
            end
        | _ =>
          match read_disjunction f true (S n) [] [] t with
          | Read (r, rest, n') => next (Read (RGroup (S n) r, rest)) n'
          | Rejected => Rejected
          | Unread => Unread
          end
        end
      else if (c =? 92)%N then next (atom_escape t) n
      else if (c =? 91)%N then next (character_class t) n
      else if (c =? 46)%N then next (Read (RDot, t)) n
      else next (Read (RChar c, t)) n
    end
  end.

(** The pattern of [new RegExp(source)]. *)
Definition RegExp_reading (source : jsstring) : reading RegExp :=
  match read_disjunction (S (length source)) false 0 [] [] source with
  | Read (r, _, _) => Read {| pattern := r; re_flags := no_flags |}
  | Rejected => Rejected
  | Unread => Unread
  end.

(** [new RegExp(source)] as the filter uses it: the compiled expression, or
    [None] for a SyntaxError. On the sources that [RegExp_reading] leaves
    unread this function answers [None] as well; the statements about
    arbitrary patterns are made for every constructor that agrees with the
    reading where it reads ([constructor_reads]), not for this one. *)
Definition new_RegExp (source : jsstring) : option RegExp :=
  match RegExp_reading source with
  | Read r => Some r
  | Rejected => None
  | Unread => None
  end.

(** A constructor that answers as the reading says, wherever it reads. *)
Definition constructor_reads (compile : jsstring -> option RegExp) : Prop :=
  forall source,
    match RegExp_reading source with
    | Read r => compile source = Some r
    | Rejected => compile source = None
    | Unread => True
    end.

(** *** Glob-like patterns, as the specification reads them *)

(** A pattern character that means itself, [.] and [*] apart: none of the
    syntax characters of the pattern grammar. *)
Definition glob_char (c : cu) : bool :=
  negb (syntax_char c) || (c =? 46)%N || (c =? 42)%N.

Definition glob_pattern (p : jsstring) : bool := forallb glob_char p.

(** The dot escaped, the star made [.*]. *)
Definition glob_source (c : cu) : jsstring :=
  if (c =? 46)%N then u "\." else if (c =? 42)%N then u ".*" else [c].

(** The term each pattern character compiles to. *)
Definition glob_term (c : cu) : regex :=
  if (c =? 42)%N then star RDot else RChar c.

Definition no_line_terminator (s : jsstring) : Prop :=
  Forall (fun c => is_line_terminator c = false) s.

(** The paths the anchored expression accepts, whole: a star stands for
    any run of characters other than line terminators, every other
    character of the pattern for itself. *)
Inductive glob_accepts : jsstring -> jsstring -> Prop :=
| glob_end : glob_accepts [] []
| glob_star p s1 s2 :
    no_line_terminator s1 -> glob_accepts p s2 ->
    glob_accepts (42%N :: p) (s1 ++ s2)
| glob_same c p s :
    c <> 42%N -> glob_accepts p s -> glob_accepts (c :: p) (c :: s).

Definition not_terminator (x : cu) : bool := negb (is_line_terminator x).

(** The terms of a glob-like pattern, then [$]. *)
Definition glob_body (p : jsstring) : regex :=
  fold_right RSeq REmpty (map glob_term p ++ [REnd]).





(** *** Single-file review *)

Inductive level : Type := Info | Warn | Error | Success | Log.

(** What the run does to the outside, in order. *)
Inductive event : Type :=
| Consola (l : level) (text : jsstring)
| GetCodeDiffs
| ReviewCode (diff : CodeDiff)
| SubmitReviewComment (filePath : jsstring) (line : option N) (comment : jsstring).

(** The members an object literal inherits from [Object.prototype], as a
    template literal of Node.js writes them: the functions with the text of
    a built-in function, [__proto__], which is the prototype itself, as an
    object. *)
Definition inherited_functions : list jsstring :=
  map u [ "__defineGetter__"; "__defineSetter__"; "hasOwnProperty";
          "__lookupGetter__"; "__lookupSetter__"; "isPrototypeOf";
          "propertyIsEnumerable"; "toString"; "valueOf"; "toLocaleString" ].

Definition inherited_text (name : jsstring) : option jsstring :=
  if JS.eqb name (u "constructor") then Some (u "function Object() { [native code] }")
  else if JS.eqb name (u "__proto__") then Some (u "[object Object]")
  else if existsb (JS.eqb name) inherited_functions
  then Some (u "function " ++ name ++ u "() { [native code] }")
  else None.

(** [formatIssueComment]. The emoji is looked up in an object literal: a
    severity outside the three finds a member of [Object.prototype] when
    it is the name of one, and nothing otherwise, which is written
    [undefined]. *)
Definition formatIssueComment (issue : Issue) : jsstring :=
  let severityEmoji :=
    if JS.eqb (severity issue) (u "error") then u "❌"
    else if JS.eqb (severity issue) (u "warning") then u "⚠️"
    else if JS.eqb (severity issue) (u "info") then u "ℹ️"
    else match inherited_text (severity issue) with
         | Some text => text
         | None => u "undefined"
         end in
  let comment := severityEmoji ++ u " **" ++ message issue ++ u "**" ++ nl ++ nl in
  let comment :=
    match suggestion issue with
    | Some ((_ :: _) as s) => comment ++ u "建议: " ++ s ++ nl ++ nl
    | _ => comment
    end in
  match code issue with
  | Some ((_ :: _) as c) =>
    comment ++ u "示例代码:" ++ nl ++ u "```" ++ nl ++ c ++ nl ++ u "```" ++ nl
  | _ => comment
  end.

Section SingleFile.

(** The platform and the provider live in a world of their own. *)
Variable World : Type.
Variable getCodeDiffs : World -> completion (list CodeDiff) * World.
Variable reviewCode : CodeDiff -> World -> completion (option ReviewResult) * World.
Variable submitReviewComment :
  jsstring -> option N -> jsstring -> World -> completion unit * World.
Variable formatSingleFileReview : ReviewResult -> jsstring.

(** An asynchronous step: it reads and changes the world, adds to the
    trace (latest event first), and ends as a completion. *)
Definition action (A : Type) : Type :=
  World * list event -> completion A * (World * list event).

Definition ret {A : Type} (a : A) : action A := fun s => (Normal a, s).

Definition and_then {A B : Type} (m : action A) (k : A -> action B) : action B :=
  fun s =>
    match m s with
    | (Normal a, s') => k a s'
    | (Throw d, s') => (Throw d, s')
    | (Diverge, s') => (Diverge, s')
    end.

Definition emit (e : event) : action unit :=
  fun s => (Normal tt, (fst s, e :: snd s)).

(** A call to a collaborator, noted in the trace before it runs. *)
Definition call {A : Type} (e : event) (f : World -> completion A * World)
  : action A :=
  fun s =>
    let (r, w) := f (fst s) in
    (r, (w, e :: snd s)).

Definition catch {A : Type} (m : action A) (handler : jsstring -> action A)
  : action A :=
  fun s =>
    match m s with
    | (Throw d, s') => handler d s'
    | other => other
    end.

Definition throw {A : Type} (detail : jsstring) : action A :=
  fun s => (Throw detail, s).

Notation "x <-- m ;;; k" := (and_then m (fun x => k))
  (at level 61, m at next level, right associativity).
Notation "m ;;; k" := (and_then m (fun _ => k))
  (at level 61, right associativity).

(** [for (const issue of reviewResult.issues)] *)
Fixpoint submit_comments (targetFile : jsstring) (l : list Issue) : action unit :=
  match l with
  | [] => ret tt
  | issue :: rest =>
    let message := formatIssueComment issue in
    call (SubmitReviewComment targetFile (line issue) message)
         (submitReviewComment targetFile (line issue) message) ;;;
    submit_comments targetFile rest
  end.

(** [reviewSingleFile]; [None] is [null]. *)
Definition reviewSingleFile (targetFile : jsstring) : action (option ReviewResult) :=
  emit (Consola Info (u "开始审查单个文件: " ++ targetFile)) ;;;
  catch
    (diffs <-- call GetCodeDiffs getCodeDiffs ;;;
     emit (Consola Info (u "获取到 " ++ Provider.String_of_nat (length diffs)
                         ++ u " 个文件差异")) ;;;
     match diffs with
     | [] =>
       emit (Consola Warn (u "没有发现代码差异，审查结束")) ;;;
       ret None
     | _ :: _ =>
       match find (fun diff => JS.eqb (newPath diff) targetFile) diffs with
       | None =>
         emit (Consola Warn (u "未找到目标文件 " ++ targetFile ++ u " 的差异")) ;;;
         ret None
       | Some targetDiff =>
         emit (Consola Info (u "找到目标文件: " ++ newPath targetDiff)) ;;;
         reviewResult <-- call (ReviewCode targetDiff) (reviewCode targetDiff) ;;;
         match reviewResult with
         | None =>
           emit (Consola Warn (u "审查结果为空")) ;;;
           ret None
         | Some reviewResult =>
           emit (Consola Log (formatSingleFileReview reviewResult)) ;;;
           submit_comments targetFile (issues reviewResult) ;;;
           emit (Consola Success
                   (u "文件 " ++ targetFile ++ u " 审查完成，已添加 "
                    ++ Provider.String_of_nat (length (issues reviewResult))
                    ++ u " 条评论")) ;;;
           ret (Some reviewResult)
         end
       end
     end)
    (fun detail =>
       emit (Consola Error (u "审查文件 " ++ targetFile ++ u " 时出错: " ++ detail)) ;;;
       throw detail).

End SingleFile.

(** An event that reaches neither the model nor the comment sink. *)
Definition quiet (e : event) : Prop :=
  match e with
  | ReviewCode _ | SubmitReviewComment _ _ _ => False
  | _ => True
  end.

(** A platform with one changed file, for the examples. *)
Definition example_diff : CodeDiff :=
  {| oldPath := u "src/a.ts"; newPath := u "src/a.ts";
     oldContent := []; newContent := [];
     diffContent := u "+x"; language := None |}.

End Reviewer.

(* ================================================================== *)
(** ** Configuration: defaults, environment, merge and validation *)
(* ================================================================== *)

Module Config.

(** A number in a configuration object: a double, or [null] (what
    [JSON.stringify] writes for [NaN] and the infinities). *)
Inductive numeric : Type :=
| Num (x : PrimFloat.float)
| Null.

(** [AiReviewerConfig['ai']]. A property that is absent is [None]. *)
Record AiSettings : Type := {
  provider : option jsstring;
  model : option jsstring;
  apiKey : option jsstring;
  baseUrl : option jsstring;
  temperature : option numeric;
  maxTokens : option numeric
}.

(** [AiReviewerConfig['platform']] *)
Record PlatformSettings : Type := {
  type : option jsstring;
  token : option jsstring;
  url : option jsstring
}.

(** [AiReviewerConfig['review']['prompts']] *)
Record Prompts : Type := {
  system : option jsstring;
  review_prompt : option jsstring;      (* [review]  *)
  summary_prompt : option jsstring      (* [summary] *)
}.

(** [AiReviewerConfig['review']] *)
Record ReviewSettings : Type := {
  ignoreFiles : option (list jsstring);
  ignorePaths : option (list jsstring);
  includePatterns : option (list jsstring);
  excludePatterns : option (list jsstring);
  prompts : option Prompts
}.

(** [AiReviewerConfig] *)
Record AiReviewerConfig : Type := {
  ai : AiSettings;
  platform : PlatformSettings;
  review : ReviewSettings
}.

(** [Partial<AiReviewerConfig>]; [notifications] is an object without
    members, only its presence counts. *)
Record PartialConfig : Type := {
  p_ai : option AiSettings;
  p_platform : option PlatformSettings;
  p_notifications : bool;
  p_review : option ReviewSettings
}.

Definition default_model : jsstring := u "deepseek/deepseek-chat-v3-0324:free".

Definition default_system_prompt : jsstring :=
  lines [ "你是一个专业的代码审查助手，擅长识别代码中的问题并提供改进建议。";
          "请按照以下格式提供反馈:";
          "1. 分析代码差异";
          "2. 列出具体问题";
          "3. 对每个问题提供改进建议";
          "4. 提供总结" ].

Definition default_ignoreFiles : list jsstring :=
  [ u "*.lock"; u "package-lock.json"; u "yarn.lock"; u "pnpm-lock.yaml";
    u "*.min.js"; u "*.min.css" ].

Definition default_ignorePaths : list jsstring :=
  [ u "node_modules/"; u "dist/"; u "build/"; u ".git/" ].

(** The double nearest to 0.1, as the literal [0.1] denotes it. *)
Definition Number_0_1 : PrimFloat.float :=
  PrimFloat.div (Provider.Number_of_nat 1) (Provider.Number_of_nat 10).

(** [defaultConfig] *)
Definition defaultConfig : AiReviewerConfig :=
  {| ai := {| provider := Some (u "openai");
              model := Some default_model;
              apiKey := None;
              baseUrl := None;
              temperature := Some (Num Number_0_1);
              maxTokens := Some (Num (Provider.Number_of_nat 4000)) |};
     platform := {| type := Some (u "local"); token := None; url := None |};
     review := {| ignoreFiles := Some default_ignoreFiles;
                  ignorePaths := Some default_ignorePaths;
                  includePatterns := None;
                  excludePatterns := None;
                  prompts := Some {| system := Some default_system_prompt;
                                     review_prompt := None;
                                     summary_prompt := None |} |} |}.

(** *** [loadEnvConfig] *)

(** [value || undefined] *)
Definition or_undefined (value : option jsstring) : option jsstring :=
  match value with
  | Some ((_ :: _) as s) => Some s
  | _ => None
  end.

(** [value ? value.split(',') : undefined] *)
Definition split_list (value : option jsstring) : option (list jsstring) :=
  match value with
  | Some ((_ :: _) as s) => Some (JS.split s (u ","))
  | _ => None
  end.

(** A number after [JSON.parse(JSON.stringify(x))]: a finite double comes
    back as it was (the negative zero as zero), anything else as [null]. *)
Definition json_number (x : PrimFloat.float) : numeric :=
  match FloatOps.Prim2SF x with
  | SpecFloat.S754_zero _ => Num (Provider.Number_of_nat 0)
  | SpecFloat.S754_finite _ _ _ => Num x
  | _ => Null
  end.

Section Environment.

(** [Number.parseFloat] and [Number.parseInt] (with one argument). *)
Variable Number_parseFloat : jsstring -> PrimFloat.float.
Variable Number_parseInt : jsstring -> PrimFloat.float.

(** [process.env] *)
Variable env : jsstring -> option jsstring.

(** [value ? parse(value) : undefined], after the JSON round trip. *)
Definition parsed_number (parse : jsstring -> PrimFloat.float)
    (value : option jsstring) : option numeric :=
  match value with
  | Some ((_ :: _) as s) => Some (json_number (parse s))
  | _ => None
  end.

(** [loadEnvConfig]. The object goes through
    [JSON.parse(JSON.stringify(config))] before it is returned: properties
    whose value is [undefined] are dropped, strings come back unchanged. *)
Definition loadEnvConfig : PartialConfig :=
  {| p_ai := Some
       {| provider := or_undefined (env (u "AI_REVIEWER_PROVIDER"));
          model := Some (match env (u "AI_REVIEWER_MODEL") with
                         | Some ((_ :: _) as m) => m
                         | _ => default_model
                         end);
          apiKey := env (u "AI_REVIEWER_OPENAI_KEY");
          baseUrl := env (u "AI_REVIEWER_BASE_URL");
          temperature :=
            parsed_number Number_parseFloat (env (u "AI_REVIEWER_TEMPERATURE"));
          maxTokens :=
            parsed_number Number_parseInt (env (u "AI_REVIEWER_MAX_TOKENS")) |};
     p_platform := Some
       {| type := or_undefined (env (u "AI_REVIEWER_PLATFORM"));
          token := env (u "AI_REVIEWER_GITHUB_TOKEN");
          url := env (u "AI_REVIEWER_PLATFORM_URL") |};
     p_notifications := true;
     p_review := Some
       {| ignoreFiles := split_list (env (u "AI_REVIEWER_IGNORE_FILES"));
          ignorePaths := split_list (env (u "AI_REVIEWER_IGNORE_PATHS"));
          includePatterns := split_list (env (u "AI_REVIEWER_INCLUDE_PATTERNS"));
          excludePatterns := split_list (env (u "AI_REVIEWER_EXCLUDE_PATTERNS"));
          prompts := Some
            {| system := env (u "AI_REVIEWER_PROMPT_SYSTEM");
               review_prompt := env (u "AI_REVIEWER_PROMPT_REVIEW");
               summary_prompt := env (u "AI_REVIEWER_PROMPT_SUMMARY") |} |} |}.

End Environment.

(** *** [mergeConfig] *)

(** One property of [{ ...a, ...b }]: [b]'s when [b] has it. *)
Definition spread {A : Type} (a b : option A) : option A :=
  match b with
  | Some v => Some v
  | None => a
  end.

(** [{ ...merged.ai, ...config.ai }] *)
Definition spread_ai (a b : AiSettings) : AiSettings :=
  {| provider := spread (provider a) (provider b);
     model := spread (model a) (model b);
     apiKey := spread (apiKey a) (apiKey b);
     baseUrl := spread (baseUrl a) (baseUrl b);
     temperature := spread (temperature a) (temperature b);
     maxTokens := spread (maxTokens a) (maxTokens b) |}.

(** [{ ...merged.platform, ...config.platform }] *)
Definition spread_platform (a b : PlatformSettings) : PlatformSettings :=
  {| type := spread (type a) (type b);
     token := spread (token a) (token b);
     url := spread (url a) (url b) |}.

(** [{ ...merged.review.prompts, ...config.review.prompts }] *)
Definition spread_prompts (a : option Prompts) (b : Prompts) : Prompts :=
  match a with
  | Some a =>
    {| system := spread (system a) (system b);
       review_prompt := spread (review_prompt a) (review_prompt b);
       summary_prompt := spread (summary_prompt a) (summary_prompt b) |}
  | None => b
  end.

(** [[...(merged.review.x || []), ...config.review.x]] when the source
    has the list, the list as it was otherwise. *)
Definition extend (merged given : option (list jsstring)) : option (list jsstring) :=
  match given with
  | Some l => Some (match merged with Some m => m | None => [] end ++ l)
  | None => merged
  end.

(** The statements under [if (fileConfig.review)]. *)
Definition apply_file_review (merged fileReview : ReviewSettings) : ReviewSettings :=
  {| ignoreFiles := extend (ignoreFiles merged) (ignoreFiles fileReview);
     ignorePaths := extend (ignorePaths merged) (ignorePaths fileReview);
     includePatterns := spread (includePatterns merged) (includePatterns fileReview);
     excludePatterns := spread (excludePatterns merged) (excludePatterns fileReview);
     prompts := match prompts fileReview with
                | Some p => Some (spread_prompts (prompts merged) p)
                | None => prompts merged
                end |}.

(** The first part of [mergeConfig]: the file configuration. *)
Definition apply_file (merged : AiReviewerConfig) (fileConfig : PartialConfig)
  : AiReviewerConfig :=
  {| ai := match p_ai fileConfig with
           | Some a => spread_ai (ai merged) a
           | None => ai merged
           end;
     platform := match p_platform fileConfig with
                 | Some p => spread_platform (platform merged) p
                 | None => platform merged
                 end;
     review := match p_review fileConfig with
               | Some r => apply_file_review (review merged) r
               | None => review merged
               end |}.

(** The statements under [if (config.review)] in the loop. *)
Definition apply_review (merged configReview : ReviewSettings) : ReviewSettings :=
  {| ignoreFiles := extend (ignoreFiles merged) (ignoreFiles configReview);
     ignorePaths := extend (ignorePaths merged) (ignorePaths configReview);
     includePatterns := spread (includePatterns merged) (includePatterns configReview);
     excludePatterns := spread (excludePatterns merged) (excludePatterns configReview);
     prompts := match prompts configReview with
                | Some p => Some (spread_prompts (prompts merged) p)
                | None => prompts merged
                end |}.

(** The body of [for (const config of configs)]. *)
Definition apply_config (merged : AiReviewerConfig) (config : PartialConfig)
  : AiReviewerConfig :=
  {| ai := match p_ai config with
           | Some a => spread_ai (ai merged) a
           | None => ai merged
           end;
     platform := match p_platform config with
                 | Some p => spread_platform (platform merged) p
                 | None => platform merged
                 end;
     review := match p_review config with
               | Some r => apply_review (review merged) r
               | None => review merged
               end |}.

(** [mergeConfig] *)
Definition mergeConfig (defaultConfig : AiReviewerConfig)
    (fileConfig envConfig cliConfig : PartialConfig) : AiReviewerConfig :=
  let merged := apply_file defaultConfig fileConfig in
  fold_left apply_config [envConfig; cliConfig] merged.

(** [loadConfig], from the file configuration [loadConfigFile] found;
    the four [consola.log] lines between are left out. *)
Definition loadConfig (parseFloat parseInt : jsstring -> PrimFloat.float)
    (env : jsstring -> option jsstring)
    (fileConfig cliConfig : PartialConfig) : AiReviewerConfig :=
  mergeConfig defaultConfig fileConfig (loadEnvConfig parseFloat parseInt env)
              cliConfig.

(** The [cliConfig] of the commands [github-pr] and [github-file], and of
    [local]. *)
Definition cli_platform (name : string) : PartialConfig :=
  {| p_ai := None;
     p_platform := Some {| type := Some (u name); token := None; url := None |};
     p_notifications := false;
     p_review := None |}.

(** [validateConfig]: [Normal false] after an error is logged; reading
    [toUpperCase] of a missing platform type throws. *)
Definition validateConfig (config : AiReviewerConfig) : completion bool :=
  if (match provider (ai config) with
      | Some p => JS.eqb p (u "openai")
      | None => false
      end)
     && negb (match apiKey (ai config) with Some k => JS.truthy k | None => false end)
  then Normal false
  else
    if negb (match type (platform config) with
             | Some t => JS.eqb t (u "local")
             | None => false
             end)
       && negb (match token (platform config) with
                | Some k => JS.truthy k
                | None => false
                end)
    then
      match type (platform config) with
      | Some _ => Normal false
      | None => Throw (u "TypeError")
      end
    else Normal true.

(** What [filterDiffs] reads of a configuration. *)
Definition review_config (config : AiReviewerConfig) : Reviewer.ReviewConfig :=
  {| Reviewer.ignoreFiles := ignoreFiles (review config);
     Reviewer.ignorePaths := ignorePaths (review config);
     Reviewer.includePatterns := includePatterns (review config);
     Reviewer.excludePatterns := excludePatterns (review config) |}.

(** The list a source gives, empty when it gives none. *)
Definition given (f : ReviewSettings -> option (list jsstring))
    (config : PartialConfig) : list jsstring :=
  match p_review config with
  | Some r => match f r with Some l => l | None => [] end
  | None => []
  end.

(** The list of the first of the sources that has one. *)
Fixpoint first_given (f : ReviewSettings -> option (list jsstring))
    (sources : list PartialConfig) : option (list jsstring) :=
  match sources with
  | [] => None
  | c :: rest =>
    match p_review c with
    | Some r => match f r with Some l => Some l | None => first_given f rest end
    | None => first_given f rest
    end
  end.

(** The expression compiler builds, for a glob-like pattern, the
    expression its anchored source denotes. *)
Definition compiles_globs (compile : jsstring -> option RegExp) : Prop :=
  forall p, Reviewer.glob_pattern p = true ->
            compile (u "^" ++ Reviewer.regexPattern p ++ u "$")
            = Reviewer.new_RegExp (u "^" ++ Reviewer.regexPattern p ++ u "$").

(** A configuration source without a member. *)
Definition no_config : PartialConfig :=
  {| p_ai := None; p_platform := None; p_notifications := false;
     p_review := None |}.

(** A configuration file that names a model and more files to ignore. *)
Definition example_fileConfig : PartialConfig :=
  {| p_ai := Some {| provider := None; model := Some (u "gpt-4o");
                     apiKey := Some (u "sk-file"); baseUrl := None;
                     temperature := None; maxTokens := None |};
     p_platform := None;
     p_notifications := false;
     p_review := Some {| ignoreFiles := Some [u "*.snap"];
                         ignorePaths := None;
                         includePatterns := None;
                         excludePatterns := None;
                         prompts := Some {| system := None;
                                            review_prompt := Some (u "Review {{filePath}}");
                                            summary_prompt := None |} |} |}.

(** An environment without a variable. *)
Definition no_env (name : jsstring) : option jsstring := None.

(** A diff of the given path. *)
Definition diff_of (path : string) : CodeDiff :=
  {| oldPath := u path; newPath := u path; oldContent := []; newContent := [];
     diffContent := u "+x"; language := None |}.

End Config.

(* ================================================================== *)
(** ** Languages: the extension table and the display names *)
(* ================================================================== *)

Module Language.

(** [languageMap] *)
Definition languageMap : list (jsstring * jsstring) :=
  map (fun kv => (u (fst kv), u (snd kv)))
    [ ("js", "javascript"); ("jsx", "javascript");
      ("ts", "typescript"); ("tsx", "typescript");
      ("vue", "vue"); ("html", "html"); ("css", "css"); ("scss", "scss");
      ("sass", "sass"); ("less", "less");
      ("py", "python"); ("rb", "ruby"); ("php", "php"); ("java", "java");
      ("go", "go"); ("cs", "csharp");
      ("cpp", "cpp"); ("c", "c"); ("h", "c"); ("hpp", "cpp");
      ("rs", "rust"); ("swift", "swift"); ("kt", "kotlin"); ("scala", "scala");
      ("dart", "dart");
      ("md", "markdown"); ("json", "json"); ("yml", "yaml"); ("yaml", "yaml");
      ("xml", "xml"); ("sql", "sql");
      ("sh", "shell"); ("bash", "shell") ].

(** [displayLanguageMap] *)
Definition displayLanguageMap : list (jsstring * jsstring) :=
  map (fun kv => (u (fst kv), u (snd kv)))
    [ ("javascript", "JavaScript"); ("typescript", "TypeScript"); ("vue", "Vue");
      ("html", "HTML"); ("css", "CSS"); ("scss", "SCSS"); ("sass", "Sass");
      ("less", "Less"); ("python", "Python"); ("ruby", "Ruby"); ("php", "PHP");
      ("java", "Java"); ("go", "Go"); ("csharp", "C#"); ("cpp", "C++");
      ("c", "C"); ("rust", "Rust"); ("swift", "Swift"); ("kotlin", "Kotlin");
      ("scala", "Scala"); ("dart", "Dart"); ("markdown", "Markdown");
      ("json", "JSON"); ("yaml", "YAML"); ("xml", "XML"); ("sql", "SQL");
      ("shell", "Shell") ].

(** The properties an object literal inherits from [Object.prototype]. *)
Definition Object_prototype : list jsstring :=
  map u [ "constructor"; "__defineGetter__"; "__defineSetter__";
          "hasOwnProperty"; "__lookupGetter__"; "__lookupSetter__";
          "isPrototypeOf"; "propertyIsEnumerable"; "toString"; "valueOf";
          "__proto__"; "toLocaleString" ].

(** What reading a property of one of the two tables gives: the text the
    table holds, or a member of [Object.prototype] (a function or an
    object, never a string). *)
Inductive value : Type :=
| Text (s : jsstring)
| Inherited (name : jsstring).

(** An own property of a table. *)
Fixpoint own (table : list (jsstring * jsstring)) (key : jsstring)
  : option jsstring :=
  match table with
  | [] => None
  | (k, v) :: rest => if JS.eqb k key then Some v else own rest key
  end.

(** [table[key]]; [None] is [undefined]. *)
Definition get (table : list (jsstring * jsstring)) (key : jsstring)
  : option value :=
  match own table key with
  | Some v => Some (Text v)
  | None =>
    if existsb (JS.eqb key) Object_prototype then Some (Inherited key) else None
  end.

(** [toLowerCase] on the letters whose lower case is ASCII: the ASCII
    capitals and the Kelvin sign (U+212A), which becomes [k]. The other
    cased letters, which the code maps to letters outside ASCII, are left as
    they are; in a table whose keys are ASCII both fail to be found. *)
Definition lower (c : cu) : cu :=
  if ((65 <=? c) && (c <=? 90))%N then (c + 32)%N
  else if (c =? 0x212A)%N then 107%N
  else c.

Definition toLowerCase (s : jsstring) : jsstring := map lower s.

(** [filePath.split('.').pop()] *)
Definition extension (filePath : jsstring) : jsstring :=
  last (JS.split filePath (u ".")) [].

(** [detectLanguage]; [None] is [undefined]. *)
Definition detectLanguage (filePath : jsstring) : option value :=
  let ext := toLowerCase (extension filePath) in
  if JS.truthy ext then get languageMap ext else None.

(** ToBoolean of what a table gives. *)
Definition truthy (v : value) : bool :=
  match v with
  | Text s => JS.truthy s
  | Inherited _ => true
  end.

(** [getDisplayLanguage]: [displayLanguageMap[language] || language]. *)
Definition getDisplayLanguage (language : jsstring) : value :=
  match get displayLanguageMap language with
  | Some v => if truthy v then v else Text language
  | None => Text language
  end.

(** [OpenAIProvider.detectLanguage]. A member of [Object.prototype] is no
    key of the display table (as a property key it reads as its source
    text), so it comes back as it is. *)
Definition provider_detectLanguage (filePath : jsstring) : value :=
  match detectLanguage filePath with
  | Some lang =>
    if truthy lang then
      match lang with
      | Text l => getDisplayLanguage l
      | Inherited name => Inherited name
      end
    else Text (u "未知")
  | None => Text (u "未知")
  end.

(** [diff.language || this.detectLanguage(diff.newPath)] in [reviewCode]. *)
Definition review_language (diff : CodeDiff) : value :=
  match language diff with
  | Some ((_ :: _) as l) => Text l
  | _ => provider_detectLanguage (newPath diff)
  end.

(** The [language] both platforms give a diff: [detectLanguage(newPath)],
    when that is a string or [undefined]. *)
Definition platform_language (diff : CodeDiff) : Prop :=
  match detectLanguage (newPath diff) with
  | Some (Text l) => language diff = Some l
  | Some (Inherited _) => False
  | None => language diff = None
  end.

(** The code units of ASCII. *)
Definition ascii_text (s : jsstring) : Prop := Forall (fun c => (c < 128)%N) s.

(** A TypeScript file as a platform hands it on. *)
Definition example_ts_diff : CodeDiff :=
  {| oldPath := u "src/App.TS"; newPath := u "src/App.TS";
     oldContent := []; newContent := [];
     diffContent := u "+x"; language := Some (u "typescript") |}.

End Language.

(* ================================================================== *)
(** ** The provider's client options and prompts *)
(* ================================================================== *)

Module Client.

(** [AiProviderConfig['review']] *)
Record ProviderReview : Type := { prompts : option Config.Prompts }.

(** [AiProviderConfig] *)
Record AiProviderConfig : Type := {
  provider : option jsstring;
  model : option jsstring;
  apiKey : option jsstring;
  baseUrl : option jsstring;
  temperature : option Config.numeric;
  maxTokens : option Config.numeric;
  review : option ProviderReview
}.

(** [s.endsWith(suffix)] *)
Definition endsWith (s suffix : jsstring) : bool :=
  startsWith (rev s) (rev suffix).

(** [s.replace(re, replacement)] for a regular expression without the [g]
    flag and without capture groups: the first match only. *)
Definition replace_regexp (s : jsstring) (re : RegExp) (replacement : jsstring)
  : jsstring :=
  match exec re s with
  | Some m =>
    m_before m
      ++ getSubstitution (m_text m) (m_before m) (m_after m) replacement
      ++ m_after m
  | None => s
  end.

(** [/\/$/] *)
Definition re_trailing_slash : RegExp :=
  {| pattern := RSeq (RChar 47%N) REnd; re_flags := no_flags |}.

(** [config.baseUrl?.includes('openrouter.ai')], as the [if] reads it. *)
Definition isOpenRouter (config : AiProviderConfig) : bool :=
  match baseUrl config with
  | Some b => includes b (u "openrouter.ai")
  | None => false
  end.

(** The [baseURL] of an OpenRouter client: [/api/v1] is appended unless
    the address ends with it. *)
Definition openRouter_baseURL (baseURL : jsstring) : jsstring :=
  if negb (endsWith baseURL (u "/api/v1")) then
    replace_regexp baseURL re_trailing_slash [] ++ u "/api/v1"
  else baseURL.

(** What the constructor hands to [new OpenAI]. *)
Record ClientOptions : Type := {
  co_apiKey : jsstring;
  baseURL : option jsstring;
  defaultHeaders : option (jsstring * jsstring)   (* HTTP-Referer, X-Title *)
}.

Definition referer : jsstring := u "https://github.com/encode-studio-fe/ai-code-review".

(** The [clientOptions] of the [OpenAIProvider] constructor, or the error
    it throws before it builds them (its log lines are not part of the
    options). *)
Definition clientOptions (config : AiProviderConfig) : completion ClientOptions :=
  match apiKey config with
  | Some ((_ :: _) as key) =>
    if isOpenRouter config then
      match model config with
      | Some m =>
        Normal {| co_apiKey := key;
                  baseURL := option_map openRouter_baseURL (baseUrl config);
                  defaultHeaders :=
                    Some (if includes m (u "/")
                          then referer ++ u " (" ++ m ++ u ")"
                          else referer,
                          u "Encode Studio Code Review") |}
      | None => Throw (u "TypeError")
      end
    else
      Normal {| co_apiKey := key; baseURL := baseUrl config;
                defaultHeaders := None |}
  | _ => Throw (u "Error: OpenAI API密钥未提供")
  end.

(** [this.config.review?.prompts?.x] *)
Definition custom_prompt (x : Config.Prompts -> option jsstring)
    (config : AiProviderConfig) : option jsstring :=
  match review config with
  | Some r =>
    match prompts r with
    | Some p => x p
    | None => None
    end
  | None => None
  end.

(** The prompt [reviewCode] sends for a diff. *)
Definition reviewPrompt (config : AiProviderConfig) (diff : CodeDiff)
    (language : jsstring) : jsstring :=
  Provider.buildReviewPrompt (custom_prompt Config.review_prompt config) diff language.

(** The prompt [generateSummary] sends. *)
Definition summaryPrompt (config : AiProviderConfig) (results : list ReviewResult)
  : jsstring :=
  Provider.buildSummaryPrompt (custom_prompt Config.summary_prompt config) results.

Definition summary_system_prompt : jsstring :=
  lines [ "你是一个专业的代码审查助手，擅长总结代码审查结果并提供改进建议。";
          "请按照以下格式提供完整的审查报告:";
          "1. 总体概述 - 代码库整体质量评估";
          "2. 按文件列出详细问题 - 每个文件的具体问题及建议";
          "3. 通用改进建议 - 适用于整个代码库的改进建议";
          "4. 优先修复项 - 需要优先处理的问题" ].

(** [this.config.review?.prompts?.system || fallback] *)
Definition systemPrompt (config : AiProviderConfig) (fallback : jsstring) : jsstring :=
  match custom_prompt Config.system config with
  | Some ((_ :: _) as s) => s
  | _ => fallback
  end.

(** The provider configuration of a [CodeReviewer]: its constructor calls
    [createAiProvider(this.config.ai)], and the [ai] object of an
    [AiReviewerConfig] has no [review] member. *)
Definition ai_provider_config (config : Config.AiReviewerConfig) : AiProviderConfig :=
  {| provider := Config.provider (Config.ai config);
     model := Config.model (Config.ai config);
     apiKey := Config.apiKey (Config.ai config);
     baseUrl := Config.baseUrl (Config.ai config);
     temperature := Config.temperature (Config.ai config);
     maxTokens := Config.maxTokens (Config.ai config);
     review := None |}.

(** A trailing [/] taken off. *)
Definition strip_slash (s : jsstring) : jsstring :=
  if endsWith s (u "/") then removelast s else s.

End Client.

(* ================================================================== *)
(** ** Shapes used in the statements about the parser *)
(* ================================================================== *)

Module Shapes.

(** A text that does not start with white space. *)
Definition clean_head (s : jsstring) : Prop :=
  match s with
  | [] => True
  | c :: _ => is_space c = false
  end.

(** An issue the text parsing may build: one without a suggestion, or the
    feedback issue of severity info. *)
Definition text_issue (i : Issue) : Prop :=
  suggestion i = None \/ severity i = u "info".

(** *** The fenced block of a response *)

Definition ticks : jsstring := u "```".

(** The expression of a fence: the opening, a lazy group of any characters,
    the closing. *)
Definition fence (op cl : jsstring) : RegExp :=
  {| pattern := RSeq (lit op) (RSeq (RGroup 1 (star_lazy any)) (lit cl));
     re_flags := no_flags |}.

(** [body] is what stands between the first [op] of the text and the first
    [cl] after it. *)
Definition between_fences (op cl content body : jsstring) : Prop :=
  exists pre rest post,
    find_first op [] content = Some (pre, rest)
    /\ find_first cl [] rest = Some (body, post).

(** The text holds no [```json] line followed, at any distance, by a line
    break and [```]. *)
Definition no_json_fence (content : jsstring) : Prop :=
  forall a b c,
    content <> a ++ Provider.fence_open ++ b ++ Provider.fence_close ++ c.

(** The fenced block of a response: the body of its first [```json] fence
    or, when the text holds no such fence, what stands between its first
    [```] and the next. *)
Definition fenced_block (content body : jsstring) : Prop :=
  between_fences Provider.fence_open Provider.fence_close content body
  \/ (no_json_fence content /\ between_fences ticks ticks content body).

(** A response whose JSON stands in a fence without a label. *)
Definition example_plain_fence : jsstring :=
  u "Review:" ++ nl ++ u "```" ++ nl ++ Provider.example_json_body ++ nl ++ u "```"
    ++ nl.

(** A response with two fences, the first of which holds no JSON. *)
Definition example_two_fences : jsstring :=
  u "```json" ++ nl ++ u "to do" ++ nl ++ u "```" ++ nl
    ++ u "```json" ++ nl ++ Provider.example_json_body ++ nl ++ u "```".

End Shapes.

(* ================================================================== *)
(** ** The review run and the notification manager *)
(* ================================================================== *)

Module Workflow.

Inductive level : Type := Debug | Info | Warn | Error | Success | Log.

(** What a run does to the outside, in order. *)
Inductive event : Type :=
| Consola (l : level) (text : jsstring)
| GetCodeDiffs
| ReviewCode (diff : CodeDiff)
| GenerateSummary (results : list ReviewResult)
| SaveReviewResults (results : list ReviewResult)
| SaveSummary (summary : jsstring)
| SubmitReviewComment (filePath : jsstring) (line : option N) (comment : jsstring)
| SubmitReviewSummary (summary : jsstring)
| SubmitBatchReviewComments (results : list ReviewResult)
| Exec (command cwd : jsstring)
| ReadFile (path : jsstring).

(** An event that reaches the platform's comments. *)
Definition posts (e : event) : bool :=
  match e with
  | SubmitReviewComment _ _ _ | SubmitReviewSummary _
  | SubmitBatchReviewComments _ => true
  | _ => false
  end.

(** A request to the model. *)
Definition asks_model (e : event) : bool :=
  match e with
  | ReviewCode _ | GenerateSummary _ => true
  | _ => false
  end.

Section Run.

(** The platform, the provider and the file manager live in a world of
    their own. *)
Variable World : Type.

(** An asynchronous step: it changes the world, ends as a completion and
    leaves the events it caused, the earliest first. *)
Definition action (A : Type) : Type :=
  World -> completion A * World * list event.

Definition outcome {A : Type} (r : completion A * World * list event)
  : completion A := fst (fst r).

Definition events {A : Type} (r : completion A * World * list event)
  : list event := snd r.

Definition ret {A : Type} (a : A) : action A := fun w => (Normal a, w, []).

Definition and_then {A B : Type} (m : action A) (k : A -> action B) : action B :=
  fun w =>
    match m w with
    | (Normal a, w1, t1) =>
      match k a w1 with
      | (r, w2, t2) => (r, w2, t1 ++ t2)
      end
    | (Throw d, w1, t1) => (Throw d, w1, t1)
    | (Diverge, w1, t1) => (Diverge, w1, t1)
    end.

Definition emit (e : event) : action unit := fun w => (Normal tt, w, [e]).

(** A call to a collaborator, noted in the trace before it runs. *)
Definition call {A : Type} (e : event) (f : World -> completion A * World)
  : action A :=
  fun w => match f w with (r, w1) => (r, w1, [e]) end.

(** A computation of the program's own, which leaves the world alone. *)
Definition lift {A : Type} (c : completion A) : action A := fun w => (c, w, []).

Definition catch {A : Type} (m : action A) (handler : jsstring -> action A)
  : action A :=
  fun w =>
    match m w with
    | (Throw d, w1, t1) =>
      match handler d w1 with
      | (r, w2, t2) => (r, w2, t1 ++ t2)
      end
    | other => other
    end.

Definition throw {A : Type} (detail : jsstring) : action A := lift (Throw detail).

Notation "x <-- m ;;; k" := (and_then m (fun x => k))
  (at level 61, m at next level, right associativity).
Notation "m ;;; k" := (and_then m (fun _ => k))
  (at level 61, right associativity).

(** A step that causes no event of the kind [P]. *)
Definition free (P : event -> bool) {A : Type} (m : action A) : Prop :=
  forall w, Forall (fun e => P e = false) (events (m w)).

(** A step that does not end in an exception. *)
Definition never_throws {A : Type} (m : action A) : Prop :=
  forall w, match outcome (m w) with
            | Throw _ => False
            | _ => True
            end.

(** *** The platform *)

Variable getCodeDiffs : World -> completion (list CodeDiff) * World.
Variable submitReviewComment :
  jsstring -> option N -> jsstring -> World -> completion unit * World.
Variable submitReviewSummary : jsstring -> World -> completion unit * World.
(** The optional method of the interface. *)
Variable submitBatchReviewComments :
  option (list ReviewResult -> World -> completion unit * World).

(** *** [DefaultNotificationManager] *)

(** [for (const issue of result.issues)]: one comment per issue; the
    manager's [formatIssueComment] is, statement for statement, the
    reviewer's. *)
Fixpoint submit_issues (filePath : jsstring) (l : list Issue) : action unit :=
  match l with
  | [] => ret tt
  | issue :: rest =>
    let message := Reviewer.formatIssueComment issue in
    call (SubmitReviewComment filePath (line issue) message)
         (submitReviewComment filePath (line issue) message) ;;;
    submit_issues filePath rest
  end.

(** [sendReviewNotification] *)
Definition sendReviewNotification (filePath : jsstring) (result : ReviewResult)
  : action unit :=
  catch (submit_issues filePath (issues result))
        (fun error => emit (Consola Error (u "发送审查通知时出错: " ++ error))).

(** [sendSummaryNotification] *)
Definition sendSummaryNotification (summary : jsstring) : action unit :=
  catch (call (SubmitReviewSummary summary) (submitReviewSummary summary))
        (fun error => emit (Consola Error (u "发送审查总结通知时出错: " ++ error))).

(** [for (const result of results)] in [sendBatchReviewNotifications] *)
Fixpoint submit_results (results : list ReviewResult) : action unit :=
  match results with
  | [] => ret tt
  | result :: rest =>
    submit_issues (file result) (issues result) ;;;
    submit_results rest
  end.

(** [sendBatchReviewNotifications] *)
Definition sendBatchReviewNotifications (results : list ReviewResult)
  : action unit :=
  catch (match submitBatchReviewComments with
         | Some submit => call (SubmitBatchReviewComments results) (submit results)
         | None => submit_results results
         end)
        (fun error => emit (Consola Error (u "发送批量审查通知时出错: " ++ error))).

(** *** The provider and the file manager *)

Variable reviewCode : CodeDiff -> World -> completion (option ReviewResult) * World.
Variable generateSummary : list ReviewResult -> World -> completion jsstring * World.
Variable saveReviewResults : list ReviewResult -> World -> completion jsstring * World.
Variable saveSummary : jsstring -> World -> completion jsstring * World.
Variable formatSingleFileReview : ReviewResult -> jsstring.

(** *** [CodeReviewer] *)

Variable new_RegExp : jsstring -> option RegExp.
Variable config : Reviewer.ReviewConfig.

(** The callback of [diffs.filter] in [filterDiffs], with its log lines. *)
Definition keepDiff (diff : CodeDiff) : action bool :=
  let filePath := newPath diff in
  ignored <-- lift (match Reviewer.ignoreFiles config with
                    | Some pats => Reviewer.matchPatterns new_RegExp filePath pats
                    | None => Normal false
                    end) ;;;
  if (ignored : bool) then
    emit (Consola Debug (u "忽略文件: " ++ filePath)) ;;; ret false
  else
    if (match Reviewer.ignorePaths config with
        | Some paths => existsb (fun path => startsWith filePath path) paths
        | None => false
        end)
    then emit (Consola Debug (u "忽略路径: " ++ filePath)) ;;; ret false
    else
      not_included <-- lift (match Reviewer.includePatterns config with
                             | Some ((_ :: _) as pats) =>
                               matched <- Reviewer.matchPatterns new_RegExp filePath pats ;;
                               Normal (negb matched)
                             | _ => Normal false
                             end) ;;;
      if (not_included : bool) then
        emit (Consola Debug (u "文件不匹配包含模式: " ++ filePath)) ;;; ret false
      else
        excluded <-- lift (match Reviewer.excludePatterns config with
                           | Some pats => Reviewer.matchPatterns new_RegExp filePath pats
                           | None => Normal false
                           end) ;;;
        if (excluded : bool) then
          emit (Consola Debug (u "文件匹配排除模式: " ++ filePath)) ;;; ret false
        else ret true.

(** [filterDiffs] *)
Fixpoint filterDiffs (diffs : list CodeDiff) : action (list CodeDiff) :=
  match diffs with
  | [] => ret []
  | diff :: rest =>
    keep <-- keepDiff diff ;;;
    kept <-- filterDiffs rest ;;;
    ret (if (keep : bool) then diff :: kept else kept)
  end.

(** [for (const diff of filteredDiffs)]; [results] holds what was pushed
    so far, [total] is [filteredDiffs.length]. *)
Fixpoint review_each (total : nat) (diffs : list CodeDiff)
    (results : list ReviewResult) : action (list ReviewResult) :=
  match diffs with
  | [] => ret results
  | diff :: rest =>
    emit (Consola Info (u "审查文件: " ++ newPath diff)) ;;;
    reviewResult <-- call (ReviewCode diff) (reviewCode diff) ;;;
    match reviewResult with
    | Some reviewResult =>
      (if Nat.eqb total 1 then
         emit (Consola Log (formatSingleFileReview reviewResult))
       else
         emit (Consola Debug
                 (u "已审查文件 " ++ newPath diff ++ u "，发现 "
                  ++ Provider.String_of_nat (length (issues reviewResult))
                  ++ u " 个问题"))) ;;;
      review_each total rest (results ++ [reviewResult])
    | None => review_each total rest results
    end
  end.

(** [let summary = ''; if (results.length > 1 && results.length > 0) ...] *)
Definition make_summary (results : list ReviewResult) : action jsstring :=
  if Nat.ltb 1 (length results) && Nat.ltb 0 (length results) then
    summary <-- call (GenerateSummary results) (generateSummary results) ;;;
    if JS.truthy summary then
      summaryFilePath <-- call (SaveSummary summary) (saveSummary summary) ;;;
      emit (Consola Info (u "审查总结已保存到临时文件：" ++ summaryFilePath)) ;;;
      ret summary
    else ret summary
  else ret [].

(** The notifications at the end of [review]. *)
Definition notify (results : list ReviewResult) (summary : jsstring) : action unit :=
  emit (Consola Info (u "开始发送审查结果通知...")) ;;;
  sendBatchReviewNotifications results ;;;
  (if JS.truthy summary then sendSummaryNotification summary else ret tt).

(** What [review] does with the diffs it got, once there are some, up to
    the notifications. *)
Definition review_diffs (diffs : list CodeDiff)
  : action (list ReviewResult * jsstring) :=
  filteredDiffs <-- filterDiffs diffs ;;;
  emit (Consola Info (u "过滤后剩余 "
                      ++ Provider.String_of_nat (length filteredDiffs)
                      ++ u " 个文件需要审查")) ;;;
  results <-- review_each (length filteredDiffs) filteredDiffs [] ;;;
  resultsFilePath <-- call (SaveReviewResults results) (saveReviewResults results) ;;;
  emit (Consola Info (u "所有审查结果已保存到临时文件：" ++ resultsFilePath)) ;;;
  summary <-- make_summary results ;;;
  ret (results, summary).

(** The body of the [try] of [review]. *)
Definition review_body : action (list ReviewResult) :=
  diffs <-- call GetCodeDiffs getCodeDiffs ;;;
  emit (Consola Info (u "获取到 " ++ Provider.String_of_nat (length diffs)
                      ++ u " 个文件差异")) ;;;
  match diffs with
  | [] =>
    emit (Consola Warn (u "没有发现代码差异，审查结束")) ;;;
    ret []
  | _ :: _ =>
    reviewed <-- review_diffs diffs ;;;
    notify (fst reviewed) (snd reviewed) ;;;
    emit (Consola Success (u "代码审查完成")) ;;;
    ret (fst reviewed)
  end.

(** [review] *)
Definition review : action (list ReviewResult) :=
  emit (Consola Info (u "开始代码审查...")) ;;;
  catch review_body
        (fun error =>
           emit (Consola Error (u "代码审查过程中出错: " ++ error)) ;;;
           throw error).

End Run.

(** The comments the manager owes a list of results, one per issue, in
    the order of the results and of their issues. *)
Definition comments_due (results : list ReviewResult) : list event :=
  flat_map (fun result =>
              map (fun issue =>
                     SubmitReviewComment (file result) (line issue)
                       (Reviewer.formatIssueComment issue))
                  (issues result))
           results.

(** The log line of a failed batch notification. *)
Definition batch_failure (error : jsstring) : event :=
  Consola Error (u "发送批量审查通知时出错: " ++ error).

(** The calls [due] made in order, all of them when the step ends
    normally, up to the first that does not return otherwise. *)
Definition in_order (due : list event) (o : completion unit) (t : list event)
  : Prop :=
  (o = Normal tt /\ t = due)
  \/ (exists k, k < length due /\ t = firstn (S k) due
                 /\ (o = Diverge \/ exists d, o = Throw d)).

Definition is_review_request (e : event) : bool :=
  match e with
  | ReviewCode _ => true
  | _ => false
  end.

Definition is_summary_request (e : event) : bool :=
  match e with
  | GenerateSummary _ => true
  | _ => false
  end.

(** *** A run to try the statements on: a platform with a fixed list of
    diffs, whose comment sink fails when asked to; a provider that finds
    nothing. *)

Definition example_review (diff : CodeDiff) : ReviewResult :=
  {| file := newPath diff; issues := []; summary := u "fine" |}.

Definition example_finding (path : string) : ReviewResult :=
  {| file := u path;
     issues := [ {| line := Some 3%N; severity := u "warning"; message := u "m";
                    suggestion := None; code := None |};
                 {| line := None; severity := u "info"; message := u "n";
                    suggestion := None; code := None |} ];
     summary := [] |}.

Definition no_patterns : Reviewer.ReviewConfig :=
  {| Reviewer.ignoreFiles := Some [u "*.lock"];
     Reviewer.ignorePaths := None;
     Reviewer.includePatterns := None;
     Reviewer.excludePatterns := None |}.

Definition example_getCodeDiffs (fails : bool) (diffs : list CodeDiff)
  : unit -> completion (list CodeDiff) * unit :=
  fun w => (if fails then Throw (u "Error: offline") else Normal diffs, w).

Definition example_reviewCode (diff : CodeDiff)
  : unit -> completion (option ReviewResult) * unit :=
  fun w => (Normal (Some (example_review diff)), w).

Definition example_answer {A : Type} (text : string) (_ : A)
  : unit -> completion jsstring * unit :=
  fun w => (Normal (u text), w).

(** [review] on a platform that gives [diffs]; [fails] makes the platform's
    diff listing throw. *)
Definition example_run (fails : bool) (diffs : list CodeDiff)
  : completion (list ReviewResult) * unit * list event :=
  review unit (example_getCodeDiffs fails diffs)
    (fun _ _ _ w => (Normal tt, w))
    (fun _ w => (Normal tt, w))
    None
    example_reviewCode
    (example_answer "summary")
    (example_answer "/tmp/results.json")
    (example_answer "/tmp/summary.md")
    (fun _ => u "report")
    Reviewer.new_RegExp no_patterns tt.

(** A change of two source files and a lock file. *)
Definition example_diffs : list CodeDiff :=
  [Config.diff_of "src/a.ts"; Config.diff_of "yarn.lock"; Config.diff_of "src/b.ts"].

(** The manager on a platform without batch support whose comment sink
    accepts [budget] comments and then fails. *)
Definition example_batch (budget : nat) (results : list ReviewResult)
  : completion unit * nat * list event :=
  sendBatchReviewNotifications nat
    (fun _ _ _ n => match n with
                    | S k => (Normal tt, k)
                    | O => (Throw (u "Error: 403"), O)
                    end)
    None results budget.

End Workflow.

(* ================================================================== *)
(** ** The local platform: the changed files of a working tree *)
(* ================================================================== *)

Module Local.

Import Workflow.

(** [/^([AMDRT])\s+(\S+)$/] *)
Definition status_letters : list citem :=
  [CChar 65%N; CChar 77%N; CChar 68%N; CChar 82%N; CChar 84%N].

Definition re_name_status : RegExp :=
  Provider.re (seq [RBegin; RGroup 1 (RSet false status_letters); plus ws;
                    RGroup 2 (plus (RSet false [CNotSpace])); REnd]).

(** [line.match(re)], destructured as [[, status, file]]. *)
Definition status_line (line : jsstring) : option (jsstring * jsstring) :=
  match exec re_name_status line with
  | Some m => Some (Provider.group_text 1 m, Provider.group_text 2 m)
  | None => None
  end.

(** The [files] of [getCodeDiffs]: the lines of the trimmed output that
    the expression matches, in order. *)
Definition changed_files (stdout : jsstring) : list (jsstring * jsstring) :=
  flat_map (fun line => match status_line line with
                        | Some entry => [entry]
                        | None => []
                        end)
           (JS.split (trim stdout) nl).

(** A diff as the platform builds it; its [language] is what
    [detectLanguage] gives. *)
Record RawDiff : Type := {
  r_oldPath : jsstring;
  r_newPath : jsstring;
  r_oldContent : jsstring;
  r_newContent : jsstring;
  r_diffContent : jsstring;
  r_language : option Language.value
}.

Section Platform.

Variable World : Type.

(** [isNode], [process.cwd()] and [resolve] of [node:path]. *)
Variable isNode : bool.
Variable cwd : jsstring.
Variable resolve : jsstring -> jsstring -> jsstring.

(** [execAsync(command, { cwd })]: the standard output. *)
Variable execAsync : jsstring -> jsstring -> World -> completion jsstring * World.
(** [readFile(path, 'utf-8')] *)
Variable readFile : jsstring -> World -> completion jsstring * World.

(** The fields the constructor sets. *)
Variable path : jsstring.
Variable commitSha : option jsstring.

Notation "x <-- m ;;; k" := (and_then World m (fun x => k))
  (at level 61, m at next level, right associativity).
Notation "m ;;; k" := (and_then World m (fun _ => k))
  (at level 61, right associativity).

(** [getFileContent] *)
Definition getFileContent (filePath : jsstring) : action World jsstring :=
  catch World
    (if negb isNode then ret World []
     else
       let rootPath := cwd in
       let fullPath := resolve path filePath in
       catch World
         (call World (ReadFile fullPath) (readFile fullPath))
         (fun error =>
            if negb (JS.eqb path rootPath) then
              let rootFilePath := resolve rootPath filePath in
              catch World
                (call World (ReadFile rootFilePath) (readFile rootFilePath))
                (fun _ => throw World error)
            else throw World error))
    (fun error =>
       emit World (Consola Warn (u "获取文件内容时出错: " ++ filePath ++ u " " ++ error)) ;;;
       ret World []).

(** The command that lists the changed files. *)
Definition list_command : jsstring :=
  match commitSha with
  | Some ((_ :: _) as sha) => u "git show --name-status " ++ sha
  | _ => u "git diff --name-status HEAD"
  end.

(** The command that gives the diff of a file. *)
Definition diff_command (file : jsstring) : jsstring :=
  match commitSha with
  | Some ((_ :: _) as sha) => u "git show " ++ sha ++ u " -- " ++ file
  | _ => u "git diff HEAD -- " ++ file
  end.

(** [for (const { status, file } of files)]; [diffs] holds what was
    pushed so far. *)
Fixpoint collect (files : list (jsstring * jsstring)) (diffs : list RawDiff)
  : action World (list RawDiff) :=
  match files with
  | [] => ret World diffs
  | (status, file) :: rest =>
    if JS.eqb status (u "D") then collect rest diffs
    else
      diffs <--
        catch World
          (diffOutput <-- call World (Exec (diff_command file) path)
                               (execAsync (diff_command file) path) ;;;
           newContent <-- getFileContent file ;;;
           ret World
             (diffs ++ [ {| r_oldPath := file; r_newPath := file;
                            r_oldContent := []; r_newContent := newContent;
                            r_diffContent := diffOutput;
                            r_language := Language.detectLanguage file |} ]))
          (fun error =>
             emit World (Consola Warn (u "获取文件 " ++ file ++ u " 的差异时出错: "
                                       ++ error)) ;;;
             ret World diffs) ;;;
      collect rest diffs
  end.

(** [getCodeDiffs] *)
Definition getCodeDiffs : action World (list RawDiff) :=
  catch World
    (if negb isNode then
       emit World (Consola Error (u "本地平台仅在Node.js环境中支持获取代码差异")) ;;;
       ret World []
     else
       emit World (Consola Info (u "获取本地路径 " ++ path ++ u " 的代码差异")) ;;;
       stdout <-- call World (Exec list_command path) (execAsync list_command path) ;;;
       collect (changed_files stdout) [])
    (fun error =>
       emit World (Consola Error (u "获取本地代码差异时出错: " ++ error)) ;;;
       throw World error).

End Platform.

(** *** The lines the expression accepts *)

(** The expression after its [^]. *)
Definition status_body : regex :=
  RSeq (RGroup 1 (RSet false status_letters))
       (RSeq (plus ws) (RSeq (RGroup 2 (plus (RSet false [CNotSpace]))) REnd)).

Definition is_status (c : cu) : bool :=
  existsb (N.eqb c) (u "AMDRT").

Definition not_space (c : cu) : bool := negb (is_space c).

(** A status letter, white space, and a path without white space. *)
Definition status_shape (line status file : jsstring) : Prop :=
  exists letter gap,
    line = letter :: gap ++ file
    /\ status = [letter] /\ is_status letter = true
    /\ gap <> [] /\ forallb is_space gap = true
    /\ file <> [] /\ forallb not_space file = true.

(** A working tree for the examples: the listing names a modified, a
    deleted and a renamed file; no command fails. *)
Definition example_listing : jsstring :=
  lines ["M       src/a.ts"; "D       src/old.ts"; "R100    src/b.ts        src/c.ts"; ""].

Definition example_exec (fails : bool) (command cwd : jsstring)
  : unit -> completion jsstring * unit :=
  fun w =>
    if JS.eqb command (u "git diff --name-status HEAD")
    then (Normal example_listing, w)
    else if fails then (Throw (u "Error: git"), w)
    else (Normal (u "+x"), w).

Definition example_resolve (a b : jsstring) : jsstring := a ++ u "/" ++ b.

Definition example_readFile (path : jsstring)
  : unit -> completion jsstring * unit :=
  fun w => (Normal (u "content"), w).

Definition example_local (fails : bool)
  : completion (list RawDiff) * unit * list event :=
  getCodeDiffs unit true (u "/repo") example_resolve
    (example_exec fails) example_readFile (u "/repo") None tt.

(** A directory that is no working tree: every command fails. *)
Definition example_offline (command cwd : jsstring)
  : unit -> completion jsstring * unit :=
  fun w => (Throw (u "Error: not a git repository"), w).

End Local.

(* ================================================================== *)
(** ** JSON.stringify and the saved results *)
(* ================================================================== *)

(** [TempFileManager.saveReviewResults] writes
    [JSON.stringify(results, null, 2)] to a file as UTF-8, and
    [readReviewResults] returns [JSON.parse] of what it reads there.
    [serialize] follows SerializeJSONProperty of ECMA-262 (25.5.2) on the
    values a [ReviewResult] holds; the directory, the time in the file name
    and the file system itself are left out. *)

Module JSONText.

(** *** QuoteJSONString (25.5.2.3) *)

Definition hex_digit (d : N) : cu :=
  if (d <? 10)%N then (48 + d)%N else (87 + d)%N.

(** UnicodeEscape: [\u] and four lower-case hexadecimal digits. *)
Definition unicode_escape (c : cu) : jsstring :=
  [92%N; 117%N; hex_digit (c / 4096); hex_digit ((c / 256) mod 16);
   hex_digit ((c / 16) mod 16); hex_digit (c mod 16)].

Definition is_leading (c : cu) : bool := ((0xD800 <=? c) && (c <=? 0xDBFF))%N.
Definition is_trailing (c : cu) : bool := ((0xDC00 <=? c) && (c <=? 0xDFFF))%N.

(** A code unit that is no half of a surrogate pair. *)
Definition quote_unit (c : cu) : jsstring :=
  if (c =? 8)%N then u "\b"
  else if (c =? 9)%N then u "\t"
  else if (c =? 10)%N then u "\n"
  else if (c =? 12)%N then u "\f"
  else if (c =? 13)%N then u "\r"
  else if (c =? 34)%N then [92%N; 34%N]
  else if (c =? 92)%N then [92%N; 92%N]
  else if (c <? 0x20)%N then unicode_escape c
  else [c].

(** The string read code point by code point: a surrogate pair is copied,
    a lone surrogate is escaped. *)
Fixpoint quote_units (s : jsstring) : jsstring :=
  match s with
  | [] => []
  | c :: t =>
    if is_leading c then
      match t with
      | d :: t' =>
        if is_trailing d then c :: d :: quote_units t'
        else unicode_escape c ++ quote_units t
      | [] => unicode_escape c
      end
    else if is_trailing c then unicode_escape c ++ quote_units t
    else quote_unit c ++ quote_units t
  end.

Definition QuoteJSONString (s : jsstring) : jsstring :=
  34%N :: quote_units s ++ [34%N].

(** *** SerializeJSONProperty with the gap of [JSON.stringify(v, null, 2)] *)

Definition gap : jsstring := u "  ".

(** A number the serialization is given for: a natural number below 2^53,
    written with its decimal digits. *)
Definition natural (n : number) : bool :=
  negb (neg n) && (exponent n =? 0)%Z && (mantissa n <? 2 ^ 53)%N.

(** The pieces between the brackets, each on a line of its own. *)
Definition wrap (open close indent : jsstring) (parts : list jsstring) : jsstring :=
  match parts with
  | [] => open ++ close
  | _ :: _ =>
    open ++ nl ++ (indent ++ gap)
      ++ JS.join (u "," ++ nl ++ (indent ++ gap)) parts
      ++ nl ++ indent ++ close
  end.

(** Every piece, or none when one is missing. *)
Definition all_some {A : Type} (l : list (option A)) : option (list A) :=
  fold_right (fun x acc =>
                match x, acc with
                | Some a, Some b => Some (a :: b)
                | _, _ => None
                end) (Some []) l.

(** [None]: the value holds a number outside the naturals. *)
Fixpoint serialize (indent : jsstring) (v : json) {struct v} : option jsstring :=
  match v with
  | JNull => Some (u "null")
  | JBool true => Some (u "true")
  | JBool false => Some (u "false")
  | JNum n => if natural n then Some (String_of_N (mantissa n)) else None
  | JStr s => Some (QuoteJSONString s)
  | JArr items =>
    option_map (wrap (u "[") (u "]") indent)
      (all_some (map (serialize (indent ++ gap)) items))
  | JObj members =>
    option_map (wrap (u "{") (u "}") indent)
      (all_some
         (map (fun kv =>
                 option_map (fun a => QuoteJSONString (fst kv) ++ u ": " ++ a)
                            (serialize (indent ++ gap) (snd kv)))
              members))
  end.

(** [JSON.stringify(v, null, 2)] *)
Definition stringify (v : json) : option jsstring := serialize [] v.

(** No surrogate stands alone: the text is the same after it is written
    to a file as UTF-8 and read again. *)
Fixpoint paired (s : jsstring) : bool :=
  match s with
  | [] => true
  | c :: t =>
    if is_leading c then
      match t with
      | d :: t' => is_trailing d && paired t'
      | [] => false
      end
    else negb (is_trailing c) && paired t
  end.

(** *** The results as [saveReviewResults] writes them *)

Definition optional (key : string) (v : option json) : list (jsstring * json) :=
  match v with
  | Some x => [(u key, x)]
  | None => []
  end.

(** An issue with the properties it has, in the order the object literals
    of [parseReviewResponse] list them; a property that is [undefined] is
    left out, as [JSON.stringify] does. *)
Definition issue_json (i : Issue) : json :=
  JObj (optional "line"
          (option_map (fun n => JNum {| neg := false; mantissa := n; exponent := 0 |})
                      (line i))
        ++ [(u "severity", JStr (severity i)); (u "message", JStr (message i))]
        ++ optional "suggestion" (option_map JStr (suggestion i))
        ++ optional "code" (option_map JStr (code i))).

Definition result_json (r : ReviewResult) : json :=
  JObj [(u "file", JStr (file r));
        (u "issues", JArr (map issue_json (issues r)));
        (u "summary", JStr (summary r))].

Definition results_json (results : list ReviewResult) : json :=
  JArr (map result_json results).

(** *** Well-formed values *)

(** Code units are below 2^16. *)
Definition units (s : jsstring) : Prop := Forall (fun c => (c < 65536)%N) s.

(** A value [stringify] is given for, whose strings are strings. *)
Fixpoint printable (v : json) : Prop :=
  match v with
  | JNull | JBool _ => True
  | JNum n => natural n = true
  | JStr s => units s
  | JArr items => fold_right (fun x rest => printable x /\ rest) True items
  | JObj members =>
    fold_right (fun kv rest => units (fst kv) /\ printable (snd kv) /\ rest)
               True members
  end.

Definition issue_fits (i : Issue) : Prop :=
  match line i with Some n => (n < 2 ^ 53)%N | None => True end
  /\ units (severity i) /\ units (message i)
  /\ match suggestion i with Some s => units s | None => True end
  /\ match code i with Some s => units s | None => True end.

Definition result_fits (r : ReviewResult) : Prop :=
  units (file r) /\ Forall issue_fits (issues r) /\ units (summary r).

(** *** The tokens of a value *)

Fixpoint between (l : list (list token)) : list token :=
  match l with
  | [] => []
  | [a] => a
  | a :: t => a ++ TComma :: between t
  end.

Fixpoint tokens (v : json) : list token :=
  match v with
  | JNull => [TNull]
  | JBool true => [TTrue]
  | JBool false => [TFalse]
  | JNum n => [TNumber n]
  | JStr s => [TString s]
  | JArr items => TLBracket :: between (map tokens items) ++ [TRBracket]
  | JObj members =>
    TLBrace ::
    between (map (fun kv => TString (fst kv) :: TColon :: tokens (snd kv)) members)
    ++ [TRBrace]
  end.

(** A code unit that ends a number. *)
Definition ends_number (c : cu) : bool :=
  negb (is_digit c) && negb (c =? 46)%N && negb (JSON.is_e c).

(** The text goes on with a code unit that ends a number. *)
Definition delimited (rest : jsstring) : Prop :=
  match rest with
  | c :: _ => ends_number c = true
  | [] => False
  end.

(** The text after a value ends it: only a number needs an end. *)
Definition follows (v : json) (rest : jsstring) : Prop :=
  match v with
  | JNum _ => delimited rest
  | _ => True
  end.

Definition blank (s : jsstring) : Prop := Forall (fun c => json_space c = true) s.

Definition nat_number (n : N) : number :=
  {| neg := false; mantissa := n; exponent := 0 |}.

(** The lexer reads the text [p] as the tokens [t]. *)
Definition lexes_to (p : jsstring) (t : list token) : Prop :=
  forall toks rest, delimited rest ->
    lex_run (LIdle, toks) (p ++ rest) = lex_run (LIdle, rev t ++ toks) rest.

(** A review to save. *)
Definition example_results : list ReviewResult :=
  [ {| file := u "src/a.ts";
       issues := [ {| line := Some 12%N; severity := u "warning";
                      message := uq "use 'const'" ++ nl ++ u "here";
                      suggestion := Some (u "路径 C:\temp"); code := None |};
                   {| line := None; severity := u "info"; message := [0xD83D%N];
                      suggestion := None; code := Some ([9%N; 1%N] ++ u "🔴") |} ];
       summary := [] |};
    {| file := u "b.ts"; issues := []; summary := u "ok" |} ].

End JSONText.

(* ================================================================== *)
(** ** Facts about the matcher *)
(* ================================================================== *)

Module ReFacts.

Lemma eqb_eq (a b : jsstring) : JS.eqb a b = true <-> a = b.
Proof.
  revert b. induction a as [|x a IH]; intros [|y b]; simpl; split; intros H;
    try reflexivity; try discriminate.
  - apply andb_prop in H. destruct H as [Hx Ha]. apply N.eqb_eq in Hx.
    apply IH in Ha. now subst.
  - injection H as -> ->. rewrite N.eqb_refl. simpl. now apply IH.
Qed.

Lemma reset_nil (c : captures) : reset [] c = c.
Proof.
  unfold reset. induction c as [|kv c IH]; simpl; [reflexivity|].
  f_equal. exact IH.
Qed.

Lemma existsb_eqb_false (k : nat) (gs : list nat) :
  ~ In k gs -> existsb (Nat.eqb k) gs = false.
Proof.
  intros H. destruct (existsb (Nat.eqb k) gs) eqn:E; [|reflexivity].
  apply existsb_exists in E. destruct E as [x [Hx Hk]].
  apply Nat.eqb_eq in Hk. subst. contradiction.
Qed.

Lemma capture_reset (k : nat) (gs : list nat) (c : captures) :
  ~ In k gs -> capture k (reset gs c) = capture k c.
Proof.
  intros H. unfold reset. induction c as [|[k' v] c IH]; simpl; [reflexivity|].
  destruct (Nat.eqb k' k) eqn:E.
  - apply Nat.eqb_eq in E. subst k'.
    rewrite (existsb_eqb_false k gs H). simpl. now rewrite Nat.eqb_refl.
  - destruct (existsb (Nat.eqb k') gs); simpl; [exact IH|].
    now rewrite E.
Qed.

Lemma in_char_step (p : cu -> bool) (st st' : state) :
  In st' (char_step p st) ->
  exists x, fst st = x :: fst st' /\ p x = true /\ snd st' = snd st.
Proof.
  unfold char_step. destruct (fst st) as [|x t] eqn:E; simpl; [tauto|].
  destruct (p x) eqn:Hp; simpl; [|tauto].
  intros [H|[]]. subst st'. simpl. exists x. auto.
Qed.

Lemma repeat_max_zero (step : state -> list state) (gs : list nat) (greedy : bool)
    (fuel min : nat) (st : state) :
  repeat_matcher step gs greedy fuel min (Some 0) st = [st].
Proof. destruct fuel; reflexivity. Qed.

(** The results of a quantifier, whatever its bounds and its fuel, consume
    text and never give it back. *)
Lemma repeat_length (step : state -> list state) (gs : list nat) (greedy : bool) :
  (forall x y, In y (step x) -> length (fst y) <= length (fst x)) ->
  forall fuel min max st st',
    In st' (repeat_matcher step gs greedy fuel min max st) ->
    length (fst st') <= length (fst st).
Proof.
  intros Hstep. induction fuel as [|f IH]; intros min max st st' Hin.
  - destruct max as [[|m]|]; simpl in Hin; try tauto.
    destruct Hin as [<-|[]]. lia.
  - assert (Hiter : forall m',
      In st' (flat_map
         (fun y => if Nat.eqb min 0 && Nat.eqb (length (fst y)) (length (fst st))
                   then [] else repeat_matcher step gs greedy f (pred min) m' y)
         (step (fst st, reset gs (snd st)))) ->
      length (fst st') <= length (fst st)).
    { intros m' H. apply in_flat_map in H. destruct H as [y [Hy Hst']].
      apply Hstep in Hy. simpl in Hy.
      destruct (Nat.eqb min 0 && Nat.eqb (length (fst y)) (length (fst st)));
        [destruct Hst'|].
      apply IH in Hst'. lia. }
    destruct max as [[|m]|]; simpl in Hin.
    + destruct Hin as [<-|[]]. lia.
    + destruct (Nat.eqb min 0); simpl in Hin.
      * destruct greedy.
        -- apply in_app_or in Hin. destruct Hin as [H|[<-|[]]]; [eapply Hiter; exact H|lia].
        -- destruct Hin as [<-|H]; [lia|eapply Hiter; exact H].
      * eapply Hiter; exact Hin.
    + destruct (Nat.eqb min 0); simpl in Hin.
      * destruct greedy.
        -- apply in_app_or in Hin. destruct Hin as [H|[<-|[]]]; [eapply Hiter; exact H|lia].
        -- destruct Hin as [<-|H]; [lia|eapply Hiter; exact H].
      * eapply Hiter; exact Hin.
Qed.

Lemma flat_map_agree {A B : Type} (f g : A -> list B) (l : list A) :
  (forall x, In x l -> f x = g x) -> flat_map f l = flat_map g l.
Proof.
  induction l as [|x l IH]; intros H; simpl; [reflexivity|].
  rewrite (H x) by now left. rewrite IH; [reflexivity|].
  intros y Hy. apply H. now right.
Qed.

(** The fuel of a quantifier never runs out: any two amounts above [min]
    plus the length of the remaining text give the same results. *)
Lemma repeat_fuel (step : state -> list state) (gs : list nat) (greedy : bool) :
  (forall x y, In y (step x) -> length (fst y) <= length (fst x)) ->
  forall f1 f2 min max st,
    min + length (fst st) < f1 -> min + length (fst st) < f2 ->
    repeat_matcher step gs greedy f1 min max st
    = repeat_matcher step gs greedy f2 min max st.
Proof.
  intros Hstep. induction f1 as [|f1 IH]; intros f2 min max st H1 H2; [lia|].
  destruct f2 as [|f2]; [lia|].
  assert (Hiter : forall m',
    flat_map
      (fun y => if Nat.eqb min 0 && Nat.eqb (length (fst y)) (length (fst st))
                then []
                else repeat_matcher step gs greedy f1 (pred min) m' y)
      (step (fst st, reset gs (snd st)))
    = flat_map
      (fun y => if Nat.eqb min 0 && Nat.eqb (length (fst y)) (length (fst st))
                then []
                else repeat_matcher step gs greedy f2 (pred min) m' y)
      (step (fst st, reset gs (snd st)))).
  { intros m'. apply flat_map_agree. intros y Hy. apply Hstep in Hy.
    cbn [fst] in Hy.
    destruct (Nat.eqb min 0) eqn:Em; cbn [andb].
    - apply Nat.eqb_eq in Em. subst min.
      destruct (Nat.eqb (length (fst y)) (length (fst st))) eqn:El; [reflexivity|].
      apply Nat.eqb_neq in El.
      apply IH; simpl; unfold state, captures, jsstring, cu in *; lia.
    - apply Nat.eqb_neq in Em.
      apply IH; unfold state, captures, jsstring, cu in *; lia. }
  cbn [repeat_matcher].
  destruct max as [[|m]|]; [reflexivity| |];
    (destruct (negb (Nat.eqb min 0)); [apply Hiter|];
     destruct greedy; [f_equal; apply Hiter|f_equal; apply Hiter]).
Qed.

(** A quantifier leaves alone the captures of the groups outside its atom. *)
Lemma repeat_frame (k : nat) (step : state -> list state) (gs : list nat)
    (greedy : bool) :
  ~ In k gs ->
  (forall x y, In y (step x) -> capture k (snd y) = capture k (snd x)) ->
  forall fuel min max st st',
    In st' (repeat_matcher step gs greedy fuel min max st) ->
    capture k (snd st') = capture k (snd st).
Proof.
  intros Hk Hstep. induction fuel as [|f IH]; intros min max st st' Hin.
  - destruct max as [[|m]|]; simpl in Hin; try tauto.
    destruct Hin as [<-|[]]. reflexivity.
  - assert (Hiter : forall m',
      In st' (flat_map
         (fun y => if Nat.eqb min 0 && Nat.eqb (length (fst y)) (length (fst st))
                   then [] else repeat_matcher step gs greedy f (pred min) m' y)
         (step (fst st, reset gs (snd st)))) ->
      capture k (snd st') = capture k (snd st)).
    { intros m' H. apply in_flat_map in H. destruct H as [y [Hy Hst']].
      apply Hstep in Hy. simpl in Hy. rewrite capture_reset in Hy by exact Hk.
      destruct (Nat.eqb min 0 && Nat.eqb (length (fst y)) (length (fst st)));
        [destruct Hst'|].
      apply IH in Hst'. congruence. }
    destruct max as [[|m]|]; simpl in Hin.
    + destruct Hin as [<-|[]]. reflexivity.
    + destruct (Nat.eqb min 0); simpl in Hin.
      * destruct greedy.
        -- apply in_app_or in Hin.
           destruct Hin as [H|[<-|[]]]; [eapply Hiter; exact H|reflexivity].
        -- destruct Hin as [<-|H]; [reflexivity|eapply Hiter; exact H].
      * eapply Hiter; exact Hin.
    + destruct (Nat.eqb min 0); simpl in Hin.
      * destruct greedy.
        -- apply in_app_or in Hin.
           destruct Hin as [H|[<-|[]]]; [eapply Hiter; exact H|reflexivity].
        -- destruct Hin as [<-|H]; [reflexivity|eapply Hiter; exact H].
      * eapply Hiter; exact Hin.
Qed.

Section Run.

Variable fl : flags.
Variable n : nat.

Lemma run_length (r : regex) :
  forall st st', In st' (run fl n r st) -> length (fst st') <= length (fst st).
Proof.
  induction r as [ |c| |neg items|a IHa b IHb|a IHa b IHb|a IHa min max greedy
                  |g a IHa|a IHa| | ]; intros st st' Hin; cbn [run] in Hin.
  - destruct Hin as [<-|[]]. lia.
  - apply in_char_step in Hin. destruct Hin as [x [E _]]. rewrite E. simpl. lia.
  - apply in_char_step in Hin. destruct Hin as [x [E _]]. rewrite E. simpl. lia.
  - apply in_char_step in Hin. destruct Hin as [x [E _]]. rewrite E. simpl. lia.
  - apply in_flat_map in Hin. destruct Hin as [y [Hy Hst']].
    apply IHa in Hy. apply IHb in Hst'. lia.
  - apply in_app_or in Hin. destruct Hin as [H|H]; [now apply IHa|now apply IHb].
  - eapply repeat_length; [exact IHa|exact Hin].
  - apply in_map_iff in Hin. destruct Hin as [y [<- Hy]]. simpl. now apply IHa.
  - destruct (run fl n a st) as [|y l]; simpl in Hin; [tauto|].
    destruct Hin as [<-|[]]. simpl. lia.
  - destruct (Nat.eqb (length (fst st)) n); simpl in Hin; [|tauto].
    destruct Hin as [<-|[]]. lia.
  - destruct (fst st) eqn:E; simpl in Hin; [|tauto]. destruct Hin as [<-|[]].
    rewrite E. simpl. lia.
Qed.

Lemma run_frame (k : nat) (r : regex) :
  ~ In k (groups r) ->
  forall st st', In st' (run fl n r st) -> capture k (snd st') = capture k (snd st).
Proof.
  induction r as [ |c| |neg items|a IHa b IHb|a IHa b IHb|a IHa min max greedy
                  |g a IHa|a IHa| | ]; intros Hk st st' Hin; cbn [run] in Hin; simpl in Hk.
  - destruct Hin as [<-|[]]. reflexivity.
  - apply in_char_step in Hin. destruct Hin as [x [_ [_ E]]]. now rewrite E.
  - apply in_char_step in Hin. destruct Hin as [x [_ [_ E]]]. now rewrite E.
  - apply in_char_step in Hin. destruct Hin as [x [_ [_ E]]]. now rewrite E.
  - apply in_flat_map in Hin. destruct Hin as [y [Hy Hst']].
    rewrite (IHb (fun H => Hk (in_or_app _ _ _ (or_intror H))) _ _ Hst').
    exact (IHa (fun H => Hk (in_or_app _ _ _ (or_introl H))) _ _ Hy).
  - apply in_app_or in Hin. destruct Hin as [H|H].
    + exact (IHa (fun H' => Hk (in_or_app _ _ _ (or_introl H'))) _ _ H).
    + exact (IHb (fun H' => Hk (in_or_app _ _ _ (or_intror H'))) _ _ H).
  - eapply repeat_frame; [exact Hk|intros x y; apply IHa; exact Hk|exact Hin].
  - apply in_map_iff in Hin. destruct Hin as [y [<- Hy]]. simpl.
    destruct (Nat.eqb g k) eqn:E.
    + apply Nat.eqb_eq in E. subst. exfalso. apply Hk. now left.
    + apply IHa; [|exact Hy]. intros H. apply Hk. now right.
  - destruct (run fl n a st) as [|y l] eqn:E; simpl in Hin; [tauto|].
    destruct Hin as [<-|[]]. simpl. apply IHa; [exact Hk|].
    rewrite E. now left.
  - destruct (Nat.eqb (length (fst st)) n); simpl in Hin; [|tauto].
    destruct Hin as [<-|[]]. reflexivity.
  - destruct (fst st) eqn:E; simpl in Hin; [|tauto]. destruct Hin as [<-|[]]. reflexivity.
Qed.

(** So the results of [a{min,max}] do not depend on the fuel [run] gives. *)
Lemma run_quant_fuel (a : regex) (min : nat) (max : option nat) (greedy : bool)
    (st : state) (fuel : nat) :
  min + length (fst st) < fuel ->
  run fl n (RQuant a min max greedy) st
  = repeat_matcher (run fl n a) (groups a) greedy fuel min max st.
Proof.
  intros H. cbn [run].
  apply repeat_fuel; [apply run_length|apply Nat.lt_succ_diag_r|exact H].
Qed.

Lemma in_run_seq (a b : regex) (st st' : state) :
  In st' (run fl n (RSeq a b) st) <->
  exists y, In y (run fl n a st) /\ In st' (run fl n b y).
Proof. cbn [run]. apply in_flat_map. Qed.

Lemma in_run_alt (a b : regex) (st st' : state) :
  In st' (run fl n (RAlt a b) st) <->
  In st' (run fl n a st) \/ In st' (run fl n b st).
Proof. cbn [run]. apply in_app_iff. Qed.

Lemma in_run_group (g : nat) (a : regex) (st st' : state) :
  In st' (run fl n (RGroup g a) st) <->
  exists y, In y (run fl n a st) /\ st' = (fst y, (g, consumed st y) :: snd y).
Proof.
  cbn [run]. rewrite in_map_iff. split; intros [y [H1 H2]]; exists y; auto.
Qed.

(** [a?]: either the atom matched, or it was skipped. *)
Lemma in_run_opt (a : regex) (st st' : state) :
  In st' (run fl n (opt a) st) ->
  st' = st \/ In st' (run fl n a (fst st, reset (groups a) (snd st))).
Proof.
  unfold opt. cbn [run]. simpl. intros H. apply in_app_or in H.
  destruct H as [H|H].
  2:{ simpl in H. destruct H as [H|H]; [left; congruence|destruct H]. }
  right. apply in_flat_map in H. destruct H as [y [Hy Hst']].
  destruct (Nat.eqb (length (fst y)) (length (fst st))); simpl in Hst'; [tauto|].
  rewrite repeat_max_zero in Hst'. destruct Hst' as [<-|[]]. exact Hy.
Qed.

End Run.

Lemma consumed_app (st st' : state) (w : jsstring) :
  fst st = w ++ fst st' -> consumed st st' = w.
Proof.
  intros H. unfold consumed. rewrite H, length_app.
  replace (length w + length (fst st') - length (fst st')) with (length w) by lia.
  rewrite firstn_app, firstn_all, Nat.sub_diag. simpl. apply app_nil_r.
Qed.

(** A literal, matched case-sensitively, consumes exactly its text. *)
Lemma run_lit (fl : flags) (n : nat) (w : jsstring) :
  ignoreCase fl = false ->
  forall st st', In st' (run fl n (lit w) st) ->
                 fst st = w ++ fst st' /\ snd st' = snd st.
Proof.
  intros Hfl. induction w as [|c t IH]; intros st st' Hin.
  - simpl in Hin. destruct Hin as [<-|[]]. auto.
  - destruct t as [|c' t'].
    + simpl in Hin. apply in_char_step in Hin. destruct Hin as [x [E [Hx Hc]]].
      unfold canonicalize in Hx. rewrite Hfl in Hx. apply N.eqb_eq in Hx.
      subst x. simpl. auto.
    + change (lit (c :: c' :: t')) with (RSeq (RChar c) (lit (c' :: t'))) in Hin.
      apply in_run_seq in Hin. destruct Hin as [y [Hy Hst']].
      cbn [run] in Hy. apply in_char_step in Hy. destruct Hy as [x [E [Hx Hc]]].
      unfold canonicalize in Hx. rewrite Hfl in Hx. apply N.eqb_eq in Hx.
      subst x. apply IH in Hst'. destruct Hst' as [E' Hc'].
      split; [|congruence]. rewrite E, E'. reflexivity.
Qed.

Lemma startsWith_split (s w : jsstring) :
  startsWith s w = true -> s = w ++ skipn (length w) s.
Proof.
  revert s. induction w as [|p w IH]; intros s H; [reflexivity|].
  destruct s as [|c s]; simpl in H; [discriminate|].
  apply andb_prop in H. destruct H as [Hc Hs]. apply N.eqb_eq in Hc. subst c.
  simpl. f_equal. apply IH. exact Hs.
Qed.

Lemma startsWith_nil (s : jsstring) : startsWith s [] = true.
Proof. destruct s; reflexivity. Qed.

(** A literal, matched case-sensitively, as a test for a prefix. *)
Lemma run_lit_eq (fl : flags) (n : nat) (w : jsstring) :
  ignoreCase fl = false ->
  forall st, run fl n (lit w) st =
             if startsWith (fst st) w then [(skipn (length w) (fst st), snd st)]
             else [].
Proof.
  intros Hfl. induction w as [|c t IH]; intros [s cs];
    [destruct s; reflexivity|].
  assert (Hstep : run fl n (RChar c) (s, cs) =
                  match s with
                  | x :: s' => if N.eqb x c then [(s', cs)] else []
                  | [] => []
                  end).
  { cbn [run]. unfold char_step, canonicalize. rewrite Hfl. simpl.
    destruct s as [|x s']; [reflexivity|]. now rewrite N.eqb_sym. }
  destruct t as [|c' t'].
  - change (lit [c]) with (RChar c). rewrite Hstep.
    destruct s as [|x s']; [reflexivity|]. cbn [fst snd startsWith].
    rewrite startsWith_nil, andb_true_r. destruct (N.eqb x c); reflexivity.
  - change (run fl n (lit (c :: c' :: t')) (s, cs))
      with (flat_map (run fl n (lit (c' :: t'))) (run fl n (RChar c) (s, cs))).
    rewrite Hstep. destruct s as [|x s']; [reflexivity|].
    cbn [fst snd startsWith]. destruct (N.eqb x c); [|reflexivity].
    cbn [flat_map]. rewrite app_nil_r, IH. reflexivity.
Qed.

(** [a*?] and [a*] over a character class. *)
Lemma repeat_char_lazy (step : state -> list state) (p : cu -> bool) :
  (forall st, step st = char_step p st) ->
  forall s fuel c, length s < fuel ->
    repeat_matcher step [] false fuel 0 None (s, c) = lazy_results p s c.
Proof.
  intros Hstep. induction s as [|x t IH]; intros fuel c Hf;
    (destruct fuel as [|f]; [inversion Hf|]); cbn [repeat_matcher].
  - cbn [fst snd]. rewrite Hstep. reflexivity.
  - cbn [fst snd]. rewrite Hstep, reset_nil. unfold char_step. cbn [fst snd].
    cbn [lazy_results]. destruct (p x); [|reflexivity].
    cbn [flat_map fst]. rewrite app_nil_r.
    replace (Nat.eqb (length t) (length (x :: t))) with false
      by (symmetry; apply Nat.eqb_neq; simpl; lia).
    cbn [Nat.eqb andb pred option_map]. rewrite IH by (simpl in Hf; lia).
    reflexivity.
Qed.

Lemma repeat_char_greedy (step : state -> list state) (p : cu -> bool) :
  (forall st, step st = char_step p st) ->
  forall s fuel c, length s < fuel ->
    repeat_matcher step [] true fuel 0 None (s, c) = greedy_results p s c.
Proof.
  intros Hstep. induction s as [|x t IH]; intros fuel c Hf;
    (destruct fuel as [|f]; [inversion Hf|]); cbn [repeat_matcher].
  - cbn [fst snd]. rewrite Hstep. reflexivity.
  - cbn [fst snd]. rewrite Hstep, reset_nil. unfold char_step. cbn [fst snd].
    cbn [greedy_results]. destruct (p x); [|reflexivity].
    cbn [flat_map fst]. rewrite app_nil_r.
    replace (Nat.eqb (length t) (length (x :: t))) with false
      by (symmetry; apply Nat.eqb_neq; simpl; lia).
    cbn [Nat.eqb andb pred option_map]. rewrite IH by (simpl in Hf; lia).
    reflexivity.
Qed.

(** [[\s\S]*?] yields every suffix of the text, the longest first. *)
Lemma run_star_lazy_any (fl : flags) (n : nat) (s : jsstring) (c : captures) :
  run fl n (star_lazy any) (s, c) = lazy_results always s c.
Proof.
  unfold star_lazy. cbn [run groups any]. apply repeat_char_lazy.
  - intros st. cbn [run]. unfold char_step. destruct (fst st) as [|x t]; [reflexivity|].
    simpl. destruct (is_space x); reflexivity.
  - simpl. lia.
Qed.

Lemma hd_error_in {A : Type} (l : list A) (x : A) : hd_error l = Some x -> In x l.
Proof. destruct l; simpl; [discriminate|]. intros H. injection H as ->. now left. Qed.

Lemma hd_error_none {A : Type} (l : list A) : hd_error l = None -> l = [].
Proof. destruct l; [reflexivity|discriminate]. Qed.

(** The [exec] loop ends when no match of the expression is empty. *)
Lemma exec_loop_from_total (re : RegExp) (n : nat) :
  (forall s st', match_here re n s = Some st' -> length (fst st') < length s) ->
  forall s skip before_rev,
  exists ms, exec_loop_from re n skip before_rev s = Some ms
             /\ Forall (fun m => exists s0 st', match_here re n s0 = Some st'
                                                /\ m_groups m = snd st') ms.
Proof.
  intros Hprog. induction s as [|c t IH]; intros skip before_rev.
  - destruct skip as [|k]; cbn [exec_loop_from].
    + destruct (match_here re n []) as [st'|] eqn:E.
      * apply Hprog in E. simpl in E. lia.
      * exists []. auto.
    + exists []. auto.
  - destruct skip as [|k]; cbn [exec_loop_from].
    + destruct (match_here re n (c :: t)) as [st'|] eqn:E.
      * pose proof (Hprog _ _ E) as Hlt. cbv zeta.
        destruct (length (c :: t) - length (fst st')) as [|k] eqn:En; [lia|].
        destruct (IH k (c :: before_rev)) as [ms [Hms Hall]].
        rewrite Hms. simpl. eexists. split; [reflexivity|].
        constructor; [|exact Hall]. simpl. exists (c :: t), st'. auto.
      * apply IH.
    + apply IH.
Qed.

End ReFacts.

(* ================================================================== *)
(** ** Facts about the response parser *)
(* ================================================================== *)

Module ParserFacts.

Import Provider.
Import ReFacts.

Ltac not_a_group := simpl; intuition discriminate.

(** [frame k H F]: the capture of group [k] is the same before and after the
    step [H], whose expression does not hold the group. *)
Ltac frame k H F :=
  pose proof H as F; apply (run_frame _ _ k) in F; [|not_a_group].

(** A match of [problemRegex] is never empty, and its second group, when
    it took part, holds one of the three severity words. *)
Lemma problemRegex_match (n : nat) (s : jsstring) (st' : state) :
  match_here problemRegex n s = Some st' ->
  length (fst st') < length s
  /\ (capture 2 (snd st') = None
      \/ exists w, capture 2 (snd st') = Some w /\ valid_severity w).
Proof.
  unfold match_here. intros H. apply hd_error_in in H.
  change (pattern problemRegex) with
    (RSeq (opt (RGroup 1 (plus digit)))
       (RSeq (star ws)
          (RSeq colons
             (RSeq (star ws)
                (RSeq (opt (RSeq (RChar 91%N)
                              (RSeq (RGroup 2 severity_words)
                                 (RSeq (RChar 93%N) (star ws)))))
                   (RGroup 3 (plus not_nl))))))) in H.
  change (re_flags problemRegex) with no_flags in H.
  apply in_run_seq in H. destruct H as [s1 [H1 H]].
  apply in_run_seq in H. destruct H as [s2 [H2 H]].
  apply in_run_seq in H. destruct H as [s3 [H3 H]].
  apply in_run_seq in H. destruct H as [s4 [H4 H]].
  apply in_run_seq in H. destruct H as [s5 [H5 H6]].
  pose proof (run_length _ _ _ _ _ H1) as L1. simpl in L1.
  pose proof (run_length _ _ _ _ _ H2) as L2.
  pose proof (run_length _ _ _ _ _ H4) as L4.
  pose proof (run_length _ _ _ _ _ H5) as L5.
  pose proof (run_length _ _ _ _ _ H6) as L6.
  frame 2 H1 F1. simpl in F1.
  frame 2 H2 F2.
  frame 2 H3 F3.
  frame 2 H4 F4.
  frame 2 H6 F6.
  cbn [run colons] in H3. apply in_char_step in H3. destruct H3 as [x [E3 _]].
  assert (L3 : length (fst s3) < length (fst s2)) by (rewrite E3; simpl; lia).
  split; [lia|].
  rewrite F6.
  apply in_run_opt in H5. destruct H5 as [->|H5].
  - left. congruence.
  - right.
    apply in_run_seq in H5. destruct H5 as [sa [Ha H5]].
    apply in_run_seq in H5. destruct H5 as [sb [Hb H5]].
    apply in_run_seq in H5. destruct H5 as [sc [Hc Hd]].
    frame 2 Hc Fc.
    frame 2 Hd Fd.
    rewrite Fd, Fc.
    apply in_run_group in Hb. destruct Hb as [y [Hy ->]]. simpl.
    exists (consumed sa y). split; [reflexivity|].
    unfold severity_words in Hy.
    change (alt [lit (u "error"); lit (u "warning"); lit (u "info")])
      with (RAlt (lit (u "error")) (RAlt (lit (u "warning")) (lit (u "info")))) in Hy.
    apply in_run_alt in Hy. destruct Hy as [Hy|Hy];
      [|apply in_run_alt in Hy; destruct Hy as [Hy|Hy]];
      apply run_lit in Hy; try reflexivity; destruct Hy as [Hy _];
      rewrite (consumed_app _ _ _ Hy); unfold valid_severity; auto.
Qed.

Lemma valid_info : valid_severity (u "info").
Proof. left. reflexivity. Qed.

Lemma valid_warning : valid_severity (u "warning").
Proof. right. left. reflexivity. Qed.

Lemma valid_error : valid_severity (u "error").
Proof. right. right. reflexivity. Qed.

(** The [while] loop over [problemRegex] ends, whatever the text, and every
    issue it builds has one of the three severities. *)
Lemma scan_issues_returns (content : jsstring) :
  exists l, scan_issues content = Normal l
            /\ Forall (fun i => valid_severity (severity i)) l.
Proof.
  unfold scan_issues, exec_loop.
  destruct (exec_loop_from_total problemRegex (length content)
              (fun s st' H => proj1 (problemRegex_match _ _ _ H)) content 0 [])
    as [ms [E Hall]].
  rewrite E. eexists. split; [reflexivity|].
  apply Forall_map. eapply Forall_impl; [|exact Hall].
  intros m [s0 [st' [Hm Hg]]]. unfold line_issue, group. simpl. rewrite Hg.
  destruct (problemRegex_match _ _ _ Hm) as [_ [Hn|[w [Hw Hv]]]].
  - rewrite Hn. apply valid_info.
  - rewrite Hw. destruct (JS.truthy w); [exact Hv|apply valid_info].
Qed.

(** The issues of the sectioned-markdown pass carry the severity of their
    section, one of three literals. *)
Lemma markdown_issues_valid (content : jsstring) :
  Forall (fun i => valid_severity (severity i)) (markdown_issues content).
Proof.
  unfold markdown_issues. apply Forall_forall. intros i Hi.
  apply in_flat_map in Hi. destruct Hi as [section [_ Hi]].
  unfold section_issues in Hi.
  destruct (negb (test re_marker section)); [destruct Hi|].
  apply in_map_iff in Hi. destruct Hi as [pm [<- _]]. simpl.
  destruct (test re_error section); [apply valid_error|].
  destruct (test re_warning section); [apply valid_warning|apply valid_info].
Qed.

(** The fenced-JSON pass returns: either nothing accepted, or the model's
    array handed on. *)
Lemma json_strategy_cases (content filePath : jsstring) :
  json_strategy content filePath = Normal None
  \/ exists text v items,
       first_group (jsonMatch content) = Some text
       /\ JSON.parse text = Some v
       /\ property v (u "issues") = Normal (Some (JArr items))
       /\ exists s, json_strategy content filePath =
            Normal (Some {| rv_file := filePath;
                            rv_issues := map FromModel items;
                            rv_summary := s |}).
Proof.
  unfold json_strategy.
  destruct (first_group (jsonMatch content)) as [text|]; [|now left].
  unfold json_attempt, JSON_parse.
  destruct (JSON.parse text) as [v|] eqn:Ev; [|now left].
  simpl.
  destruct (property v (u "issues")) as [[[ | | | |items| ]|]| |] eqn:Ei;
    simpl; try (now left).
  destruct (property v (u "summary")) as [ps| |] eqn:Es; simpl.
  - right. exists text, v, items. repeat split; try assumption; try reflexivity.
    eexists. reflexivity.
  - destruct v; simpl in Ei, Es; discriminate.
  - destruct v; simpl in Es; discriminate.
  - destruct v; simpl in Ei; discriminate.
Qed.

(** The text parsing returns a result that fits the declared shape. *)
Lemma text_strategy_returns (content filePath : jsstring) :
  exists l, text_strategy content filePath =
              Normal {| rv_file := filePath; rv_issues := map Built l;
                        rv_summary := JStr (extractSummary content) |}
            /\ Forall (fun i => valid_severity (severity i)) l.
Proof.
  unfold text_strategy.
  pose proof (markdown_issues_valid content) as Hm.
  destruct (markdown_issues content) as [|i0 l0] eqn:Em; simpl.
  - destruct (scan_issues_returns content) as [l [-> Hl]]. simpl.
    destruct l as [|i l].
    + destruct (JS.truthy (trim content)).
      * exists [ {| line := None; severity := u "info"; message := u "审查反馈";
                    suggestion := Some (trim content); code := None |} ].
        split; [reflexivity|].
        constructor; [apply valid_info|constructor].
      * exists []. split; [reflexivity|constructor].
    + exists (i :: l). split; [reflexivity|exact Hl].
  - exists (i0 :: l0). split; [reflexivity|exact Hm].
Qed.

Lemma built_conform (l : list Issue) :
  Forall (fun i => valid_severity (severity i)) l ->
  Forall issue_conforms (map Built l).
Proof. intros H. apply Forall_map. exact H. Qed.

(** [parseReviewResponse] returns, with the file it was given. *)
Lemma parseReviewResponse_returns (content filePath : jsstring) :
  exists r, parseReviewResponse content filePath = Normal r
            /\ rv_file r = filePath
            /\ (passes_model_json content r \/ well_formed r).
Proof.
  unfold parseReviewResponse, parse_body.
  destruct (json_strategy_cases content filePath)
    as [->|[text [v [items [Ht [Hv [Hi [s ->]]]]]]]]; simpl.
  - destruct (text_strategy_returns content filePath) as [l [-> Hl]]. simpl.
    eexists. split; [reflexivity|]. split; [reflexivity|]. right.
    split; simpl; [eexists; reflexivity|apply built_conform; exact Hl].
  - eexists. split; [reflexivity|]. split; [reflexivity|]. left.
    exists text, v, items. auto.
Qed.

(** *** The fenced JSON block *)

Lemma json_fence_shape :
  pattern re_json_fence =
  RSeq (lit fence_open) (RSeq (RGroup 1 (star_lazy any)) (lit fence_close)).
Proof. reflexivity. Qed.

(** After the opening fence the lazy group stops at the first closing fence. *)
Lemma fence_body_found (n : nat) :
  forall t pfx_rev body post,
    find_first fence_close pfx_rev t = Some (body, post) ->
    hd_error
      (flat_map (run no_flags n (lit fence_close))
         (map (fun y => (fst y, (1, consumed (rev pfx_rev ++ t, []) y) :: snd y))
              (lazy_results always t [])))
    = Some (post, [(1, body)]).
Proof.
  induction t as [|x t IH]; intros pfx_rev body post H; cbn [find_first] in H.
  - destruct (startsWith [] fence_close) eqn:E; [vm_compute in E|]; discriminate.
  - cbn [lazy_results always map flat_map]. rewrite run_lit_eq by reflexivity.
    cbn [fst snd]. destruct (startsWith (x :: t) fence_close) eqn:E.
    + injection H as <- <-. cbn [app hd_error].
      rewrite (consumed_app _ _ (rev pfx_rev)) by reflexivity.
      reflexivity.
    + cbn [app]. specialize (IH (x :: pfx_rev) body post H).
      replace (rev (x :: pfx_rev) ++ t) with (rev pfx_rev ++ x :: t) in IH
        by (simpl; rewrite <- app_assoc; reflexivity).
      exact IH.
Qed.

Lemma json_fence_here (n : nat) (s body post : jsstring) :
  startsWith s fence_open = true ->
  find_first fence_close [] (skipn (length fence_open) s) = Some (body, post) ->
  match_here re_json_fence n s = Some (post, [(1, body)]).
Proof.
  intros Hs Hf. unfold match_here. rewrite json_fence_shape.
  change (re_flags re_json_fence) with no_flags.
  change (run no_flags n (RSeq (lit fence_open)
                            (RSeq (RGroup 1 (star_lazy any)) (lit fence_close))) (s, []))
    with (flat_map
            (fun st => flat_map (run no_flags n (lit fence_close))
               (map (fun y => (fst y, (1, consumed st y) :: snd y))
                    (run no_flags n (star_lazy any) st)))
            (run no_flags n (lit fence_open) (s, []))).
  rewrite run_lit_eq by reflexivity. cbn [fst snd]. rewrite Hs.
  cbn [flat_map]. rewrite app_nil_r, run_star_lazy_any.
  apply (fence_body_found n _ [] body post). exact Hf.
Qed.

Lemma json_fence_not_here (n : nat) (s : jsstring) :
  startsWith s fence_open = false -> match_here re_json_fence n s = None.
Proof.
  intros Hs. unfold match_here. rewrite json_fence_shape.
  change (re_flags re_json_fence) with no_flags.
  change (run no_flags n (RSeq (lit fence_open)
                            (RSeq (RGroup 1 (star_lazy any)) (lit fence_close))) (s, []))
    with (flat_map
            (run no_flags n (RSeq (RGroup 1 (star_lazy any)) (lit fence_close)))
            (run no_flags n (lit fence_open) (s, []))).
  rewrite run_lit_eq by reflexivity. cbn [fst]. rewrite Hs. reflexivity.
Qed.

(** The first [```json] fence of a text and the first closing fence after
    it delimit what the first pattern of [jsonMatch] captures. *)
Lemma search_json_fence (n : nat) :
  forall s before_rev pre rest body post,
    find_first fence_open before_rev s = Some (pre, rest) ->
    find_first fence_close [] rest = Some (body, post) ->
    exists m, search_from re_json_fence n before_rev s = Some m
              /\ m_before m = pre /\ group 1 m = Some body /\ m_after m = post.
Proof.
  induction s as [|x s IH]; intros before_rev pre rest body post H1 H2;
    cbn [find_first] in H1; cbn [search_from].
  - destruct (startsWith [] fence_open) eqn:E; [vm_compute in E|]; discriminate.
  - destruct (startsWith (x :: s) fence_open) eqn:E.
    + injection H1 as <- <-.
      rewrite (json_fence_here n _ body post E H2).
      eexists. split; [reflexivity|]. simpl. auto.
    + rewrite (json_fence_not_here n _ E).
      apply (IH _ _ _ _ _ H1 H2).
Qed.

(** *** A fence of any kind: an opening, a lazy group, a closing *)

Section Fence.

Variables op cl : jsstring.
Hypothesis cl_not_empty : cl <> [].

Lemma startsWith_nil_l : startsWith [] cl = false.
Proof. destruct cl; [congruence | reflexivity]. Qed.

(** After the opening the lazy group stops at the first closing. *)
Lemma fence_group_found (n : nat) :
  forall t pfx_rev body post,
    find_first cl pfx_rev t = Some (body, post) ->
    hd_error
      (flat_map (run no_flags n (lit cl))
         (map (fun y => (fst y, (1, consumed (rev pfx_rev ++ t, []) y) :: snd y))
              (lazy_results always t [])))
    = Some (post, [(1, body)]).
Proof.
  induction t as [|x t IH]; intros pfx_rev body post H; cbn [find_first] in H.
  - rewrite startsWith_nil_l in H. discriminate.
  - cbn [lazy_results always map flat_map]. rewrite run_lit_eq by reflexivity.
    cbn [fst snd]. destruct (startsWith (x :: t) cl) eqn:E.
    + injection H as <- <-. cbn [app hd_error].
      rewrite (consumed_app _ _ (rev pfx_rev)) by reflexivity.
      reflexivity.
    + cbn [app]. specialize (IH (x :: pfx_rev) body post H).
      replace (rev (x :: pfx_rev) ++ t) with (rev pfx_rev ++ x :: t) in IH
        by (simpl; rewrite <- app_assoc; reflexivity).
      exact IH.
Qed.

Lemma fence_run (n : nat) (s : jsstring) :
  run no_flags n (pattern (Shapes.fence op cl)) (s, [])
  = if startsWith s op then
      flat_map (run no_flags n (lit cl))
        (map (fun y => (fst y, (1, consumed (skipn (length op) s, []) y) :: snd y))
             (lazy_results always (skipn (length op) s) []))
    else [].
Proof.
  unfold Shapes.fence. cbn [pattern].
  change (run no_flags n (RSeq (lit op) (RSeq (RGroup 1 (star_lazy any)) (lit cl))) (s, []))
    with (flat_map
            (fun st => flat_map (run no_flags n (lit cl))
               (map (fun y => (fst y, (1, consumed st y) :: snd y))
                    (run no_flags n (star_lazy any) st)))
            (run no_flags n (lit op) (s, []))).
  rewrite run_lit_eq by reflexivity. cbn [fst snd].
  destruct (startsWith s op); [|reflexivity].
  cbn [flat_map]. rewrite app_nil_r, run_star_lazy_any. reflexivity.
Qed.

Lemma fence_here (n : nat) (s body post : jsstring) :
  startsWith s op = true ->
  find_first cl [] (skipn (length op) s) = Some (body, post) ->
  match_here (Shapes.fence op cl) n s = Some (post, [(1, body)]).
Proof.
  intros Hs Hf. unfold match_here.
  change (re_flags (Shapes.fence op cl)) with no_flags.
  rewrite fence_run, Hs. apply (fence_group_found n _ [] body post). exact Hf.
Qed.

Lemma fence_not_here (n : nat) (s : jsstring) :
  startsWith s op = false -> match_here (Shapes.fence op cl) n s = None.
Proof.
  intros Hs. unfold match_here.
  change (re_flags (Shapes.fence op cl)) with no_flags.
  rewrite fence_run, Hs. reflexivity.
Qed.

(** The first opening of a text and the first closing after it delimit
    what the expression captures. *)
Lemma search_fence (n : nat) :
  forall s before_rev pre rest body post,
    find_first op before_rev s = Some (pre, rest) ->
    find_first cl [] rest = Some (body, post) ->
    exists m, search_from (Shapes.fence op cl) n before_rev s = Some m
              /\ group 1 m = Some body.
Proof.
  induction s as [|x s IH]; intros before_rev pre rest body post H1 H2;
    cbn [find_first] in H1; cbn [search_from].
  - destruct (startsWith [] op) eqn:E; [|discriminate].
    injection H1 as <- <-.
    rewrite (fence_here n _ body post E H2). eexists. split; reflexivity.
  - destruct (startsWith (x :: s) op) eqn:E.
    + injection H1 as <- <-.
      rewrite (fence_here n _ body post E H2).
      eexists. split; reflexivity.
    + rewrite (fence_not_here n _ E).
      apply (IH _ _ _ _ _ H1 H2).
Qed.

Lemma in_lazy_results (t : jsstring) (c : captures) (y : state) :
  In y (lazy_results always t c) -> exists b, t = b ++ fst y.
Proof.
  revert y. induction t as [|x t IH]; intros y H; cbn [lazy_results always] in H.
  - destruct H as [<-|[]]. exists []. reflexivity.
  - destruct H as [<-|H]; [exists []; reflexivity|].
    destruct (IH y H) as [b ->]. exists (x :: b). reflexivity.
Qed.

(** Where the expression matches, the text goes on with the opening, a
    body and the closing. *)
Lemma fence_sound (n : nat) (s : jsstring) (st' : state) :
  match_here (Shapes.fence op cl) n s = Some st' ->
  exists body, s = op ++ body ++ cl ++ fst st'.
Proof.
  unfold match_here. change (re_flags (Shapes.fence op cl)) with no_flags.
  rewrite fence_run. intros H. apply hd_error_in in H.
  destruct (startsWith s op) eqn:Es; [|destruct H].
  apply in_flat_map in H. destruct H as [y [Hy Hst']].
  apply in_map_iff in Hy. destruct Hy as [z [<- Hz]].
  apply in_lazy_results in Hz. destruct Hz as [b Hb].
  apply run_lit in Hst'; [|reflexivity]. cbn [fst snd] in Hst'.
  destruct Hst' as [Hcl _]. exists b.
  rewrite (startsWith_split s op Es) at 1. rewrite Hb, Hcl. reflexivity.
Qed.

Lemma search_fence_sound (n : nat) :
  forall s before_rev m,
    search_from (Shapes.fence op cl) n before_rev s = Some m ->
    exists a b c, s = a ++ op ++ b ++ cl ++ c.
Proof.
  induction s as [|x s IH]; intros before_rev m H; cbn [search_from] in H.
  - destruct (match_here (Shapes.fence op cl) n []) as [st'|] eqn:E; [|discriminate].
    apply fence_sound in E. destruct E as [b Hb]. exists [], b, (fst st'). exact Hb.
  - destruct (match_here (Shapes.fence op cl) n (x :: s)) as [st'|] eqn:E.
    + apply fence_sound in E. destruct E as [b Hb]. exists [], b, (fst st'). exact Hb.
    + destruct (IH _ _ H) as (a & b & c & ->). exists (x :: a), b, c. reflexivity.
Qed.

End Fence.

Lemma find_first_none (pat : jsstring) :
  forall s before_rev,
    find_first pat before_rev s = None -> forall a b, s <> a ++ pat ++ b.
Proof.
  induction s as [|x s IH]; intros before_rev H a b E; cbn [find_first] in H.
  - destruct (startsWith [] pat) eqn:Es; [discriminate|].
    destruct a; [|discriminate]. destruct pat; [|discriminate].
    discriminate.
  - destruct (startsWith (x :: s) pat) eqn:Es; [discriminate|].
    destruct a as [|y a].
    + cbn [app] in E. rewrite E in Es.
      assert (startsWith (pat ++ b) pat = true) as Hp.
      { clear. induction pat as [|p pat IH]; [apply startsWith_nil|].
        cbn [app startsWith]. rewrite N.eqb_refl. exact IH. }
      congruence.
    + injection E as -> E. exact (IH _ H a b E).
Qed.

(** What [jsonMatch] captures in a text with a fenced block. *)
Lemma jsonMatch_fenced (content body : jsstring) :
  Shapes.fenced_block content body ->
  exists m, jsonMatch content = Some m /\ group 1 m = Some body.
Proof.
  unfold jsonMatch, exec.
  change re_json_fence with (Shapes.fence fence_open fence_close).
  change re_fence with (Shapes.fence Shapes.ticks Shapes.ticks).
  intros [(pre & rest & post & H1 & H2) | [Hno (pre & rest & post & H1 & H2)]].
  - destruct (search_fence fence_open fence_close ltac:(discriminate)
                (length content) content [] pre rest body post H1 H2) as [m [-> Hg]].
    exists m. split; [reflexivity | exact Hg].
  - destruct (search_from (Shapes.fence fence_open fence_close) (length content) [] content)
      as [m0|] eqn:E0.
    + apply search_fence_sound in E0. destruct E0 as (a & b & c & E0).
      exfalso. exact (Hno a b c E0).
    + apply (search_fence Shapes.ticks Shapes.ticks ltac:(discriminate)
               (length content) content [] pre rest body post H1 H2).
Qed.

(** *** The section pass *)

Lemma run_ws (fl : flags) (n : nat) (st : state) :
  run fl n ws st = char_step is_space st.
Proof.
  cbn [run ws]. unfold char_step. destruct (fst st) as [|x t]; [reflexivity|].
  cbn [existsb item_matches xorb]. rewrite orb_false_r. reflexivity.
Qed.

(** [\s+] matches only where a white-space character stands. *)
Lemma in_run_plus_ws (fl : flags) (n : nat) (st st' : state) :
  In st' (run fl n (plus ws) st) ->
  exists x t, fst st = x :: t /\ is_space x = true.
Proof.
  unfold plus. cbn [run]. cbn [repeat_matcher Nat.eqb negb andb].
  intros H. apply in_flat_map in H. destruct H as [y [Hy _]].
  rewrite run_ws in Hy. apply in_char_step in Hy.
  destruct Hy as [x [E [Hx _]]]. cbn [fst] in E. exists x, (fst y). auto.
Qed.

(** And where one stands, it matches. *)
Lemma run_plus_ws_some (fl : flags) (n : nat) (x : cu) (t : jsstring)
    (c : captures) :
  is_space x = true -> run fl n (plus ws) (x :: t, c) <> [].
Proof.
  intros Hx. unfold plus. cbn [run]. cbn [repeat_matcher Nat.eqb negb andb fst snd].
  rewrite run_ws. unfold char_step. cbn [fst snd]. rewrite Hx.
  cbn [flat_map pred option_map]. rewrite app_nil_r.
  rewrite (repeat_char_greedy (run fl n ws) is_space (run_ws fl n))
    by (simpl; lia).
  destruct t as [|y t]; cbn [greedy_results]; [discriminate|].
  intros H. apply app_eq_nil in H. destruct H as [_ H]. discriminate.
Qed.

Lemma section_shape : pattern re_section = RSeq (lit (u "###")) (plus ws).
Proof. reflexivity. Qed.

Lemma starts_section_split (s : jsstring) :
  starts_section s = true <->
  startsWith s (u "###") = true
  /\ exists x t, skipn 3 s = x :: t /\ is_space x = true.
Proof.
  change (u "###") with [35%N; 35%N; 35%N].
  destruct s as [|a [|b [|c [|x t]]]];
    try (split; [discriminate|intros [H1 [x [t [H2 _]]]]; discriminate]).
  cbn [starts_section startsWith skipn].
  destruct (N.eqb a 35), (N.eqb b 35), (N.eqb c 35), (is_space x) eqn:Ex;
    cbn [andb];
    (split;
     [ intros H; first [discriminate | split; [reflexivity|exists x, t; auto]]
     | intros [H [x' [t' [Hk Hx']]]];
       first [discriminate | injection Hk as <- <-; congruence] ]).
Qed.

(** [re_section] matches at a position exactly when the text there starts
    with [###] and a white-space character, and the match is not empty. *)
Lemma section_here (n : nat) (s : jsstring) (st' : state) :
  match_here re_section n s = Some st' ->
  starts_section s = true /\ length (fst st') < length s.
Proof.
  unfold match_here. rewrite section_shape.
  change (re_flags re_section) with no_flags.
  intros H. apply hd_error_in in H. apply in_run_seq in H.
  destruct H as [y [Hy Hst']].
  pose proof (run_length _ _ _ _ _ Hst') as Hlen.
  rewrite run_lit_eq in Hy by reflexivity. cbn [fst snd] in Hy.
  destruct (startsWith s (u "###")) eqn:Es; [|destruct Hy].
  destruct Hy as [<-|[]]. cbn [fst] in Hlen.
  apply in_run_plus_ws in Hst'. destruct Hst' as [x [t [Hk Hx]]]. cbn [fst] in Hk.
  change (length (u "###")) with 3 in *.
  split.
  - apply starts_section_split. split; [exact Es|]. exists x, t. auto.
  - pose proof (startsWith_split _ _ Es) as Hsplit.
    rewrite Hsplit, length_app. change (length (u "###")) with 3. lia.
Qed.

Lemma section_not_here (n : nat) (s : jsstring) :
  match_here re_section n s = None -> starts_section s = false.
Proof.
  unfold match_here. rewrite section_shape.
  change (re_flags re_section) with no_flags.
  intros H. destruct (starts_section s) eqn:E; [|reflexivity].
  apply starts_section_split in E. destruct E as [Es [x [t [Hk Hx]]]].
  change (run no_flags n (RSeq (lit (u "###")) (plus ws)) (s, []))
    with (flat_map (run no_flags n (plus ws)) (run no_flags n (lit (u "###")) (s, [])))
    in H.
  rewrite run_lit_eq in H by reflexivity. cbn [fst snd] in H. rewrite Es in H.
  cbn [flat_map] in H. rewrite app_nil_r in H.
  change (length (u "###")) with 3 in H. rewrite Hk in H.
  pose proof (run_plus_ws_some no_flags n x t [] Hx) as Hne.
  exfalso. apply Hne. apply hd_error_none. exact H.
Qed.

Lemma starts_section_app (a s : jsstring) :
  starts_section (a ++ s) = false -> starts_section a = false.
Proof.
  destruct a as [|x1 [|x2 [|x3 [|x4 a]]]]; try reflexivity.
  intros H. exact H.
Qed.

Lemma clean_snoc (p : jsstring) (c : cu) (t : jsstring) :
  clean p (c :: t) -> starts_section (c :: t) = false -> clean (p ++ [c]) t.
Proof.
  intros Hp Hc. induction p as [|x p IH]; cbn [app clean].
  - split; [exact Hc|exact I].
  - destruct Hp as [Hx Hp]. split; [|apply IH; exact Hp].
    rewrite <- app_assoc. exact Hx.
Qed.

Lemma clean_nil_r (p s : jsstring) : clean p s -> clean p [].
Proof.
  induction p as [|x p IH]; [auto|]. intros [Hx Hp]. split; [|apply IH; exact Hp].
  rewrite app_nil_r.
  exact (starts_section_app (x :: p) s Hx).
Qed.

(** Every piece [split] cuts with [re_section] is free of [###] followed by
    white space. *)
Lemma split_from_clean (n : nat) :
  forall s skip acc_rev,
    (skip = 0 \/ acc_rev = []) ->
    clean (rev acc_rev) s ->
    Forall (fun piece => clean piece []) (split_from re_section n skip acc_rev s).
Proof.
  induction s as [|c t IH]; intros skip acc_rev Hskip Hacc; cbn [split_from].
  - constructor; [|constructor]. exact (clean_nil_r _ _ Hacc).
  - destruct skip as [|k].
    + destruct (match_here re_section n (c :: t)) as [st'|] eqn:E.
      * destruct (section_here n _ _ E) as [_ Hlt].
        destruct (length (c :: t) - length (fst st')) as [|k] eqn:En; [lia|].
        constructor; [exact (clean_nil_r _ _ Hacc)|].
        apply IH; [now right|exact I].
      * apply IH; [now left|].
        cbn [rev]. apply clean_snoc; [exact Hacc|].
        exact (section_not_here n _ E).
    + destruct Hskip as [Hk | ->]; [discriminate|].
      apply IH; [now right|exact I].
Qed.

Lemma split_clean (content : jsstring) :
  Forall (fun piece => clean piece []) (Re.split content re_section).
Proof.
  unfold Re.split. destruct content as [|c t].
  - destruct (match_here re_section 0 []); repeat constructor.
  - apply split_from_clean; [now left|exact I].
Qed.

Lemma problem_shape :
  pattern re_problem =
  RSeq (lit (u "####"))
    (RSeq (plus ws)
       (seq [RGroup 1 (plus_lazy RDot); RChar colon; RGroup 2 (plus_lazy RDot);
             RLookahead (RAlt (lit (u "####")) REnd)])).
Proof. reflexivity. Qed.

(** The problem pattern matches only at a [#] followed by [###] and white
    space. *)
Lemma problem_here (n : nat) (s : jsstring) (st' : state) :
  match_here re_problem n s = Some st' ->
  exists t, s = 35%N :: t /\ starts_section t = true.
Proof.
  unfold match_here. rewrite problem_shape.
  change (re_flags re_problem) with flag_s.
  intros H. apply hd_error_in in H. apply in_run_seq in H.
  destruct H as [y [Hy H]]. apply in_run_seq in H. destruct H as [z [Hz _]].
  rewrite run_lit_eq in Hy by reflexivity. cbn [fst snd] in Hy.
  destruct (startsWith s (u "####")) eqn:Es; [|destruct Hy].
  destruct Hy as [<-|[]].
  apply in_run_plus_ws in Hz. destruct Hz as [x [t [Hk Hx]]]. cbn [fst] in Hk.
  change (u "####") with [35%N; 35%N; 35%N; 35%N] in *.
  destruct s as [|a [|b [|c [|d s']]]]; try discriminate.
  cbn [startsWith] in Es.
  apply andb_prop in Es. destruct Es as [Ha Es].
  apply andb_prop in Es. destruct Es as [Hb Es].
  apply andb_prop in Es. destruct Es as [Hc Es].
  apply andb_prop in Es. destruct Es as [Hd _].
  apply N.eqb_eq in Ha, Hb, Hc, Hd. subst. cbn [length skipn] in Hk. subst s'.
  eexists. split; [reflexivity|]. exact Hx.
Qed.

Lemma match_all_clean (n : nat) :
  forall p, clean p [] -> match_all_from re_problem n 0 p = [].
Proof.
  induction p as [|x p IH]; intros Hp; cbn [match_all_from].
  - destruct (match_here re_problem n []) as [st'|] eqn:E; [|reflexivity].
    apply problem_here in E. destruct E as [t [Ht _]]. discriminate.
  - destruct Hp as [_ Hp].
    destruct (match_here re_problem n (x :: p)) as [st'|] eqn:E.
    + apply problem_here in E. destruct E as [t [Ht Hs]].
      injection Ht as -> ->. destruct t as [|y t]; [discriminate|].
      destruct Hp as [Hy _]. rewrite app_nil_r in Hy.
      exfalso. exact (eq_true_false_abs _ Hs Hy).
    + apply IH. exact Hp.
Qed.

(** The section pass yields no issue, whatever the text. *)
Lemma section_pass_empty (content : jsstring) : markdown_issues content = [].
Proof.
  unfold markdown_issues.
  pose proof (split_clean content) as H.
  induction (Re.split content re_section) as [|piece l IH]; [reflexivity|].
  inversion H as [|? ? Hp Hl]; subst. cbn [filter].
  destruct (JS.truthy piece); cbn [flat_map].
  - rewrite (IH Hl). unfold section_issues, match_all.
    rewrite (match_all_clean _ piece Hp).
    destruct (negb (test re_marker piece)); reflexivity.
  - exact (IH Hl).
Qed.

(** X1. The section pass yields no issue, whatever the text: [split] cuts
    every [####] header apart, at its last three [#] and the white space
    after them, so no section holds what the problem pattern needs. *)
Theorem markdown_issues_nil (content : jsstring) : markdown_issues content = [].
Proof.
  unfold markdown_issues.
  pose proof (split_clean content) as H.
  induction (Re.split content re_section) as [|piece l IH]; [reflexivity|].
  inversion H as [|? ? Hp Hl]; subst. cbn [filter].
  destruct (JS.truthy piece); cbn [flat_map].
  - rewrite (IH Hl). unfold section_issues, match_all.
    rewrite (match_all_clean _ piece Hp).
    destruct (negb (test re_marker piece)); reflexivity.
  - exact (IH Hl).
Qed.

End ParserFacts.

(* ================================================================== *)
(** ** The response parser: the claims *)
(* ================================================================== *)

Module Parser.

Import Provider.
Import ReFacts.
Import ParserFacts.

(** C1, counterexample. A fenced JSON block whose issue has the severity
    [critical] is passed through: the returned result is not well-formed,
    its issue's severity being none of info, warning, error. *)
Lemma parseReviewResponse_invalid_severity :
  exists r,
    parseReviewResponse
      (u "```json" ++ nl
         ++ uq "{'issues':[{'severity':'critical','message':'m'}],'summary':'s'}"
         ++ nl ++ u "```")
      (u "src/a.ts") = Normal r
    /\ ~ well_formed r.
Proof.
  eexists. split; [vm_compute; reflexivity|].
  intros [_ H]. inversion H as [|x l Hx Hl]; subst. simpl in Hx.
  destruct Hx as [[s [Hs Hv]] _]. vm_compute in Hs. injection Hs as <-.
  destruct Hv as [Hv|[Hv|Hv]]; vm_compute in Hv; discriminate.
Qed.

(** C1, amended. For every input text and file path [parseReviewResponse]
    returns a result: it neither throws nor loops. Unless the fenced JSON
    was accepted, in which case the issues are the model's array as it
    came, the result is well-formed and every issue's severity is one of
    info, warning, error. The handler of an internal error builds a result
    whose single issue has severity error and the error detail as its
    suggestion. *)
Theorem parseReviewResponse_total (content filePath : jsstring) :
  (exists r,
      parseReviewResponse content filePath = Normal r
      /\ (passes_model_json content r \/ well_formed r))
  /\ (forall detail,
         rv_issues (error_result filePath detail) =
         [Built {| line := None; severity := u "error";
                   message := u "解析审查结果时出错";
                   suggestion := Some detail; code := None |}]).
Proof.
  split; [|reflexivity].
  destruct (parseReviewResponse_returns content filePath) as [r [Hr [_ Hw]]].
  exists r. auto.
Qed.

(** C10. For every input text and file path the returned result's [file] is
    the [filePath] argument, in every branch, the error handler included;
    nothing in the model's JSON can replace it. *)
Theorem parseReviewResponse_file (content filePath : jsstring) :
  (exists r, parseReviewResponse content filePath = Normal r
             /\ rv_file r = filePath)
  /\ (forall detail, rv_file (error_result filePath detail) = filePath).
Proof.
  split; [|reflexivity].
  destruct (parseReviewResponse_returns content filePath) as [r [Hr [Hf _]]].
  exists r. auto.
Qed.

(** C2, counterexample. The first fenced block parses to an object with an
    [issues] array and the summary [false]; the returned summary is the
    empty string, not the parsed summary. *)
Lemma json_summary_falsy_replaced :
  let body := uq "{'issues':[],'summary':false}" in
  let content := u "```json" ++ nl ++ body ++ nl ++ u "```" in
  find_first fence_open [] content = Some ([], body ++ nl ++ u "```")
  /\ find_first fence_close [] (body ++ nl ++ u "```") = Some (body, [])
  /\ JSON.parse body
     = Some (JObj [(u "issues", JArr []); (u "summary", JBool false)])
  /\ exists r, parseReviewResponse content (u "src/a.ts") = Normal r
               /\ rv_summary r = JStr []
               /\ rv_summary r <> JBool false.
Proof.
  cbv zeta.
  split; [vm_compute; reflexivity|].
  split; [vm_compute; reflexivity|].
  split; [vm_compute; reflexivity|].
  eexists. split; [vm_compute; reflexivity|]. split; [reflexivity|discriminate].
Qed.

(** C2, only the first fence is read. The JSON of a second fence is not
    passed on when the first fence holds no JSON. *)
Lemma later_fence_ignored :
  Shapes.fenced_block Shapes.example_two_fences (u "to do")
  /\ JSON.parse example_json_body = Some (JObj example_json_members)
  /\ json_strategy Shapes.example_two_fences (u "src/a.ts") = Normal None.
Proof.
  split; [|split; vm_compute; reflexivity].
  left. exists [], (skipn 8 Shapes.example_two_fences),
          (skipn 17 Shapes.example_two_fences).
  split; vm_compute; reflexivity.
Qed.

(** C2, amended. The fenced block of a response is the body of its first
    [```json] fence or, when the text holds no such fence, what stands
    between its first [```] and the next. When that block parses to an
    object whose [issues] is an array, the result is exactly the file path
    given, that array unchanged, and the parsed summary when it is truthy,
    the empty string when it is absent or falsy (null, false, zero,
    empty); no text strategy adds an issue. *)
Theorem json_passthrough
    (content filePath body : jsstring)
    (members : list (jsstring * json)) (items : list json) :
  Shapes.fenced_block content body ->
  JSON.parse body = Some (JObj members) ->
  lookup (u "issues") members = Some (JArr items) ->
  parseReviewResponse content filePath =
  Normal {| rv_file := filePath;
            rv_issues := map FromModel items;
            rv_summary :=
              match lookup (u "summary") members with
              | Some s => if JSON.truthy s then s else JStr []
              | None => JStr []
              end |}.
Proof.
  intros Hblock Hparse Hissues.
  destruct (jsonMatch_fenced content body Hblock) as [m [Hm Hg]].
  unfold parseReviewResponse, parse_body, json_strategy.
  rewrite Hm. unfold first_group, group_text. rewrite Hg.
  destruct body as [|b0 body'].
  - vm_compute in Hparse. discriminate.
  - cbn [JS.truthy]. unfold json_attempt, JSON_parse. rewrite Hparse.
    cbn [bind property]. rewrite Hissues. cbn [bind try_catch]. reflexivity.
Qed.

Lemma example_plain_fence_block :
  Shapes.fenced_block Shapes.example_plain_fence (nl ++ example_json_body ++ nl).
Proof.
  right. split.
  - intros a b c.
    apply (find_first_none fence_open Shapes.example_plain_fence []).
    vm_compute. reflexivity.
  - exists (u "Review:" ++ nl), (nl ++ example_json_body ++ nl ++ u "```" ++ nl), nl.
    split; vm_compute; reflexivity.
Qed.

Lemma json_passthrough_witness :
  parseReviewResponse Shapes.example_plain_fence (u "src/a.ts")
  = Normal {| rv_file := u "src/a.ts";
              rv_issues := map FromModel example_json_items;
              rv_summary :=
                match lookup (u "summary") example_json_members with
                | Some s => if JSON.truthy s then s else JStr []
                | None => JStr []
                end |}.
Proof.
  apply (json_passthrough Shapes.example_plain_fence (u "src/a.ts")
           (nl ++ example_json_body ++ nl)
           example_json_members example_json_items example_plain_fence_block);
    vm_compute; reflexivity.
Defined.

(** C5. The sectioned text of the claim, with the red-circle section and the
    header for line 12: the parser returns one issue, with severity info and
    no line, built by the line scan; the section pass yields nothing. *)
Theorem markdown_section_example :
  let content := lines ["### 🔴 严重问题"; "#### 第12行: message text"] in
  markdown_issues content = []
  /\ exists r,
       parseReviewResponse content (u "src/a.ts") = Normal r
       /\ rv_issues r =
          [Built {| line := None; severity := u "info";
                    message := u "message text";
                    suggestion := None; code := None |}].
Proof.
  cbv zeta. split; [vm_compute; reflexivity|].
  eexists. split; vm_compute; reflexivity.
Qed.

(** C6, counterexample. A fenced JSON block with an empty [issues] array:
    the text is not empty, no strategy produced an issue, and the result
    has no issue at all. *)
Lemma degenerate_fallback_skipped :
  let content := u "```json" ++ nl ++ uq "{'issues':[]}" ++ nl ++ u "```" in
  JS.truthy (trim content) = true
  /\ exists r,
       json_strategy content (u "src/a.ts") = Normal (Some r)
       /\ rv_issues r = []
       /\ parseReviewResponse content (u "src/a.ts") = Normal r.
Proof.
  cbv zeta. split; [vm_compute; reflexivity|].
  eexists. split; [vm_compute; reflexivity|].
  split; [reflexivity|vm_compute; reflexivity].
Qed.

(** C6, amended. For every text that is not empty after trimming, when the
    fenced JSON was not accepted and neither the section pass nor the line
    scan produced an issue, the result has exactly one issue: severity
    info, the fixed message, and the whole trimmed text as suggestion. (An
    accepted fenced JSON is returned as it is, also with an empty array.) *)
Theorem degenerate_fallback (content filePath : jsstring) :
  JS.truthy (trim content) = true ->
  json_strategy content filePath = Normal None ->
  markdown_issues content = [] ->
  scan_issues content = Normal [] ->
  parseReviewResponse content filePath =
  Normal {| rv_file := filePath;
            rv_issues := [Built (feedback_issue content)];
            rv_summary := JStr (extractSummary content) |}.
Proof.
  intros Ht Hj Hm Hs.
  unfold parseReviewResponse, parse_body. rewrite Hj. cbn [bind].
  unfold text_strategy. rewrite Hm, Hs. cbn [bind]. rewrite Ht. reflexivity.
Qed.

Lemma degenerate_fallback_witness :
  parseReviewResponse (u "  Looks good to me  ") (u "src/a.ts") =
  Normal {| rv_file := u "src/a.ts";
            rv_issues := [Built (feedback_issue (u "  Looks good to me  "))];
            rv_summary := JStr (extractSummary (u "  Looks good to me  ")) |}.
Proof.
  apply degenerate_fallback; vm_compute; reflexivity.
Defined.

End Parser.

(* ================================================================== *)
(** ** The prompts: the claims *)
(* ================================================================== *)

Module Prompts.

Import Provider.

(** C8. The custom review template with the diff of a shell script: the
    value put in place of [{{diffContent}}] is not the diff content, the
    pair of dollars in it having been read as a replacement pattern and
    written as one dollar. *)
Theorem buildReviewPrompt_dollar :
  diffContent example_shell_diff = u "+echo $$ > run.pid"
  /\ buildReviewPrompt (Some (u "Review this diff: {{diffContent}}"))
                       example_shell_diff (u "Shell")
     = u "Review this diff: +echo $ > run.pid".
Proof. split; vm_compute; reflexivity. Qed.

Lemma issuesCount_from (l : list ReviewResult) (a : nat) :
  fold_left (fun sum result => sum + length (issues result)) l a
  = a + fold_left (fun sum result => sum + length (issues result)) l 0.
Proof.
  revert a. induction l as [|r l IH]; intros a; simpl; [lia|].
  rewrite IH, (IH (length (issues r))). lia.
Qed.

Lemma issuesCount_zero (results : list ReviewResult) :
  issuesCount results = 0 -> flat_map issues results = [].
Proof.
  unfold issuesCount. induction results as [|r l IH]; simpl; [reflexivity|].
  rewrite issuesCount_from. intros H.
  assert (Hr : length (issues r) = 0) by lia.
  destruct (issues r); [|discriminate]. simpl. apply IH. lia.
Qed.

(** C7. For every list of results whose issues add up to zero, each of the
    three percentages is written [0]: the quotient 0/0 is NaN, which
    [|| 0] replaces by zero before rounding. The built-in summary prompt
    carries this text. *)
Theorem severityDistribution_no_issues (results : list ReviewResult) :
  issuesCount results = 0 ->
  severityDistribution results = zero_distribution
  /\ exists before after,
       buildSummaryPrompt None results = before ++ zero_distribution ++ after.
Proof.
  intros H.
  assert (Hd : severityDistribution results = zero_distribution).
  { unfold severityDistribution. rewrite H, (issuesCount_zero _ H).
    vm_compute; reflexivity. }
  split; [exact Hd|].
  unfold buildSummaryPrompt. rewrite Hd.
  exists (u "请对以下代码审查结果进行全面总结，并提供详细的整体改进建议:" ++ nl
          ++ nl
          ++ u "审查了 " ++ String_of_nat (length results) ++ u " 个文件，共发现 "
          ++ String_of_nat (issuesCount results) ++ u " 个问题。" ++ nl
          ++ nl
          ++ u "问题严重程度分布:" ++ nl).
  exists (nl
          ++ nl
          ++ u "详细审查结果:" ++ nl
          ++ detailedResults results ++ nl
          ++ nl
          ++ lines [
            "请基于以上结果提供:";
            "1. 代码库整体质量评估";
            "2. 按文件列出关键问题及建议";
            "3. 最常见的问题类型及改进方向";
            "4. 优先修复的关键问题";
            "5. 整体代码质量改进建议" ]).
  repeat match goal with
         | |- context [u ?s] => generalize (u s); intro
         end.
  repeat rewrite <- app_assoc. reflexivity.
Qed.

Lemma severityDistribution_no_issues_witness :
  severityDistribution example_clean_results = zero_distribution
  /\ exists before after,
       buildSummaryPrompt None example_clean_results
       = before ++ zero_distribution ++ after.
Proof.
  apply (severityDistribution_no_issues example_clean_results). reflexivity.
Defined.

End Prompts.

(* ================================================================== *)
(** ** The core reviewer: the claims *)
(* ================================================================== *)

Module Core.

Import Reviewer.
Import ReFacts.

Section SingleFile.

Variable World : Type.
Variable getCodeDiffs : World -> completion (list CodeDiff) * World.
Variable reviewCode : CodeDiff -> World -> completion (option ReviewResult) * World.
Variable submitReviewComment :
  jsstring -> option N -> jsstring -> World -> completion unit * World.
Variable formatSingleFileReview : ReviewResult -> jsstring.

Lemma find_target_none (targetFile : jsstring) (diffs : list CodeDiff) :
  (forall d, In d diffs -> newPath d <> targetFile) ->
  find (fun diff => JS.eqb (newPath diff) targetFile) diffs = None.
Proof.
  induction diffs as [|d l IH]; intros H; simpl; [reflexivity|].
  destruct (JS.eqb (newPath d) targetFile) eqn:E.
  - apply eqb_eq in E. exfalso. apply (H d); [now left|exact E].
  - apply IH. intros d' Hd'. apply H. now right.
Qed.

(** C9. For every target path, when the fetched diffs hold none whose
    [newPath] is the target (the empty list included), [reviewSingleFile]
    returns [null] without throwing; the run asked for the diffs and wrote
    to the log, and neither called the model nor submitted a comment. *)
Theorem reviewSingleFile_not_found
    (targetFile : jsstring) (diffs : list CodeDiff) (w w' : World)
    (trace : list event) :
  getCodeDiffs w = (Normal diffs, w') ->
  (forall d, In d diffs -> newPath d <> targetFile) ->
  exists added,
    reviewSingleFile World getCodeDiffs reviewCode submitReviewComment
                     formatSingleFileReview targetFile (w, trace)
    = (Normal None, (w', added ++ trace))
    /\ In GetCodeDiffs added
    /\ Forall quiet added.
Proof.
  intros Hget Hnone.
  cbv [reviewSingleFile and_then emit catch call ret fst snd].
  rewrite Hget.
  destruct diffs as [|d l].
  - eexists [_; _; _; _]. split; [reflexivity|].
    split; [simpl; auto|repeat constructor].
  - rewrite (find_target_none targetFile (d :: l) Hnone).
    eexists [_; _; _; _]. split; [reflexivity|].
    split; [simpl; auto|repeat constructor].
Qed.

End SingleFile.

Lemma reviewSingleFile_not_found_witness :
  exists added,
    reviewSingleFile unit (fun w => (Normal [example_diff], w))
                     (fun _ w => (Normal None, w))
                     (fun _ _ _ w => (Normal tt, w))
                     (fun _ => [])
                     (u "src/missing.ts") (tt, [])
    = (Normal None, (tt, added ++ []))
    /\ In GetCodeDiffs added
    /\ Forall quiet added.
Proof.
  apply (reviewSingleFile_not_found unit (fun w => (Normal [example_diff], w))
           (fun _ w => (Normal None, w)) (fun _ _ _ w => (Normal tt, w))
           (fun _ => []) (u "src/missing.ts") [example_diff] tt tt []).
  - reflexivity.
  - intros d [<-|[]]. vm_compute. discriminate.
Defined.

Section Filter.

Variable new_RegExp : jsstring -> option RegExp.




Lemma filter_c_spec {A : Type} (f : A -> completion bool) (l out : list A) :
  filter_c f l = Normal out <->
  Forall (fun x => exists b, f x = Normal b) l
  /\ out = filter (fun x => match f x with Normal b => b | _ => false end) l.
Proof.
  revert out. induction l as [|x l IH]; intros out; simpl.
  - split.
    + intros H. injection H as <-. auto.
    + intros [_ ->]. reflexivity.
  - split.
    + intros H. destruct (f x) as [b| |] eqn:Ef; simpl in H; try discriminate.
      destruct (filter_c f l) as [kept_l| |] eqn:El; simpl in H; try discriminate.
      injection H as <-. destruct (proj1 (IH kept_l) eq_refl) as [Hall ->].
      split; [constructor; [exists b; exact Ef|exact Hall]|].
      destruct b; reflexivity.
    + intros [Hall ->]. inversion Hall as [|? ? [b Hb] Hl]; subst.
      rewrite Hb. simpl. rewrite (proj2 (IH _) (conj Hl eq_refl)). simpl.
      destruct b; reflexivity.
Qed.


End Filter.

End Core.

(* ================================================================== *)
(** ** The pattern matcher of the filter *)
(* ================================================================== *)

Module Glob.

Import Reviewer.
Import ReFacts.

(** *** The source text *)

Lemma match_here_char (c : cu) (n : nat) (s : jsstring) :
  match_here {| pattern := RChar c; re_flags := no_flags |} n s =
  match s with
  | x :: t => if N.eqb c x then Some (t, []) else None
  | [] => None
  end.
Proof.
  unfold match_here. cbn [run pattern re_flags]. unfold char_step, canonicalize.
  cbn [ignoreCase no_flags fst snd]. destruct s as [|x t]; [reflexivity|].
  destruct (N.eqb c x); reflexivity.
Qed.

(** A global replacement of one character by a text without [$]. *)
Lemma replace_all_char (c : cu) (repl : jsstring) :
  (forall m b a, getSubstitution m b a repl = repl) ->
  forall s n before_rev,
    replace_all_from {| pattern := RChar c; re_flags := no_flags |} repl n 0
                     before_rev s
    = flat_map (fun x => if N.eqb c x then repl else [x]) s.
Proof.
  intros Hrepl. induction s as [|x t IH]; intros n before_rev;
    cbn [replace_all_from]; rewrite match_here_char; [reflexivity|].
  cbn [flat_map]. destruct (N.eqb c x); cbn [fst].
  - replace (length (x :: t) - length t) with 1 by (cbn [length]; lia).
    rewrite Hrepl, IH. reflexivity.
  - rewrite IH. reflexivity.
Qed.

(** The source handed to [new RegExp]: the dot escaped, the star made [.*],
    whatever the pattern. *)
Lemma regexPattern_source (pattern : jsstring) :
  regexPattern pattern = flat_map glob_source pattern.
Proof.
  unfold regexPattern, replace_all, re_dot, re_star.
  rewrite (replace_all_char 46%N (u "\.")) by (intros; reflexivity).
  rewrite (replace_all_char 42%N (u ".*")) by (intros; reflexivity).
  induction pattern as [|c p IH]; [reflexivity|].
  change (flat_map (fun x => if N.eqb 46 x then u "\." else [x]) (c :: p))
    with ((if N.eqb 46 c then u "\." else [c])
            ++ flat_map (fun x => if N.eqb 46 x then u "\." else [x]) p).
  rewrite flat_map_app.
  change (flat_map glob_source (c :: p))
    with (glob_source c ++ flat_map glob_source p).
  f_equal; [|exact IH]. unfold glob_source.
  rewrite (N.eqb_sym c 46%N), (N.eqb_sym c 42%N).
  destruct (N.eqb 46 c); [reflexivity|].
  cbn [flat_map]. apply app_nil_r.
Qed.

(** *** The compiled expression *)

Lemma syntax_char_false (c : cu) :
  syntax_char c = false ->
  (c =? 94)%N = false /\ (c =? 36)%N = false /\ (c =? 92)%N = false
  /\ (c =? 46)%N = false /\ (c =? 42)%N = false /\ (c =? 43)%N = false
  /\ (c =? 63)%N = false /\ (c =? 40)%N = false /\ (c =? 41)%N = false
  /\ (c =? 91)%N = false /\ (c =? 123)%N = false /\ (c =? 124)%N = false.
Proof.
  unfold syntax_char.
  change (u "^$\.*+?()[]{}|")
    with [94; 36; 92; 46; 42; 43; 63; 40; 41; 91; 93; 123; 125; 124]%N.
  cbn [existsb]. intros H.
  repeat (apply orb_false_elim in H; destruct H as [? H]). repeat split; assumption.
Qed.

Lemma glob_char_cases (c : cu) :
  glob_char c = true ->
  c = 46%N \/ c = 42%N \/ (syntax_char c = false).
Proof.
  unfold glob_char. intros H.
  apply orb_true_iff in H. destruct H as [H|H].
  - apply orb_true_iff in H. destruct H as [H|H].
    + right. right. now apply negb_true_iff.
    + left. now apply N.eqb_eq.
  - right. left. now apply N.eqb_eq.
Qed.

(** A text that does not begin with a quantifier. *)
Lemma with_quantifier_none (a : regex) (s : jsstring) :
  quantifier_head s = false -> with_quantifier a s = Read (a, s).
Proof.
  destruct s as [|c t]; [reflexivity|]. cbn [quantifier_head with_quantifier].
  intros H. repeat (apply orb_false_elim in H; destruct H as [H ?]).
  rewrite ?H, ?H0, ?H1, ?H2. reflexivity.
Qed.

Lemma lazy_mark_none (a : regex) (min : nat) (max : option nat) (s : jsstring) :
  quantifier_head s = false -> lazy_mark a min max s = Read (RQuant a min max true, s).
Proof.
  destruct s as [|c t]; [reflexivity|]. cbn [quantifier_head lazy_mark].
  intros H. repeat (apply orb_false_elim in H; destruct H as [H ?]).
  rewrite ?H, ?H0, ?H1, ?H2. reflexivity.
Qed.

Lemma quantifier_next_head (s : jsstring) :
  quantifier_head s = false -> quantifier_next s = false.
Proof.
  destruct s as [|c t]; [reflexivity|]. cbn [quantifier_head quantifier_next].
  intros H. repeat (apply orb_false_elim in H; destruct H as [H ?]).
  rewrite ?H, ?H0, ?H1, ?H2. reflexivity.
Qed.

(** The source of a glob-like pattern, and the [$] after it, never begin
    with a quantifier. *)
Lemma glob_source_head (p : jsstring) :
  glob_pattern p = true ->
  quantifier_head (flat_map glob_source p ++ [36%N]) = false.
Proof.
  intros Hp. destruct p as [|c p]; [reflexivity|].
  cbn [glob_pattern forallb] in Hp. apply andb_prop in Hp. destruct Hp as [Hc _].
  cbn [flat_map]. unfold glob_source.
  destruct (glob_char_cases c Hc) as [->|[->|Hs]]; [reflexivity|reflexivity|].
  destruct (syntax_char_false c Hs) as (_ & _ & _ & H46 & H42 & H43 & H63 & _ & _ & _ & H123 & _).
  rewrite H46, H42. cbn [app quantifier_head]. rewrite H42, H43, H63, H123. reflexivity.
Qed.

(** One step of the reading: a pattern character, an escaped dot, a dot
    with a star. *)
Lemma read_plain (f : nat) (inside : bool) (n : nat) (terms alts : list regex)
    (c : cu) (t : jsstring) :
  syntax_char c = false -> quantifier_head t = false ->
  read_disjunction (S f) inside n terms alts (c :: t)
  = read_disjunction f inside n (RChar c :: terms) alts t.
Proof.
  intros Hc Ht.
  destruct (syntax_char_false c Hc)
    as (H94 & H36 & H92 & H46 & H42 & H43 & H63 & H40 & H41 & H91 & H123 & H124).
  cbn [read_disjunction quantifier_next].
  rewrite H41, H124, H94, H36, H42, H43, H63, H123, H40, H92, H91, H46.
  cbn [orb andb]. rewrite (with_quantifier_none _ _ Ht). reflexivity.
Qed.

Lemma read_escaped_dot (f : nat) (inside : bool) (n : nat) (terms alts : list regex)
    (t : jsstring) :
  quantifier_head t = false ->
  read_disjunction (S f) inside n terms alts (92%N :: 46%N :: t)
  = read_disjunction f inside n (RChar 46%N :: terms) alts t.
Proof.
  intros Ht.
  change (read_disjunction (S f) inside n terms alts (92%N :: 46%N :: t))
    with (match with_quantifier (RChar 46%N) t with
          | Read (term, rest') => read_disjunction f inside n (term :: terms) alts rest'
          | Rejected => Rejected
          | Unread => Unread
          end).
  rewrite (with_quantifier_none _ _ Ht). reflexivity.
Qed.

Lemma read_dot_star (f : nat) (inside : bool) (n : nat) (terms alts : list regex)
    (t : jsstring) :
  quantifier_head t = false ->
  read_disjunction (S f) inside n terms alts (46%N :: 42%N :: t)
  = read_disjunction f inside n (star RDot :: terms) alts t.
Proof.
  intros Ht.
  change (read_disjunction (S f) inside n terms alts (46%N :: 42%N :: t))
    with (match lazy_mark RDot 0 None t with
          | Read (term, rest') => read_disjunction f inside n (term :: terms) alts rest'
          | Rejected => Rejected
          | Unread => Unread
          end).
  rewrite (lazy_mark_none _ _ _ _ Ht). reflexivity.
Qed.

(** The reading of the source of a glob-like pattern, up to the [$]. *)
Lemma read_glob (p : jsstring) :
  glob_pattern p = true ->
  forall fuel n terms,
    length (flat_map glob_source p ++ [36%N]) < fuel ->
    read_disjunction fuel false n terms [] (flat_map glob_source p ++ [36%N])
    = Read (fold_right RSeq REmpty (rev terms ++ map glob_term p ++ [REnd]), [], n).
Proof.
  induction p as [|c p IH]; intros Hp fuel n terms Hf.
  - cbn [flat_map app length] in *.
    destruct fuel as [|[|f]]; [lia|lia|]. reflexivity.
  - cbn [glob_pattern forallb] in Hp. apply andb_prop in Hp.
    destruct Hp as [Hc Hp']. pose proof (glob_source_head p Hp') as Hhead.
    cbn [flat_map map] in Hf |- *. rewrite <- app_assoc.
    rewrite <- app_assoc in Hf.
    destruct (glob_char_cases c Hc) as [->|[->|Hs]].
    + change (glob_source 46%N) with [92%N; 46%N] in *.
      cbn [app length] in *. destruct fuel as [|f]; [lia|].
      rewrite read_escaped_dot by exact Hhead.
      rewrite (IH Hp') by lia. cbn [rev]. rewrite <- app_assoc. reflexivity.
    + change (glob_source 42%N) with [46%N; 42%N] in *.
      cbn [app length] in *. destruct fuel as [|f]; [lia|].
      rewrite read_dot_star by exact Hhead.
      rewrite (IH Hp') by lia. cbn [rev]. rewrite <- app_assoc. reflexivity.
    + destruct (syntax_char_false c Hs) as (_ & _ & _ & H46 & H42 & _).
      replace (glob_source c) with [c] in *
        by (unfold glob_source; rewrite H46, H42; reflexivity).
      replace (glob_term c) with (RChar c)
        by (unfold glob_term; rewrite H42; reflexivity).
      cbn [app length] in *. destruct fuel as [|f]; [lia|].
      rewrite read_plain by assumption.
      rewrite (IH Hp') by lia. cbn [rev]. rewrite <- app_assoc. reflexivity.
Qed.

(** [new RegExp] on the source of a glob-like pattern: the anchors around
    the terms of the pattern's characters. *)
Lemma RegExp_reading_glob (p : jsstring) :
  glob_pattern p = true ->
  RegExp_reading (u "^" ++ regexPattern p ++ u "$") =
  Read {| pattern := RSeq RBegin (glob_body p); re_flags := no_flags |}.
Proof.
  intros Hp. rewrite regexPattern_source. unfold RegExp_reading.
  change (u "^" ++ flat_map glob_source p ++ u "$")
    with (94%N :: (flat_map glob_source p ++ [36%N])).
  cbn [length].
  change (read_disjunction (S (S (length (flat_map glob_source p ++ [36%N]))))
            false 0 [] [] (94%N :: (flat_map glob_source p ++ [36%N])))
    with (read_disjunction (S (length (flat_map glob_source p ++ [36%N])))
            false 0 [RBegin] [] (flat_map glob_source p ++ [36%N])).
  rewrite (read_glob p Hp) by lia. reflexivity.
Qed.

Lemma new_RegExp_glob (p : jsstring) :
  glob_pattern p = true ->
  new_RegExp (u "^" ++ regexPattern p ++ u "$") =
  Some {| pattern := RSeq RBegin (fold_right RSeq REmpty (map glob_term p ++ [REnd]));
          re_flags := no_flags |}.
Proof.
  intros Hp. unfold new_RegExp. rewrite (RegExp_reading_glob p Hp). reflexivity.
Qed.

(** *** What the compiled expression accepts *)

Lemma in_greedy_results (p : cu -> bool) (s : jsstring) (c : captures)
    (t : jsstring) (c' : captures) :
  In (t, c') (greedy_results p s c) <->
  c' = c /\ exists s1, s = s1 ++ t /\ forallb p s1 = true.
Proof.
  induction s as [|x s IH]; cbn [greedy_results].
  - cbn [app In]. split.
    + intros [H|[]]. injection H as <- <-. split; [reflexivity|]. exists []. auto.
    + intros [-> [s1 [Hs _]]]. left.
      destruct s1; [simpl in Hs; now subst|discriminate].
  - rewrite in_app_iff. split.
    + intros [H|[H|[]]].
      * destruct (p x) eqn:Hp; [|destruct H].
        apply IH in H. destruct H as [-> [s1 [-> Hs1]]].
        split; [reflexivity|]. exists (x :: s1). simpl. rewrite Hp. auto.
      * injection H as <- <-. split; [reflexivity|]. exists []. auto.
    + intros [-> [s1 [Hs Hs1]]]. destruct s1 as [|y s1].
      * right. left. simpl in Hs. now subst.
      * left. simpl in Hs. injection Hs as <- ->. simpl in Hs1.
        apply andb_prop in Hs1. destruct Hs1 as [Hy Hs1]. rewrite Hy.
        apply IH. split; [reflexivity|]. exists s1. auto.
Qed.

Lemma run_star_dot (n : nat) (s : jsstring) (c : captures) :
  run no_flags n (star RDot) (s, c) = greedy_results not_terminator s c.
Proof.
  unfold star. cbn [run groups]. apply repeat_char_greedy.
  - intros st. reflexivity.
  - simpl. lia.
Qed.

Lemma no_line_terminator_forallb (s : jsstring) :
  forallb not_terminator s = true <-> no_line_terminator s.
Proof.
  unfold no_line_terminator, not_terminator. rewrite forallb_forall, Forall_forall.
  split; intros H x Hx; specialize (H x Hx).
  - now apply negb_true_iff.
  - now apply negb_true_iff.
Qed.

(** The terms of a pattern, followed by [$], reach the end of the text
    exactly on the texts the pattern accepts. *)
Lemma glob_run (n : nat) (p : jsstring) :
  forall s c st',
    In st' (run no_flags n (glob_body p) (s, c)) <->
    st' = ([], c) /\ glob_accepts p s.
Proof.
  induction p as [|x p IH]; intros s c st'.
  - change (glob_body []) with (RSeq REnd REmpty). rewrite in_run_seq. split.
    + intros [y [Hy Hst']]. cbn [run fst] in Hy, Hst'.
      destruct s as [|a s]; [|destruct Hy].
      destruct Hy as [<-|[]]. destruct Hst' as [<-|[]].
      split; [reflexivity|constructor].
    + intros [-> H]. inversion H; subst. exists ([], c). cbn [run fst]. simpl. auto.
  - change (glob_body (x :: p)) with (RSeq (glob_term x) (glob_body p)).
    rewrite in_run_seq. unfold glob_term. destruct (N.eqb x 42) eqn:E.
    + apply N.eqb_eq in E. subst x. split.
      * intros [[t c'] [Hy Hst']]. rewrite run_star_dot in Hy.
        apply in_greedy_results in Hy. destruct Hy as [-> [s1 [-> Hs1]]].
        apply IH in Hst'. destruct Hst' as [-> Hg]. split; [reflexivity|].
        constructor; [now apply no_line_terminator_forallb|exact Hg].
      * intros [-> H]. inversion H as [|p' s1 s2 Hs1 Hg|c0 p' s0 Hc Hg]; subst.
        -- exists (s2, c). split.
           ++ rewrite run_star_dot. apply in_greedy_results.
              split; [reflexivity|]. exists s1.
              split; [reflexivity|now apply no_line_terminator_forallb].
           ++ apply IH. auto.
        -- congruence.
    + apply N.eqb_neq in E. split.
      * intros [y [Hy Hst']]. cbn [run] in Hy. apply in_char_step in Hy.
        destruct Hy as [a [Hs [Ha Hc]]]. cbn [fst snd] in Hs, Hc.
        unfold canonicalize in Ha. cbn [ignoreCase no_flags] in Ha.
        apply N.eqb_eq in Ha. subst a. destruct y as [t c']. cbn [fst snd] in *.
        subst. apply IH in Hst'. destruct Hst' as [-> Hg].
        split; [reflexivity|]. constructor; assumption.
      * intros [-> H]. inversion H as [|p' s1 s2 Hs1 Hg|c0 p' s0 Hc Hg]; subst.
        -- congruence.
        -- exists (s0, c). split.
           ++ cbn [run]. unfold char_step, canonicalize.
              cbn [ignoreCase no_flags fst snd]. rewrite N.eqb_refl. now left.
           ++ apply IH. auto.
Qed.

Lemma search_from_eq (re : RegExp) (n : nat) (before_rev s : jsstring) :
  search_from re n before_rev s =
  match match_here re n s with
  | Some st' =>
    Some {| m_before := rev before_rev; m_text := consumed (s, []) st';
            m_groups := snd st'; m_after := fst st' |}
  | None =>
    match s with
    | [] => None
    | c :: t => search_from re n (c :: before_rev) t
    end
  end.
Proof. destruct s; reflexivity. Qed.

(** An expression that starts with [^] matches nowhere but at the start. *)
Lemma search_after_begin (r : regex) (n : nat) :
  forall s before_rev,
    length s < n ->
    search_from {| pattern := RSeq RBegin r; re_flags := no_flags |} n before_rev s
    = None.
Proof.
  induction s as [|x s IH]; intros before_rev Hn; rewrite search_from_eq;
    unfold match_here; cbn [pattern re_flags run fst];
    replace (Nat.eqb (length _) n) with false
      by (symmetry; apply Nat.eqb_neq; lia);
    cbn [flat_map hd_error]; [reflexivity|].
  apply IH. simpl in Hn. lia.
Qed.

(** The anchored expression of a pattern tests true exactly on the paths
    the pattern accepts, whole. *)
Lemma test_glob (p s : jsstring) :
  test {| pattern := RSeq RBegin (glob_body p); re_flags := no_flags |} s = true
  <-> glob_accepts p s.
Proof.
  unfold test, exec. rewrite search_from_eq. unfold match_here.
  cbn [pattern re_flags run fst]. rewrite Nat.eqb_refl. cbn [flat_map].
  rewrite app_nil_r.
  destruct (run no_flags (length s) (glob_body p) (s, [])) as [|st' l] eqn:E;
    cbn [hd_error].
  - assert (Hno : ~ glob_accepts p s).
    { intros Hg.
      assert (Hin : In ([], []) (run no_flags (length s) (glob_body p) (s, [])))
        by (apply glob_run; auto).
      rewrite E in Hin. destruct Hin. }
    split; [|intros Hg; contradiction].
    destruct s as [|x s]; [discriminate|].
    rewrite search_after_begin by (simpl; lia). discriminate.
  - split; [intros _|reflexivity].
    assert (Hin : In st' (run no_flags (length s) (glob_body p) (s, [])))
      by (rewrite E; now left).
    apply glob_run in Hin. tauto.
Qed.

(** *** An expression between the anchors *)





(** *** The matcher on a list of patterns *)


Section Patterns.

Variable compile : jsstring -> option RegExp.
Hypothesis compile_reads : constructor_reads compile.
Variable filePath : jsstring.


Lemma compile_rejected (source : jsstring) :
  RegExp_reading source = Rejected -> compile source = None.
Proof. intros H. pose proof (compile_reads source) as C. rewrite H in C. exact C. Qed.




Lemma matchPatterns_rejected (pattern : jsstring) (rest : list jsstring) :
  includes pattern (u "*") = true ->
  RegExp_reading (u "^" ++ regexPattern pattern ++ u "$") = Rejected ->
  matchPatterns compile filePath (pattern :: rest) = Throw (u "SyntaxError").
Proof.
  intros Hi Hr. unfold matchPatterns. cbn [some]. unfold matchPattern at 1.
  rewrite Hi, (compile_rejected _ Hr). reflexivity.
Qed.

End Patterns.


(** C4, a pattern that is no expression. The pattern made of an opening
    parenthesis and a star has a source whose group is never closed: the
    matcher throws, for every path. *)
Lemma unclosed_group_throws (filePath : jsstring) :
  forall compile, constructor_reads compile ->
    matchPatterns compile filePath [[40%N; 42%N]] = Throw (u "SyntaxError").
Proof.
  intros compile Hc. apply (matchPatterns_rejected compile Hc); vm_compute; reflexivity.
Qed.





End Glob.

(* ================================================================== *)
(** ** The built-ins on small inputs *)
(* ================================================================== *)

Module Checks.

Import Provider.
Import Reviewer.

Example split_cuts_level4_headers :
  Re.split (lines ["### A"; "#### B: c"]) re_section
  = [[]; u "A" ++ nl ++ u "#"; u "B: c"].
Proof. vm_compute. reflexivity. Qed.

Example json_fence_is_lazy :
  first_group (jsonMatch (lines ["```json"; "[1]"; "```"; "x"; "```"]))
  = Some (u "[1]").
Proof. vm_compute. reflexivity. Qed.

Example any_fence_takes_the_label :
  first_group (jsonMatch (u "```js {}```")) = Some (u "js {}").
Proof. vm_compute. reflexivity. Qed.

Example line_scan_reads_number_and_severity :
  scan_issues (u "12: [error] bad")
  = Normal [ {| line := Some 12%N; severity := u "error"; message := u "bad";
                suggestion := None; code := None |} ].
Proof. vm_compute. reflexivity. Qed.

Example marker_ignores_case :
  test re_marker (u "An ERROR here") = true /\ test re_marker (u "fine") = false.
Proof. split; vm_compute; reflexivity. Qed.

Example summary_from_label :
  extractSummary (lines ["Summary: all good"; ""; "details"]) = u "all good".
Proof. vm_compute. reflexivity. Qed.

Example json_last_duplicate_wins :
  option_map (fun v => property v (u "a")) (JSON.parse (uq "{'a':1,'a':[true,null]}"))
  = Some (Normal (Some (JArr [JBool true; JNull]))).
Proof. vm_compute. reflexivity. Qed.

Example json_rejects :
  JSON.parse (uq "{'a':1,}") = None /\ JSON.parse (u "01") = None
  /\ JSON.parse [] = None /\ JSON.parse (u "nul") = None.
Proof. repeat split; vm_compute; reflexivity. Qed.

Example tiny_number_is_falsy :
  option_map JSON.truthy (JSON.parse (u "1e-400")) = Some false
  /\ option_map JSON.truthy (JSON.parse (u "5e-324")) = Some true.
Proof. split; vm_compute; reflexivity. Qed.

Example replace_first_occurrence_only :
  JS.replace (u "a {{x}} b {{x}}") (u "{{x}}") (u "v") = u "a v b {{x}}".
Proof. vm_compute. reflexivity. Qed.

Example replace_expands_dollar_patterns :
  JS.replace (u "a {{x}} b") (u "{{x}}") (u "[$&|$$|$1]") = u "a [{{x}}|$|$1] b".
Proof. vm_compute. reflexivity. Qed.

Example percentages_round_half_up :
  percentage 1 3 = u "33" /\ percentage 2 3 = u "67" /\ percentage 1 8 = u "13"
  /\ percentage 0 0 = u "0".
Proof. repeat split; vm_compute; reflexivity. Qed.

Example default_ignore_patterns :
  matchPatterns new_RegExp (u "pnpm-lock.yaml") [u "*.lock"; u "pnpm-lock.yaml"]
  = Normal true
  /\ matchPatterns new_RegExp (u "dist/app.min.js") [u "*.lock"; u "*.min.js"]
     = Normal true
  /\ matchPatterns new_RegExp (u "src/app.js") [u "*.lock"; u "*.min.js"]
     = Normal false.
Proof. repeat split; vm_compute; reflexivity. Qed.

(** Patterns with other syntax characters of expressions: a group with an
    alternation, a class, braces that are no quantifier, a quantified
    letter. *)
Example patterns_with_syntax :
  matchPatterns new_RegExp (u "src/b/x.ts") [u "src/(a|b)/*.ts"] = Normal true
  /\ matchPatterns new_RegExp (u "src/c/x.ts") [u "src/(a|b)/*.ts"] = Normal false
  /\ matchPatterns new_RegExp (u "a.ts") [u "*.[jt]s"] = Normal true
  /\ matchPatterns new_RegExp (u "a.js") [u "*.{js,ts}"] = Normal false
  /\ matchPatterns new_RegExp (u "a.{js,ts}") [u "*.{js,ts}"] = Normal true
  /\ matchPatterns new_RegExp (u "aaab") [u "a+*"] = Normal true
  /\ matchPatterns new_RegExp (u "x") [u "+*"] = Throw (u "SyntaxError").
Proof. repeat split; vm_compute; reflexivity. Qed.

Example numbers_are_doubles :
  parseInt_digits (u "9007199254740993") = 9007199254740992%N
  /\ String_of_Number (parseInt_digits (u "1000000000000000000000")) = u "1e+21"
  /\ String_of_Number (2 ^ 70)%N = u "1.1805916207174113e+21"
  /\ String_of_Number (parseInt_digits (repeat 57%N 400)) = u "Infinity".
Proof. repeat split; vm_compute; reflexivity. Qed.

Example inherited_severity :
  formatIssueComment {| line := None; severity := u "toString"; message := u "m";
                        suggestion := None; code := None |}
  = u "function toString() { [native code] } **m**" ++ nl ++ nl
  /\ formatIssueComment {| line := None; severity := u "critical"; message := u "m";
                           suggestion := None; code := None |}
     = u "undefined **m**" ++ nl ++ nl.
Proof. repeat split; vm_compute; reflexivity. Qed.

End Checks.

(* ================================================================== *)
(** ** Configuration: what the merge keeps *)
(* ================================================================== *)

Module Settings.

Import Config.

Lemma mergeConfig_review (d : AiReviewerConfig)
    (fileConfig envConfig cliConfig : PartialConfig) :
  review (mergeConfig d fileConfig envConfig cliConfig)
  = let r1 := match p_review fileConfig with
              | Some r => apply_file_review (review d) r
              | None => review d
              end in
    let r2 := match p_review envConfig with
              | Some r => apply_review r1 r
              | None => r1
              end in
    match p_review cliConfig with
    | Some r => apply_review r2 r
    | None => r2
    end.
Proof. reflexivity. Qed.

Lemma mergeConfig_ai (d : AiReviewerConfig)
    (fileConfig envConfig cliConfig : PartialConfig) :
  ai (mergeConfig d fileConfig envConfig cliConfig)
  = let a1 := match p_ai fileConfig with
              | Some a => spread_ai (ai d) a
              | None => ai d
              end in
    let a2 := match p_ai envConfig with
              | Some a => spread_ai a1 a
              | None => a1
              end in
    match p_ai cliConfig with
    | Some a => spread_ai a2 a
    | None => a2
    end.
Proof. reflexivity. Qed.

(** The list a review configuration ends with: the list it starts with,
    then what the file, the environment and the command line add. *)
Lemma merged_extend (f : ReviewSettings -> option (list jsstring))
    (l : list jsstring) (d : AiReviewerConfig)
    (fileConfig envConfig cliConfig : PartialConfig) :
  (forall a b, f (apply_file_review a b) = extend (f a) (f b)) ->
  (forall a b, f (apply_review a b) = extend (f a) (f b)) ->
  f (review d) = Some l ->
  f (review (mergeConfig d fileConfig envConfig cliConfig))
  = Some (l ++ given f fileConfig ++ given f envConfig ++ given f cliConfig).
Proof.
  intros H1 H2 Hd. rewrite mergeConfig_review. cbv zeta. unfold given.
  destruct (p_review fileConfig) as [a|], (p_review envConfig) as [b|],
    (p_review cliConfig) as [c|];
    rewrite ?H2, ?H1, Hd;
    try destruct (f a); try destruct (f b); try destruct (f c);
    cbn [extend app]; rewrite ?app_nil_r, <- ?app_assoc; reflexivity.
Qed.

(** The patterns of the first of command line, environment and file that
    has them. *)
Lemma merged_spread (f : ReviewSettings -> option (list jsstring))
    (d : AiReviewerConfig) (fileConfig envConfig cliConfig : PartialConfig) :
  (forall a b, f (apply_file_review a b) = spread (f a) (f b)) ->
  (forall a b, f (apply_review a b) = spread (f a) (f b)) ->
  f (review d) = None ->
  f (review (mergeConfig d fileConfig envConfig cliConfig))
  = first_given f [cliConfig; envConfig; fileConfig].
Proof.
  intros H1 H2 Hd. rewrite mergeConfig_review. cbv zeta. cbn [first_given].
  destruct (p_review fileConfig) as [a|], (p_review envConfig) as [b|],
    (p_review cliConfig) as [c|];
    rewrite ?H2, ?H1, Hd;
    try destruct (f c); try destruct (f b); try destruct (f a);
    reflexivity.
Qed.

Lemma merged_ignoreFiles (fileConfig envConfig cliConfig : PartialConfig) :
  ignoreFiles (review (mergeConfig defaultConfig fileConfig envConfig cliConfig))
  = Some (default_ignoreFiles ++ given ignoreFiles fileConfig
            ++ given ignoreFiles envConfig ++ given ignoreFiles cliConfig).
Proof. apply merged_extend; reflexivity. Qed.

Lemma merged_ignorePaths (fileConfig envConfig cliConfig : PartialConfig) :
  ignorePaths (review (mergeConfig defaultConfig fileConfig envConfig cliConfig))
  = Some (default_ignorePaths ++ given ignorePaths fileConfig
            ++ given ignorePaths envConfig ++ given ignorePaths cliConfig).
Proof. apply merged_extend; reflexivity. Qed.

(** X2. Whatever the configuration file, the environment and the command
    line hold, the merged ignore lists are the default list followed by
    what the file, then the environment, then the command line give: no
    source removes a default entry. The include and exclude patterns are
    those of the first of command line, environment and file that has
    them. *)
Theorem mergeConfig_lists (fileConfig envConfig cliConfig : PartialConfig) :
  let merged := review (mergeConfig defaultConfig fileConfig envConfig cliConfig) in
  ignoreFiles merged
  = Some (default_ignoreFiles ++ given ignoreFiles fileConfig
            ++ given ignoreFiles envConfig ++ given ignoreFiles cliConfig)
  /\ ignorePaths merged
     = Some (default_ignorePaths ++ given ignorePaths fileConfig
               ++ given ignorePaths envConfig ++ given ignorePaths cliConfig)
  /\ includePatterns merged
     = first_given includePatterns [cliConfig; envConfig; fileConfig]
  /\ excludePatterns merged
     = first_given excludePatterns [cliConfig; envConfig; fileConfig].
Proof.
  cbv zeta. split; [apply merged_ignoreFiles|]. split; [apply merged_ignorePaths|].
  split; apply merged_spread; reflexivity.
Qed.

(** X3. When the command line gives no [ai] settings (no command does),
    the model of the loaded configuration is the environment variable
    [AI_REVIEWER_MODEL] if it is set and not empty, and the default model
    otherwise: [loadEnvConfig] always fills the model in, so the model of
    the configuration file is overridden in every case. *)
Theorem loadConfig_model (parseFloat parseInt : jsstring -> PrimFloat.float)
    (env : jsstring -> option jsstring) (fileConfig cliConfig : PartialConfig) :
  p_ai cliConfig = None ->
  model (ai (loadConfig parseFloat parseInt env fileConfig cliConfig))
  = Some (match env (u "AI_REVIEWER_MODEL") with
          | Some ((_ :: _) as m) => m
          | _ => default_model
          end).
Proof.
  intros H. unfold loadConfig. rewrite mergeConfig_ai. cbv zeta. rewrite H.
  reflexivity.
Qed.

Lemma loadConfig_model_witness :
  model (ai (loadConfig (fun _ => PrimFloat.zero) (fun _ => PrimFloat.zero)
                        no_env example_fileConfig (cli_platform "local")))
  = Some (match no_env (u "AI_REVIEWER_MODEL") with
          | Some ((_ :: _) as m) => m
          | _ => default_model
          end).
Proof.
  exact (loadConfig_model (fun _ => PrimFloat.zero) (fun _ => PrimFloat.zero)
                          no_env example_fileConfig (cli_platform "local")
                          eq_refl).
Defined.

(** *** The default ignore lists in the filter *)

Lemma includes_star (p : jsstring) :
  includes p (u "*") = false -> Forall (fun c => c <> 42%N) p.
Proof.
  change (u "*") with [42%N].
  induction p as [|c p IH]; intros H; constructor;
    cbn [includes startsWith] in H; apply orb_false_elim in H;
    destruct H as [H1 H2].
  - rewrite ReFacts.startsWith_nil, andb_true_r in H1.
    apply N.eqb_neq. exact H1.
  - apply IH. exact H2.
Qed.

(** A pattern without a star accepts itself only. *)
Lemma glob_accepts_plain (p s : jsstring) :
  Forall (fun c => c <> 42%N) p ->
  (Reviewer.glob_accepts p s <-> s = p).
Proof.
  intros Hp. split.
  - intros H. induction H as [|p s1 s2 _ _ _|c p s Hc _ IH].
    + reflexivity.
    + inversion Hp as [|? ? Hx _]. now elim Hx.
    + inversion Hp as [|? ? _ Hp']. f_equal. apply IH. exact Hp'.
  - intros ->. induction Hp as [|c p Hc _ IH]; constructor; assumption.
Qed.

(** A glob-like pattern gets its answer from the matcher, and the answer
    is whether the pattern accepts the path. *)
Lemma matchPattern_glob (compile : jsstring -> option RegExp)
    (path p : jsstring) :
  compiles_globs compile ->
  Reviewer.glob_pattern p = true ->
  exists b, Reviewer.matchPattern compile path p = Normal b
            /\ (b = true <-> Reviewer.glob_accepts p path).
Proof.
  intros Hc Hp. unfold Reviewer.matchPattern.
  destruct (includes p (u "*")) eqn:E.
  - rewrite (Hc p Hp), (Glob.new_RegExp_glob p Hp).
    eexists. split; [reflexivity|]. apply Glob.test_glob.
  - exists (JS.eqb path p). split; [reflexivity|].
    rewrite ReFacts.eqb_eq. symmetry. apply glob_accepts_plain.
    apply includes_star. exact E.
Qed.

(** [some] stops with [true] at a glob-like pattern that accepts the path,
    when the patterns before it are glob-like too. *)
Lemma some_glob (compile : jsstring -> option RegExp) (path pattern : jsstring)
    (pats rest : list jsstring) :
  compiles_globs compile ->
  Forall (fun p => Reviewer.glob_pattern p = true) pats ->
  In pattern pats ->
  Reviewer.glob_accepts pattern path ->
  Reviewer.some (Reviewer.matchPattern compile path) (pats ++ rest) = Normal true.
Proof.
  intros Hc Hall Hin Ha. induction Hall as [|p pats Hp _ IH]; [destruct Hin|].
  cbn [app Reviewer.some].
  destruct (matchPattern_glob compile path p Hc Hp) as [b [-> Hb]].
  cbn [bind]. destruct b; [reflexivity|].
  destruct Hin as [->|Hin]; [|exact (IH Hin)].
  apply Hb in Ha. discriminate.
Qed.

Lemma default_ignoreFiles_glob :
  Forall (fun p => Reviewer.glob_pattern p = true) default_ignoreFiles.
Proof. repeat constructor. Qed.

(** A file a default ignore pattern accepts is filtered out. *)
Lemma keepDiff_default_file (compile : jsstring -> option RegExp)
    (fileConfig envConfig cliConfig : PartialConfig) (d : CodeDiff)
    (pattern : jsstring) :
  compiles_globs compile ->
  In pattern default_ignoreFiles ->
  Reviewer.glob_accepts pattern (newPath d) ->
  Reviewer.keepDiff compile
    (review_config (mergeConfig defaultConfig fileConfig envConfig cliConfig)) d
  = Normal false.
Proof.
  intros Hc Hin Ha. unfold Reviewer.keepDiff, review_config.
  cbn [Reviewer.ignoreFiles]. rewrite merged_ignoreFiles.
  unfold Reviewer.matchPatterns.
  rewrite (some_glob compile (newPath d) pattern _ _ Hc
             default_ignoreFiles_glob Hin Ha).
  reflexivity.
Qed.

(** A file under a default ignore path is never kept. *)
Lemma keepDiff_default_path (compile : jsstring -> option RegExp)
    (fileConfig envConfig cliConfig : PartialConfig) (d : CodeDiff)
    (prefix : jsstring) :
  In prefix default_ignorePaths ->
  startsWith (newPath d) prefix = true ->
  Reviewer.keepDiff compile
    (review_config (mergeConfig defaultConfig fileConfig envConfig cliConfig)) d
  <> Normal true.
Proof.
  intros Hin Hs. unfold Reviewer.keepDiff, review_config.
  cbn [Reviewer.ignoreFiles Reviewer.ignorePaths].
  rewrite merged_ignoreFiles, merged_ignorePaths.
  match goal with
  | |- context [Reviewer.matchPatterns ?c ?p ?l] =>
    destruct (Reviewer.matchPatterns c p l) as [[|]| |]
  end; cbn [bind]; try discriminate.
  rewrite existsb_app.
  assert (E : existsb (fun path => startsWith (newPath d) path) default_ignorePaths
              = true).
  { apply existsb_exists. exists prefix. split; assumption. }
  rewrite E. discriminate.
Qed.

(** X4. Whatever the configuration file, the environment and the command
    line hold, and whatever diffs the platform gives, a diff that
    [filterDiffs] keeps under the merged configuration has a path that no
    default ignore pattern accepts and that starts with no default ignore
    path: lock files, minified files and what lies under [node_modules/],
    [dist/], [build/] and [.git/] are never reviewed. *)
Theorem default_ignores_hold (compile : jsstring -> option RegExp)
    (fileConfig envConfig cliConfig : PartialConfig)
    (diffs out : list CodeDiff) (d : CodeDiff) :
  compiles_globs compile ->
  Reviewer.filterDiffs compile
    (review_config (mergeConfig defaultConfig fileConfig envConfig cliConfig))
    diffs = Normal out ->
  In d out ->
  (forall pattern, In pattern default_ignoreFiles ->
                   ~ Reviewer.glob_accepts pattern (newPath d))
  /\ (forall prefix, In prefix default_ignorePaths ->
                     startsWith (newPath d) prefix = false).
Proof.
  intros Hc Hf Hd. unfold Reviewer.filterDiffs in Hf.
  apply Core.filter_c_spec in Hf. destruct Hf as [_ ->].
  apply filter_In in Hd. destruct Hd as [_ Hk].
  split.
  - intros pattern Hin Ha.
    rewrite (keepDiff_default_file compile _ _ _ d pattern Hc Hin Ha) in Hk.
    discriminate.
  - intros prefix Hin. destruct (startsWith (newPath d) prefix) eqn:E; [|reflexivity].
    pose proof (keepDiff_default_path compile fileConfig envConfig cliConfig
                  d prefix Hin E) as Hn.
    destruct (Reviewer.keepDiff compile _ d) as [[|]| |];
      try discriminate. now elim Hn.
Qed.

(** The diffs of a change that touches a source file, a lock file and a
    vendored file. *)
Lemma example_filter :
  Reviewer.filterDiffs Reviewer.new_RegExp
    (review_config (mergeConfig defaultConfig example_fileConfig no_config no_config))
    [diff_of "src/a.ts"; diff_of "yarn.lock"; diff_of "node_modules/x/index.js"]
  = Normal [diff_of "src/a.ts"].
Proof. vm_compute. reflexivity. Qed.

Lemma default_ignores_hold_witness :
  (forall pattern, In pattern default_ignoreFiles ->
                   ~ Reviewer.glob_accepts pattern (newPath (diff_of "src/a.ts")))
  /\ (forall prefix, In prefix default_ignorePaths ->
                     startsWith (newPath (diff_of "src/a.ts")) prefix = false).
Proof.
  exact (default_ignores_hold Reviewer.new_RegExp example_fileConfig no_config
           no_config
           [diff_of "src/a.ts"; diff_of "yarn.lock"; diff_of "node_modules/x/index.js"]
           [diff_of "src/a.ts"] (diff_of "src/a.ts")
           (fun p _ => eq_refl) example_filter (or_introl eq_refl)).
Defined.

End Settings.

(* ================================================================== *)
(** ** Languages and the provider's client *)
(* ================================================================== *)

Module Languages.

Import Language.

Lemma split_from_dot_nonempty (s acc : jsstring) :
  JS.split_from [46%N] 0 acc s <> [].
Proof.
  revert acc. induction s as [|c t IH]; intros acc; cbn [JS.split_from];
    [discriminate|].
  destruct (startsWith (c :: t) [46%N]); [discriminate|apply IH].
Qed.

Lemma last_cons {A : Type} (x : A) (l : list A) (d : A) :
  l <> [] -> last (x :: l) d = last l d.
Proof. destruct l; [congruence|reflexivity]. Qed.

(** What follows the last dot is the last piece, whatever comes before. *)
Lemma split_from_dot_last (p e acc : jsstring) :
  last (JS.split_from [46%N] 0 acc (p ++ 46%N :: e)) []
  = last (JS.split_from [46%N] 0 [] e) [].
Proof.
  revert acc. induction p as [|c p IH]; intros acc.
  - cbn [app JS.split_from startsWith]. rewrite N.eqb_refl.
    rewrite ReFacts.startsWith_nil. cbn [andb length pred].
    apply last_cons. apply split_from_dot_nonempty.
  - cbn [app JS.split_from startsWith].
    rewrite ReFacts.startsWith_nil, andb_true_r.
    destruct (c =? 46)%N.
    + cbn [length pred]. rewrite last_cons by apply split_from_dot_nonempty.
      apply IH.
    + apply IH.
Qed.

(** A text without a dot is one piece. *)
Lemma split_from_no_dot (e acc : jsstring) :
  Forall (fun c => c <> 46%N) e ->
  JS.split_from [46%N] 0 acc e = [rev acc ++ e].
Proof.
  intros H. revert acc. induction H as [|c e Hc _ IH]; intros acc.
  - cbn [JS.split_from]. rewrite app_nil_r. reflexivity.
  - cbn [JS.split_from startsWith].
    apply N.eqb_neq in Hc. rewrite Hc. cbn [andb].
    rewrite IH. cbn [rev]. rewrite <- app_assoc. reflexivity.
Qed.

Lemma extension_last (p e : jsstring) :
  extension (p ++ u "." ++ e) = extension e.
Proof.
  unfold extension, JS.split. change (u ".") with [46%N].
  apply split_from_dot_last.
Qed.

Lemma extension_plain (e : jsstring) :
  Forall (fun c => c <> 46%N) e -> extension e = e.
Proof.
  intros H. unfold extension, JS.split. change (u ".") with [46%N].
  rewrite (split_from_no_dot e [] H). reflexivity.
Qed.

(** X5. Only what follows the last dot of a path decides its language:
    for an extension [e] without a dot, the path [p.e] and the bare name
    [e] are both looked up as [e] in lower case, whatever the directories
    and the base name [p] are, and an empty extension gives [undefined]. *)
Theorem detectLanguage_extension (p e : jsstring) :
  ascii_text e ->
  Forall (fun c => c <> 46%N) e ->
  detectLanguage (p ++ u "." ++ e)
  = (if JS.truthy e then get languageMap (toLowerCase e) else None)
  /\ detectLanguage e = detectLanguage (p ++ u "." ++ e).
Proof.
  intros _ He. unfold detectLanguage. rewrite extension_last.
  rewrite (extension_plain e He). split; [|reflexivity].
  destruct e; reflexivity.
Qed.

Lemma detectLanguage_extension_witness :
  detectLanguage (u "src/App" ++ u "." ++ u "TS")
  = (if JS.truthy (u "TS") then get languageMap (toLowerCase (u "TS")) else None)
  /\ detectLanguage (u "TS") = detectLanguage (u "src/App" ++ u "." ++ u "TS").
Proof.
  apply (detectLanguage_extension (u "src/App") (u "TS")).
  - repeat constructor.
  - repeat constructor; discriminate.
Defined.

(** The texts of the language table. *)
Lemma own_in (table : list (jsstring * jsstring)) (key v : jsstring) :
  own table key = Some v -> In v (map snd table).
Proof.
  induction table as [|[k w] rest IH]; cbn [own]; [discriminate|].
  destruct (JS.eqb k key).
  - intros [= ->]. now left.
  - intros H. right. exact (IH H).
Qed.

Lemma detected_in_table (path lang : jsstring) :
  detectLanguage path = Some (Text lang) -> In lang (map snd languageMap).
Proof.
  unfold detectLanguage, get.
  destruct (JS.truthy _); [|discriminate].
  destruct (own languageMap _) as [v|] eqn:E.
  - intros [= <-]. exact (own_in _ _ _ E).
  - destruct (existsb _ _); discriminate.
Qed.

(** Every language of the table has a display name, and none is empty. *)
Lemma languages_displayed :
  forallb (fun lang =>
             match own displayLanguageMap lang with
             | Some d => JS.truthy d && JS.truthy lang
             | None => false
             end)
          (map snd languageMap) = true.
Proof. vm_compute. reflexivity. Qed.

(** X6. Every language [detectLanguage] finds in its table has a display
    name: for such a path the provider's [detectLanguage] answers with the
    entry of [displayLanguageMap], never with the identifier itself (the
    fallback of [getDisplayLanguage] is not reached). *)
Theorem detected_language_displayed (path lang : jsstring) :
  ascii_text (extension path) ->
  detectLanguage path = Some (Text lang) ->
  exists d, own displayLanguageMap lang = Some d
            /\ provider_detectLanguage path = Text d.
Proof.
  intros _ H. pose proof (detected_in_table path lang H) as Hin.
  pose proof languages_displayed as Hall. rewrite forallb_forall in Hall.
  specialize (Hall lang Hin).
  destruct (own displayLanguageMap lang) as [d|] eqn:E; [|discriminate].
  apply andb_prop in Hall. destruct Hall as [Hd Hl].
  exists d. split; [reflexivity|].
  unfold provider_detectLanguage. rewrite H. cbn [truthy]. rewrite Hl.
  unfold getDisplayLanguage, get. rewrite E. cbn [truthy]. rewrite Hd.
  reflexivity.
Qed.

Lemma detected_language_displayed_witness :
  exists d, own displayLanguageMap (u "typescript") = Some d
            /\ provider_detectLanguage (u "src/App.TS") = Text d.
Proof.
  apply (detected_language_displayed (u "src/App.TS") (u "typescript")).
  - repeat constructor.
  - vm_compute. reflexivity.
Defined.

(** X7. For a diff as the platforms build it, whose [language] is what
    [detectLanguage] gives for its path, the language the review prompt
    names is that identifier, or the text for an unknown language when
    there is none: the provider's own detection cannot find what the
    platform's did not, so no display name reaches the prompt. *)
Theorem review_language_platform (diff : CodeDiff) :
  ascii_text (extension (newPath diff)) ->
  platform_language diff ->
  review_language diff
  = Text (match language diff with
          | Some l => l
          | None => u "未知"
          end).
Proof.
  intros _ H. unfold platform_language in H. unfold review_language.
  destruct (detectLanguage (newPath diff)) as [[l|name]|] eqn:E.
  - rewrite H.
    pose proof (detected_in_table _ _ E) as Hin.
    pose proof languages_displayed as Hall. rewrite forallb_forall in Hall.
    specialize (Hall l Hin).
    destruct (own displayLanguageMap l); [|discriminate].
    apply andb_prop in Hall. destruct Hall as [_ Hl].
    destruct l; [discriminate|reflexivity].
  - destruct H.
  - rewrite H. unfold provider_detectLanguage. rewrite E. reflexivity.
Qed.

Lemma review_language_platform_witness :
  review_language example_ts_diff
  = Text (match language example_ts_diff with
          | Some l => l
          | None => u "未知"
          end).
Proof.
  apply (review_language_platform example_ts_diff).
  - repeat constructor.
  - vm_compute. reflexivity.
Defined.

End Languages.

(* ================================================================== *)
(** ** The provider's client options and prompts *)
(* ================================================================== *)

Module ClientFacts.

Import Client.

(** *** [/\/$/] *)

Lemma trailing_slash_here (n : nat) (s : jsstring) :
  match_here re_trailing_slash n s
  = match s with
    | [c] => if (47 =? c)%N then Some ([], []) else None
    | _ => None
    end.
Proof.
  unfold match_here, re_trailing_slash. cbn [pattern re_flags run].
  unfold char_step, canonicalize. cbn [ignoreCase no_flags fst snd].
  destruct s as [|c [|d t]]; [reflexivity| |].
  - destruct (47 =? c)%N; reflexivity.
  - destruct (47 =? c)%N; reflexivity.
Qed.

Lemma endsWith_cons (x y : cu) (t suffix : jsstring) :
  suffix <> [] ->
  length suffix <= S (length t) ->
  endsWith (x :: y :: t) suffix = endsWith (y :: t) suffix.
Proof.
  intros Hne Hlen. unfold endsWith.
  change (rev (x :: y :: t)) with (rev (y :: t) ++ [x]).
  assert (L : length (rev suffix) <= length (rev (y :: t))).
  { rewrite !length_rev. cbn [length]. exact Hlen. }
  revert L. generalize (rev (y :: t)) as a. generalize (rev suffix) as b.
  induction b as [|p b IH]; intros a L; [now rewrite !ReFacts.startsWith_nil|].
  destruct a as [|c a]; [cbn [length] in L; lia|].
  cbn [app startsWith]. f_equal. apply IH. cbn [length] in L. lia.
Qed.

Lemma search_trailing_slash (n : nat) (s before_rev : jsstring) :
  search_from re_trailing_slash n before_rev s
  = if endsWith s [47%N]
    then Some {| m_before := rev before_rev ++ removelast s;
                 m_text := [47%N]; m_groups := []; m_after := [] |}
    else None.
Proof.
  revert before_rev. induction s as [|c t IH]; intros before_rev.
  - cbn [search_from]. rewrite trailing_slash_here. reflexivity.
  - cbn [search_from]. rewrite trailing_slash_here.
    destruct t as [|d t].
    + unfold endsWith. cbn [rev app startsWith].
      rewrite (N.eqb_sym 47 c). destruct (c =? 47)%N eqn:E.
      * cbn [andb removelast]. rewrite app_nil_r.
        apply N.eqb_eq in E. subst c. reflexivity.
      * cbn [andb]. rewrite IH. reflexivity.
    + rewrite IH. rewrite endsWith_cons by (cbn [length]; first [discriminate|lia]).
      destruct (endsWith (d :: t) [47%N]); [|reflexivity].
      cbn [rev removelast]. rewrite <- app_assoc. reflexivity.
Qed.

(** Replacing [/\/$/] by the empty text takes one trailing slash off. *)
Lemma replace_trailing_slash (s : jsstring) :
  replace_regexp s re_trailing_slash [] = strip_slash s.
Proof.
  unfold replace_regexp, exec, strip_slash. rewrite search_trailing_slash.
  destruct (endsWith s [47%N]) eqn:E.
  - change (u "/") with [47%N]. rewrite E.
    cbn [m_before m_text m_after rev app getSubstitution].
    rewrite app_nil_r. reflexivity.
  - change (u "/") with [47%N]. rewrite E. reflexivity.
Qed.

Lemma endsWith_app (a suffix : jsstring) : endsWith (a ++ suffix) suffix = true.
Proof.
  unfold endsWith. rewrite rev_app_distr.
  generalize (rev suffix) as b. generalize (rev a) as c.
  intros c b. induction b as [|x b IH]; [apply ReFacts.startsWith_nil|].
  cbn [app startsWith]. rewrite N.eqb_refl. exact IH.
Qed.

Lemma endsWith_last (a suffix : jsstring) (x y : cu) :
  x <> y -> endsWith (a ++ [x]) (suffix ++ [y]) = false.
Proof.
  intros H. unfold endsWith. rewrite !rev_app_distr. cbn [rev app startsWith].
  apply N.eqb_neq in H. rewrite H. reflexivity.
Qed.

Lemma strip_slash_app (a : jsstring) : strip_slash (a ++ u "/") = a.
Proof.
  unfold strip_slash. rewrite endsWith_app. change (u "/") with [47%N].
  apply removelast_last.
Qed.

(** X8. The address of an OpenRouter client: it always ends with
    [/api/v1]; normalising it again changes nothing; an address that does
    not end with [/api/v1] loses one trailing slash, if it has one, and
    gets [/api/v1] appended. So an address that ends with [/api/v1/], with
    the slash, comes out with [/api/v1] twice. *)
Theorem openRouter_baseURL_normal (b : jsstring) :
  endsWith (openRouter_baseURL b) (u "/api/v1") = true
  /\ openRouter_baseURL (openRouter_baseURL b) = openRouter_baseURL b
  /\ (endsWith b (u "/api/v1") = false ->
      openRouter_baseURL b = strip_slash b ++ u "/api/v1")
  /\ openRouter_baseURL (b ++ u "/api/v1/") = b ++ u "/api/v1/api/v1".
Proof.
  assert (E : endsWith (openRouter_baseURL b) (u "/api/v1") = true).
  { unfold openRouter_baseURL.
    destruct (endsWith b (u "/api/v1")) eqn:Eb; cbn [negb];
      [exact Eb|apply endsWith_app]. }
  split; [exact E|]. split; [|split].
  - unfold openRouter_baseURL at 1. rewrite E. reflexivity.
  - intros Eb. unfold openRouter_baseURL. rewrite Eb. cbn [negb].
    rewrite replace_trailing_slash. reflexivity.
  - unfold openRouter_baseURL.
    assert (Ed : endsWith (b ++ u "/api/v1/") (u "/api/v1") = false).
    { change (u "/api/v1/") with (u "/api/v1" ++ [47%N]).
      change (u "/api/v1") with (u "/api/v" ++ [49%N]) at 2.
      rewrite app_assoc. apply endsWith_last. discriminate. }
    rewrite Ed. cbn [negb]. rewrite replace_trailing_slash.
    change (u "/api/v1/") with (u "/api/v1" ++ u "/").
    rewrite app_assoc, strip_slash_app, <- app_assoc. reflexivity.
Qed.

(** In a [CodeReviewer] the provider is built from [config.ai], which
    has no [review] member: whatever prompts the configuration holds under
    [review.prompts], the provider builds the built-in review prompt and
    the built-in summary prompt, and its system prompt is the built-in
    text of the call. *)
Lemma configured_prompts_unused (config : Config.AiReviewerConfig)
    (diff : CodeDiff) (language fallback : jsstring)
    (results : list ReviewResult) :
  reviewPrompt (ai_provider_config config) diff language
  = Provider.buildReviewPrompt None diff language
  /\ summaryPrompt (ai_provider_config config) results
     = Provider.buildSummaryPrompt None results
  /\ systemPrompt (ai_provider_config config) fallback = fallback.
Proof. repeat split. Qed.

End ClientFacts.

(* ================================================================== *)
(** ** The response parser and the counts: further properties *)
(* ================================================================== *)

Module ParserMore.

Import Provider.
Import ParserFacts.
Import Shapes.

(** *** [trim] *)

Lemma dropWhile_clean (s : jsstring) : clean_head (dropWhile is_space s).
Proof.
  induction s as [|c t IH]; cbn [dropWhile]; [exact I|].
  destruct (is_space c) eqn:E; [exact IH|exact E].
Qed.

Lemma dropWhile_id (s : jsstring) : clean_head s -> dropWhile is_space s = s.
Proof.
  destruct s as [|c t]; [reflexivity|]. cbn [clean_head dropWhile].
  intros ->. reflexivity.
Qed.

Lemma dropWhile_suffix (s : jsstring) :
  exists pre, s = pre ++ dropWhile is_space s.
Proof.
  induction s as [|c t [pre IH]]; [now exists []|]. cbn [dropWhile].
  destruct (is_space c).
  - exists (c :: pre). cbn [app]. f_equal. exact IH.
  - now exists [].
Qed.

Lemma trimEnd_clean (s : jsstring) : clean_head s -> clean_head (trimEnd s).
Proof.
  intros H. unfold trimEnd.
  destruct (dropWhile_suffix (rev s)) as [pre E].
  apply (f_equal (@rev cu)) in E. rewrite rev_involutive, rev_app_distr in E.
  destruct (rev (dropWhile is_space (rev s))) as [|c t]; [exact I|].
  rewrite E in H. exact H.
Qed.

Lemma trim_idempotent (s : jsstring) : trim (trim s) = trim s.
Proof.
  unfold trim at 1.
  assert (H : clean_head (trim s)).
  { unfold trim. apply trimEnd_clean. apply dropWhile_clean. }
  unfold trimStart. rewrite (dropWhile_id _ H).
  unfold trim, trimEnd. rewrite rev_involutive.
  rewrite (dropWhile_id _ (dropWhile_clean _)). reflexivity.
Qed.

(** X9. The summary [extractSummary] returns is trimmed, whatever the
    text and whichever of its four ways finds it: trimming it again
    changes nothing. *)
Theorem extractSummary_trimmed (content : jsstring) :
  trim (extractSummary content) = extractSummary content.
Proof.
  unfold extractSummary.
  destruct (first_group (exec re_overall content)); [apply trim_idempotent|].
  destruct (first_group (exec re_summary content)); [apply trim_idempotent|].
  destruct (_ && _); apply trim_idempotent.
Qed.

(** *** The handler of the outer [try] *)

Lemma scan_issues_plain (content : jsstring) :
  exists l, scan_issues content = Normal l /\ Forall text_issue l.
Proof.
  destruct (scan_issues_returns content) as [l [E _]].
  exists l. split; [exact E|].
  unfold scan_issues in E. destruct (exec_loop problemRegex content) as [ms|];
    [|discriminate].
  injection E as <-. apply Forall_map. apply Forall_forall.
  intros m _. left. reflexivity.
Qed.

Lemma text_strategy_plain (content filePath : jsstring) :
  exists l, text_strategy content filePath =
              Normal {| rv_file := filePath; rv_issues := map Built l;
                        rv_summary := JStr (extractSummary content) |}
            /\ Forall text_issue l.
Proof.
  unfold text_strategy. rewrite section_pass_empty.
  destruct (scan_issues_plain content) as [l [-> Hl]]. cbn [bind].
  destruct l as [|i l].
  - destruct (JS.truthy (trim content)).
    + eexists. split; [reflexivity|]. constructor; [|constructor].
      right. reflexivity.
    + exists []. split; [reflexivity|constructor].
  - exists (i :: l). split; [reflexivity|exact Hl].
Qed.

Lemma error_info_differ : u "error" <> u "info".
Proof. vm_compute. discriminate. Qed.

(** X10. The error handler of [parseReviewResponse] is never entered:
    the body of its [try] returns for every text. What it returns is the
    model's own JSON passed on or a result of the text parsing, and the
    text parsing never builds the result of that handler (one issue of
    severity error whose suggestion is the error text): a result that
    reads like the handler's can only come from the model's JSON. *)
Theorem error_result_unreachable (content filePath : jsstring) :
  parseReviewResponse content filePath = parse_body content filePath
  /\ exists r, parse_body content filePath = Normal r
               /\ (passes_model_json content r
                   \/ (json_strategy content filePath = Normal None
                       /\ forall detail, r <> error_result filePath detail)).
Proof.
  assert (H : exists r, parse_body content filePath = Normal r
                        /\ (passes_model_json content r
                            \/ (json_strategy content filePath = Normal None
                                /\ forall detail, r <> error_result filePath detail))).
  { unfold parse_body.
    destruct (json_strategy_cases content filePath)
      as [E0|[text [v [items [Ht [Hv [Hi [s E0]]]]]]]]; rewrite E0; cbn [bind].
    - destruct (text_strategy_plain content filePath) as [l [-> Hl]].
      eexists. split; [reflexivity|]. right. split; [reflexivity|].
      intros detail E.
      unfold error_result in E. injection E as E _.
      destruct l as [|i [|j l]]; try discriminate.
      cbn [map] in E. injection E as E. subst i.
      inversion Hl as [|? ? Hi _]. destruct Hi as [Hi|Hi]; cbn in Hi;
        [discriminate|exact (error_info_differ Hi)].
    - eexists. split; [reflexivity|]. left.
      exists text, v, items. repeat split; assumption. }
  split; [|exact H].
  destruct H as [r [E _]]. unfold parseReviewResponse. rewrite E. reflexivity.
Qed.

(** *** The counts of the summary prompt and of the report *)

Lemma issuesCount_length (results : list ReviewResult) :
  issuesCount results = length (flat_map issues results).
Proof.
  unfold issuesCount. induction results as [|r l IH]; [reflexivity|].
  cbn [fold_left flat_map]. rewrite Prompts.issuesCount_from, length_app, IH.
  reflexivity.
Qed.

Lemma severities_differ :
  JS.eqb (u "error") (u "warning") = false
  /\ JS.eqb (u "error") (u "info") = false
  /\ JS.eqb (u "warning") (u "info") = false.
Proof. repeat split; vm_compute; reflexivity. Qed.

Lemma count_severity_cons (s : string) (i : Issue) (l : list Issue) :
  count_severity s (i :: l)
  = (if JS.eqb (severity i) (u s) then 1 else 0) + count_severity s l.
Proof.
  unfold count_severity. cbn [filter].
  destruct (JS.eqb (severity i) (u s)); reflexivity.
Qed.

Lemma severity_counts_list (l : list Issue) :
  count_severity "error" l + count_severity "warning" l + count_severity "info" l
  <= length l
  /\ (count_severity "error" l + count_severity "warning" l
      + count_severity "info" l = length l
      <-> Forall (fun i => valid_severity (severity i)) l).
Proof.
  destruct severities_differ as [D1 [D2 D3]].
  induction l as [|i l [IH1 IH2]].
  - split; [apply Nat.le_refl|]. split; [constructor|reflexivity].
  - rewrite !count_severity_cons. cbn [length].
    destruct (JS.eqb (severity i) (u "error")) eqn:E1.
    { apply ReFacts.eqb_eq in E1. assert (W : JS.eqb (severity i) (u "warning") = false)
        by (rewrite E1; exact D1).
      assert (N : JS.eqb (severity i) (u "info") = false)
        by (rewrite E1; exact D2).
      rewrite W, N. cbv beta iota.
      split; [lia|]. split.
      - intros H. constructor; [right; right; exact E1|]. apply IH2. lia.
      - intros H. inversion H as [|? ? _ Hl]. apply IH2 in Hl. lia. }
    destruct (JS.eqb (severity i) (u "warning")) eqn:E2.
    { apply ReFacts.eqb_eq in E2. assert (N : JS.eqb (severity i) (u "info") = false)
        by (rewrite E2; exact D3).
      rewrite N. cbv beta iota.
      split; [lia|]. split.
      - intros H. constructor; [right; left; exact E2|]. apply IH2. lia.
      - intros H. inversion H as [|? ? _ Hl]. apply IH2 in Hl. lia. }
    destruct (JS.eqb (severity i) (u "info")) eqn:E3.
    { apply ReFacts.eqb_eq in E3. cbv beta iota.
      split; [lia|]. split.
      - intros H. constructor; [left; exact E3|]. apply IH2. lia.
      - intros H. inversion H as [|? ? _ Hl]. apply IH2 in Hl. lia. }
    cbv beta iota. split; [lia|]. split.
    + intros H. lia.
    + intros H. inversion H as [|? ? Hi _]. exfalso.
      destruct Hi as [Hi|[Hi|Hi]]; apply ReFacts.eqb_eq in Hi; congruence.
Qed.

(** X11. The counts the summary prompt and the console report are built
    from: the total is the number of all issues; the error, warning and
    info counts never add up to more; they add up to the total exactly
    when every issue's severity is one of the three. An issue of another
    severity is in the total and in none of the three counts. *)
Theorem severity_counts (results : list ReviewResult) :
  let allIssues := flat_map issues results in
  let counted := count_severity "error" allIssues
                 + count_severity "warning" allIssues
                 + count_severity "info" allIssues in
  issuesCount results = length allIssues
  /\ counted <= issuesCount results
  /\ (counted = issuesCount results
      <-> Forall (fun i => valid_severity (severity i)) allIssues).
Proof.
  cbv zeta. rewrite issuesCount_length. split; [reflexivity|].
  apply severity_counts_list.
Qed.

End ParserMore.

(* ================================================================== *)
(** ** The review run and the notification manager: properties *)
(* ================================================================== *)

Module Runs.

Import Workflow.

(** *** Steps *)

Section Steps.

Variable World : Type.

Lemma and_then_normal {A B : Type} (m : action World A) (k : A -> action World B)
    (w w2 : World) (b : B) (t : list event) :
  and_then World m k w = (Normal b, w2, t) ->
  exists a w1 t1 t2,
    m w = (Normal a, w1, t1) /\ k a w1 = (Normal b, w2, t2) /\ t = t1 ++ t2.
Proof.
  unfold and_then. destruct (m w) as [[[a|d|] w1] t1]; try discriminate.
  destruct (k a w1) as [[r w2'] t2] eqn:E. intros [= -> -> <-].
  exists a, w1, t1, t2. auto.
Qed.

Lemma and_then_throw {A B : Type} (m : action World A) (k : A -> action World B)
    (w w2 : World) (d : jsstring) (t : list event) :
  and_then World m k w = (Throw d, w2, t) ->
  m w = (Throw d, w2, t)
  \/ exists a w1 t1 t2,
       m w = (Normal a, w1, t1) /\ k a w1 = (Throw d, w2, t2) /\ t = t1 ++ t2.
Proof.
  unfold and_then. destruct (m w) as [[[a|d'|] w1] t1]; try discriminate.
  - destruct (k a w1) as [[r w2'] t2] eqn:E. intros [= -> -> <-].
    right. exists a, w1, t1, t2. auto.
  - intros [= -> -> ->]. now left.
Qed.

Lemma free_ret (P : event -> bool) {A : Type} (a : A) : free World P (ret World a).
Proof. intros w. constructor. Qed.

Lemma free_lift (P : event -> bool) {A : Type} (c : completion A) :
  free World P (lift World c).
Proof. intros w. constructor. Qed.

Lemma free_emit (P : event -> bool) (e : event) :
  P e = false -> free World P (emit World e).
Proof. intros H w. constructor; [exact H|constructor]. Qed.

Lemma free_call (P : event -> bool) {A : Type} (e : event)
    (f : World -> completion A * World) :
  P e = false -> free World P (call World e f).
Proof.
  intros H w. unfold call, events. destruct (f w) as [r w1].
  constructor; [exact H|constructor].
Qed.

Lemma free_and_then (P : event -> bool) {A B : Type} (m : action World A)
    (k : A -> action World B) :
  free World P m -> (forall a, free World P (k a)) ->
  free World P (and_then World m k).
Proof.
  intros Hm Hk w. specialize (Hm w). unfold and_then, events in *.
  destruct (m w) as [[[a|d|] w1] t1]; cbn [snd] in *; try exact Hm.
  specialize (Hk a w1). unfold events in Hk.
  destruct (k a w1) as [[r w2] t2]. cbn [snd] in *.
  apply Forall_app. split; assumption.
Qed.

Lemma free_catch (P : event -> bool) {A : Type} (m : action World A)
    (h : jsstring -> action World A) :
  free World P m -> (forall d, free World P (h d)) ->
  free World P (catch World m h).
Proof.
  intros Hm Hh w. specialize (Hm w). unfold catch, events in *.
  destruct (m w) as [[[a|d|] w1] t1]; cbn [snd] in *; try exact Hm.
  specialize (Hh d w1). unfold events in Hh.
  destruct (h d w1) as [[r w2] t2]. cbn [snd] in *.
  apply Forall_app. split; assumption.
Qed.

Lemma never_throws_ret {A : Type} (a : A) : never_throws World (ret World a).
Proof. intros w. exact I. Qed.

Lemma never_throws_emit (e : event) : never_throws World (emit World e).
Proof. intros w. exact I. Qed.

Lemma never_throws_and_then {A B : Type} (m : action World A)
    (k : A -> action World B) :
  never_throws World m -> (forall a, never_throws World (k a)) ->
  never_throws World (and_then World m k).
Proof.
  intros Hm Hk w. specialize (Hm w). unfold and_then, outcome in *.
  destruct (m w) as [[[a|d|] w1] t1]; cbn [fst] in *; try exact Hm.
  specialize (Hk a w1). unfold outcome in Hk.
  destruct (k a w1) as [[r w2] t2]. exact Hk.
Qed.

Lemma never_throws_catch {A : Type} (m : action World A)
    (h : jsstring -> action World A) :
  (forall d, never_throws World (h d)) -> never_throws World (catch World m h).
Proof.
  intros Hh w. unfold catch, outcome.
  destruct (m w) as [[[a|d|] w1] t1]; cbn [fst]; try exact I.
  specialize (Hh d w1). unfold outcome in Hh.
  destruct (h d w1) as [[r w2] t2]. exact Hh.
Qed.

(** When a step that cannot throw follows another, an exception of the
    two comes from the first, and the events are the first's. *)
Lemma throw_before {A B : Type} (m : action World A)
    (k : A -> action World B) (w : World) (d : jsstring) :
  (forall a, never_throws World (k a)) ->
  outcome World (and_then World m k w) = Throw d ->
  outcome World (m w) = Throw d
  /\ events World (and_then World m k w) = events World (m w).
Proof.
  intros Hk. unfold and_then, outcome, events.
  destruct (m w) as [[[a|d'|] w1] t1]; cbn [fst snd]; try discriminate.
  - specialize (Hk a w1). unfold outcome in Hk.
    destruct (k a w1) as [[[b|d'|] w2] t2]; cbn [fst] in *;
      try discriminate. destruct Hk.
  - intros [= ->]. split; reflexivity.
Qed.

(** *** The notification manager *)

Variable submitReviewComment :
  jsstring -> option N -> jsstring -> World -> completion unit * World.
Variable submitReviewSummary : jsstring -> World -> completion unit * World.

Lemma in_order_app (due1 due2 : list event) (m : action World unit)
    (k : action World unit) :
  (forall w, in_order due1 (outcome World (m w)) (events World (m w))) ->
  (forall w, in_order due2 (outcome World (k w)) (events World (k w))) ->
  forall w, in_order (due1 ++ due2)
                     (outcome World (and_then World m (fun _ => k) w))
                     (events World (and_then World m (fun _ => k) w)).
Proof.
  intros Hm Hk w. specialize (Hm w). unfold and_then, outcome, events in *.
  destruct (m w) as [[[[]|d|] w1] t1]; cbn [fst snd] in *.
  - destruct Hm as [[_ ->]|[k1 [_ [_ [H|[d H]]]]]]; try discriminate.
    specialize (Hk w1). destruct (k w1) as [[r w2] t2]. cbn [fst snd] in *.
    destruct Hk as [[-> ->]|[k2 [Hlt [-> Ho]]]].
    + left. auto.
    + right. exists (length due1 + k2). split; [rewrite length_app; lia|].
      split; [|exact Ho].
      rewrite firstn_app.
      replace (S (length due1 + k2) - length due1) with (S k2) by lia.
      rewrite (@firstn_all2 _ (S (length due1 + k2)) due1) by lia. reflexivity.
  - destruct Hm as [[H _]|[k1 [Hlt [-> Ho]]]]; [discriminate|].
    right. exists k1. split; [rewrite length_app; lia|]. split; [|exact Ho].
    rewrite firstn_app. replace (S k1 - length due1) with 0 by lia.
    cbn [firstn]. rewrite app_nil_r. reflexivity.
  - destruct Hm as [[H _]|[k1 [Hlt [-> Ho]]]]; [discriminate|].
    right. exists k1. split; [rewrite length_app; lia|]. split; [|exact Ho].
    rewrite firstn_app. replace (S k1 - length due1) with 0 by lia.
    cbn [firstn]. rewrite app_nil_r. reflexivity.
Qed.

Lemma in_order_call (e : event) (f : World -> completion unit * World) (w : World) :
  in_order [e] (outcome World (call World e f w)) (events World (call World e f w)).
Proof.
  unfold call, outcome, events. destruct (f w) as [[[]|d|] w1]; cbn [fst snd].
  - left. auto.
  - right. exists 0. split; [cbn [length]; lia|]. split; [reflexivity|].
    right. now exists d.
  - right. exists 0. split; [cbn [length]; lia|]. split; [reflexivity|].
    now left.
Qed.

Lemma in_order_ret (w : World) :
  in_order [] (outcome World (ret World tt w)) (events World (ret World tt w)).
Proof. left. auto. Qed.

Lemma submit_issues_in_order (filePath : jsstring) (l : list Issue) (w : World) :
  in_order (map (fun issue => SubmitReviewComment filePath (line issue)
                                 (Reviewer.formatIssueComment issue)) l)
           (outcome World (submit_issues World submitReviewComment filePath l w))
           (events World (submit_issues World submitReviewComment filePath l w)).
Proof.
  revert w. induction l as [|issue rest IH]; intros w.
  - apply in_order_ret.
  - cbn [submit_issues map].
    apply (in_order_app [_] _ _ _ (in_order_call _ _) IH).
Qed.

Lemma submit_results_in_order (results : list ReviewResult) (w : World) :
  in_order (comments_due results)
           (outcome World (submit_results World submitReviewComment results w))
           (events World (submit_results World submitReviewComment results w)).
Proof.
  revert w. induction results as [|r rest IH]; intros w.
  - apply in_order_ret.
  - cbn [submit_results]. unfold comments_due. cbn [flat_map].
    apply (in_order_app _ _ _ _ (submit_issues_in_order _ _) IH).
Qed.

(** A step wrapped in [try] with a handler that logs. *)
Lemma caught_in_order (due : list event) (m : action World unit)
    (failure : jsstring -> event) (w : World) :
  in_order due (outcome World (m w)) (events World (m w)) ->
  let r := catch World m (fun error => emit World (failure error)) w in
  (outcome World r = Normal tt /\ events World r = due)
  \/ (exists k d, k < length due /\ outcome World r = Normal tt
                  /\ events World r = firstn (S k) due ++ [failure d])
  \/ (exists k, k < length due /\ outcome World r = Diverge
                /\ events World r = firstn (S k) due).
Proof.
  cbv zeta. unfold catch, emit, outcome, events.
  destruct (m w) as [[[[]|d|] w1] t1]; cbn [fst snd].
  - intros [[_ ->]|[k [_ [_ [H|[d H]]]]]]; try discriminate. left. auto.
  - intros [[H _]|[k [Hlt [-> _]]]]; [discriminate|].
    right. left. exists k, d. auto.
  - intros [[H _]|[k [Hlt [-> _]]]]; [discriminate|].
    right. right. exists k. auto.
Qed.

(** X12. On a platform without batch support the manager submits the
    comments of the results in order, one per issue, result after result:
    all of them when every call returns; when a call throws, the comments
    after it are never attempted, the failure is logged and the manager
    returns normally all the same. *)
Theorem batch_notifications_in_order (results : list ReviewResult) (w : World) :
  let r := sendBatchReviewNotifications World submitReviewComment None results w in
  (outcome World r = Normal tt /\ events World r = comments_due results)
  \/ (exists k d, k < length (comments_due results)
                  /\ outcome World r = Normal tt
                  /\ events World r
                     = firstn (S k) (comments_due results) ++ [batch_failure d])
  \/ (exists k, k < length (comments_due results)
                /\ outcome World r = Diverge
                /\ events World r = firstn (S k) (comments_due results)).
Proof.
  unfold sendBatchReviewNotifications.
  apply (caught_in_order (comments_due results) _ batch_failure w).
  apply submit_results_in_order.
Qed.

Variable submitBatchReviewComments :
  option (list ReviewResult -> World -> completion unit * World).

Lemma caught_never_throws (m : action World unit) (failure : jsstring -> event) :
  never_throws World (catch World m (fun error => emit World (failure error))).
Proof. apply never_throws_catch. intros d. apply never_throws_emit. Qed.

Lemma not_thrown (o : completion unit) :
  match o with Throw _ => False | _ => True end -> o = Normal tt \/ o = Diverge.
Proof. destruct o as [[]|d|]; intros H; [now left|destruct H|now right]. Qed.

(** X13. No method of the notification manager ends in an exception,
    whatever the platform's methods do: each returns normally (or does not
    return, when a platform call does not). *)
Theorem notifications_never_throw (filePath summary : jsstring)
    (result : ReviewResult) (results : list ReviewResult) (w : World) :
  (outcome World (sendReviewNotification World submitReviewComment filePath result w)
   = Normal tt
   \/ outcome World (sendReviewNotification World submitReviewComment filePath result w)
      = Diverge)
  /\ (outcome World (sendSummaryNotification World submitReviewSummary summary w)
      = Normal tt
      \/ outcome World (sendSummaryNotification World submitReviewSummary summary w)
         = Diverge)
  /\ (outcome World (sendBatchReviewNotifications World submitReviewComment
                       submitBatchReviewComments results w) = Normal tt
      \/ outcome World (sendBatchReviewNotifications World submitReviewComment
                          submitBatchReviewComments results w) = Diverge).
Proof.
  repeat split; apply not_thrown; apply caught_never_throws.
Qed.

End Steps.

(** *** The review run *)

Section Review.

Variable World : Type.
Variable getCodeDiffs : World -> completion (list CodeDiff) * World.
Variable submitReviewComment :
  jsstring -> option N -> jsstring -> World -> completion unit * World.
Variable submitReviewSummary : jsstring -> World -> completion unit * World.
Variable submitBatchReviewComments :
  option (list ReviewResult -> World -> completion unit * World).
Variable reviewCode : CodeDiff -> World -> completion (option ReviewResult) * World.
Variable generateSummary : list ReviewResult -> World -> completion jsstring * World.
Variable saveReviewResults : list ReviewResult -> World -> completion jsstring * World.
Variable saveSummary : jsstring -> World -> completion jsstring * World.
Variable formatSingleFileReview : ReviewResult -> jsstring.
Variable new_RegExp : jsstring -> option RegExp.
Variable config : Reviewer.ReviewConfig.

Abbreviation review :=
  (Workflow.review World getCodeDiffs submitReviewComment submitReviewSummary
     submitBatchReviewComments reviewCode generateSummary saveReviewResults
     saveSummary formatSingleFileReview new_RegExp config).
Abbreviation review_body :=
  (Workflow.review_body World getCodeDiffs submitReviewComment submitReviewSummary
     submitBatchReviewComments reviewCode generateSummary saveReviewResults
     saveSummary formatSingleFileReview new_RegExp config).
Abbreviation review_diffs :=
  (Workflow.review_diffs World reviewCode generateSummary saveReviewResults
     saveSummary formatSingleFileReview new_RegExp config).
Abbreviation notify :=
  (Workflow.notify World submitReviewComment submitReviewSummary
     submitBatchReviewComments).
Abbreviation review_each :=
  (Workflow.review_each World reviewCode formatSingleFileReview).
Abbreviation make_summary := (Workflow.make_summary World generateSummary saveSummary).
Abbreviation filterDiffs := (Workflow.filterDiffs World new_RegExp config).
Abbreviation keepDiff := (Workflow.keepDiff World new_RegExp config).

Lemma in_and_then {A B : Type} (m : action World A) (k : A -> action World B)
    (w : World) (e : event) :
  In e (events World (and_then World m k w)) ->
  In e (events World (m w))
  \/ exists a w1 t1, m w = (Normal a, w1, t1) /\ In e (events World (k a w1)).
Proof.
  unfold and_then, events. destruct (m w) as [[[a|d|] w1] t1]; cbn [snd];
    try (now left).
  destruct (k a w1) as [[r w2] t2] eqn:E. cbn [snd]. intros H.
  apply in_app_or in H. destruct H as [H|H]; [now left|].
  right. exists a, w1, t1. rewrite E. auto.
Qed.

Lemma in_catch {A : Type} (m : action World A) (h : jsstring -> action World A)
    (w : World) (e : event) :
  In e (events World (catch World m h w)) ->
  In e (events World (m w))
  \/ exists d w1 t1, m w = (Throw d, w1, t1) /\ In e (events World (h d w1)).
Proof.
  unfold catch, events. destruct (m w) as [[[a|d|] w1] t1]; cbn [snd];
    try (now left).
  destruct (h d w1) as [[r w2] t2] eqn:E. cbn [snd]. intros H.
  apply in_app_or in H. destruct H as [H|H]; [now left|].
  right. exists d, w1, t1. rewrite E. auto.
Qed.

Lemma free_in (P : event -> bool) {A : Type} (m : action World A) (w : World)
    (e : event) :
  free World P m -> In e (events World (m w)) -> P e = false.
Proof. intros H Hin. specialize (H w). rewrite Forall_forall in H. auto. Qed.

(** The filter, with its log lines, answers as the filter does. *)
Lemma keepDiff_answer (diff : CodeDiff) (w : World) :
  outcome World (keepDiff diff w) = Reviewer.keepDiff new_RegExp config diff.
Proof.
  unfold Workflow.keepDiff, Reviewer.keepDiff, and_then, lift, emit, ret, outcome.
  destruct (Reviewer.ignoreFiles config) as [pats|];
    [destruct (Reviewer.matchPatterns new_RegExp (newPath diff) pats) as [[|]| |]|];
    cbn [bind fst]; try reflexivity;
    (destruct (Reviewer.ignorePaths config) as [paths|];
     [destruct (existsb _ paths)|]; cbn [fst]; try reflexivity;
     (destruct (Reviewer.includePatterns config) as [[|p l]|];
      [|destruct (Reviewer.matchPatterns new_RegExp (newPath diff) (p :: l))
          as [[|]| |]|];
      cbn [bind fst negb]; try reflexivity;
      (destruct (Reviewer.excludePatterns config) as [ex|];
       [destruct (Reviewer.matchPatterns new_RegExp (newPath diff) ex) as [[|]| |]|];
       cbn [bind fst negb]; reflexivity))).
Qed.

Lemma filterDiffs_answer (diffs : list CodeDiff) (w : World) :
  outcome World (filterDiffs diffs w) = Reviewer.filterDiffs new_RegExp config diffs.
Proof.
  unfold Reviewer.filterDiffs. revert w.
  induction diffs as [|diff rest IH]; intros w; [reflexivity|].
  cbn [Workflow.filterDiffs Reviewer.filter_c].
  rewrite <- (keepDiff_answer diff w). unfold and_then, outcome in *.
  destruct (keepDiff diff w) as [[[keep|d|] w1] t1]; cbn [fst bind];
    try reflexivity.
  rewrite <- (IH w1).
  destruct (filterDiffs rest w1) as [[[kept|d|] w2] t2]; cbn [fst bind];
    reflexivity.
Qed.

Lemma free_keepDiff (P : event -> bool) (diff : CodeDiff) :
  (forall l s, P (Consola l s) = false) -> free World P (keepDiff diff).
Proof.
  intros HP. unfold Workflow.keepDiff.
  repeat first
    [ apply free_ret | apply free_lift | apply free_emit; apply HP
    | apply free_and_then; [|intros ?]
    | match goal with
      | |- free _ _ (if ?b then _ else _) => destruct b
      end ].
Qed.

Lemma free_filterDiffs (P : event -> bool) (diffs : list CodeDiff) :
  (forall l s, P (Consola l s) = false) -> free World P (filterDiffs diffs).
Proof.
  intros HP. induction diffs as [|diff rest IH]; cbn [Workflow.filterDiffs].
  - apply free_ret.
  - apply free_and_then; [apply free_keepDiff; exact HP|intros keep].
    apply free_and_then; [exact IH|intros kept]. apply free_ret.
Qed.

Lemma free_review_each (P : event -> bool) (total : nat) (diffs : list CodeDiff)
    (acc : list ReviewResult) :
  (forall l s, P (Consola l s) = false) ->
  (forall d, P (ReviewCode d) = false) ->
  free World P (review_each total diffs acc).
Proof.
  intros HP HR. revert acc.
  induction diffs as [|diff rest IH]; intros acc; cbn [Workflow.review_each].
  - apply free_ret.
  - apply free_and_then; [apply free_emit; apply HP|intros _].
    apply free_and_then; [apply free_call; apply HR|intros [r|]]; [|apply IH].
    apply free_and_then; [|intros _; apply IH].
    destruct (Nat.eqb total 1); apply free_emit; apply HP.
Qed.

Lemma free_make_summary (P : event -> bool) (results : list ReviewResult) :
  (forall l s, P (Consola l s) = false) ->
  (forall x, P (GenerateSummary x) = false) ->
  (forall x, P (SaveSummary x) = false) ->
  free World P (make_summary results).
Proof.
  intros HP HG HS. unfold Workflow.make_summary.
  destruct (_ && _); [|apply free_ret].
  apply free_and_then; [apply free_call; apply HG|intros summary].
  destruct (JS.truthy summary); [|apply free_ret].
  apply free_and_then; [apply free_call; apply HS|intros path].
  apply free_and_then; [apply free_emit; apply HP|intros _]. apply free_ret.
Qed.

Lemma free_submit_issues (P : event -> bool) (filePath : jsstring) (l : list Issue) :
  (forall a b c, P (SubmitReviewComment a b c) = false) ->
  free World P (submit_issues World submitReviewComment filePath l).
Proof.
  intros HP. induction l as [|i l IH]; cbn [submit_issues]; [apply free_ret|].
  apply free_and_then; [apply free_call; apply HP|intros _; exact IH].
Qed.

Lemma free_submit_results (P : event -> bool) (results : list ReviewResult) :
  (forall a b c, P (SubmitReviewComment a b c) = false) ->
  free World P (submit_results World submitReviewComment results).
Proof.
  intros HP. induction results as [|r l IH]; cbn [submit_results];
    [apply free_ret|].
  apply free_and_then; [apply free_submit_issues; exact HP|intros _; exact IH].
Qed.

Lemma free_notify (P : event -> bool) (results : list ReviewResult)
    (summary : jsstring) :
  (forall l s, P (Consola l s) = false) ->
  (forall a b c, P (SubmitReviewComment a b c) = false) ->
  (forall x, P (SubmitReviewSummary x) = false) ->
  (forall x, P (SubmitBatchReviewComments x) = false) ->
  free World P (notify results summary).
Proof.
  intros HP HC HS HB. unfold Workflow.notify.
  apply free_and_then; [apply free_emit; apply HP|intros _].
  apply free_and_then; [|intros _].
  - unfold sendBatchReviewNotifications.
    apply free_catch; [|intros d; apply free_emit; apply HP].
    destruct submitBatchReviewComments;
      [apply free_call; apply HB|apply free_submit_results; exact HC].
  - destruct (JS.truthy summary); [|apply free_ret].
    unfold sendSummaryNotification.
    apply free_catch; [apply free_call; apply HS|intros d; apply free_emit; apply HP].
Qed.

Lemma never_throws_notify (results : list ReviewResult) (summary : jsstring) :
  never_throws World (notify results summary).
Proof.
  unfold Workflow.notify.
  apply never_throws_and_then; [apply never_throws_emit|intros _].
  apply never_throws_and_then; [apply caught_never_throws|intros _].
  destruct (JS.truthy summary); [apply caught_never_throws|apply never_throws_ret].
Qed.

Lemma free_review_diffs (P : event -> bool) (diffs : list CodeDiff) :
  (forall l s, P (Consola l s) = false) ->
  (forall d, P (ReviewCode d) = false) ->
  (forall x, P (GenerateSummary x) = false) ->
  (forall x, P (SaveSummary x) = false) ->
  (forall x, P (SaveReviewResults x) = false) ->
  free World P (review_diffs diffs).
Proof.
  intros HP HR HG HS HV. unfold Workflow.review_diffs.
  apply free_and_then; [apply free_filterDiffs; exact HP|intros filtered].
  apply free_and_then; [apply free_emit; apply HP|intros _].
  apply free_and_then; [apply free_review_each; assumption|intros results].
  apply free_and_then; [apply free_call; apply HV|intros path].
  apply free_and_then; [apply free_emit; apply HP|intros _].
  apply free_and_then; [apply free_make_summary; assumption|intros summary].
  apply free_ret.
Qed.

(** X14. When the platform gives no diff, [review] returns the empty list
    after a warning: the model is not asked, nothing is saved and nothing
    is sent. *)
Theorem review_no_diffs (w w' : World) :
  getCodeDiffs w = (Normal [], w') ->
  review w
  = (Normal [], w',
     [ Consola Info (u "开始代码审查...");
       GetCodeDiffs;
       Consola Info (u "获取到 " ++ Provider.String_of_nat 0 ++ u " 个文件差异");
       Consola Warn (u "没有发现代码差异，审查结束") ]).
Proof.
  intros H. unfold Workflow.review, Workflow.review_body, and_then, catch,
    emit, call, ret.
  rewrite H. reflexivity.
Qed.

(** The body of [review] posts nothing before it throws. *)
Lemma review_body_throw (w w1 : World) (d : jsstring) (t : list event) :
  review_body w = (Throw d, w1, t) -> Forall (fun e => posts e = false) t.
Proof.
  unfold Workflow.review_body. intros H.
  apply and_then_throw in H. destruct H as [H|[diffs [w2 [t1 [t2 [E [H ->]]]]]]].
  - pose proof (free_call World posts GetCodeDiffs getCodeDiffs eq_refl w) as F.
    rewrite H in F. exact F.
  - apply Forall_app. split.
    { pose proof (free_call World posts GetCodeDiffs getCodeDiffs eq_refl w) as F.
      rewrite E in F. exact F. }
    apply and_then_throw in H. destruct H as [H|[[] [w3 [t3 [t4 [E3 [H ->]]]]]]];
      [discriminate|].
    injection E3 as <- <-. apply Forall_app. split; [repeat constructor|].
    destruct diffs as [|diff rest].
    + apply and_then_throw in H.
      destruct H as [H|[[] [w4 [t5 [t6 [_ [H _]]]]]]]; discriminate.
    + pose proof (throw_before World (review_diffs (diff :: rest))
                    (fun reviewed =>
                       and_then World (notify (fst reviewed) (snd reviewed))
                         (fun _ => and_then World
                                     (emit World (Consola Success (u "代码审查完成")))
                                     (fun _ => ret World (fst reviewed))))
                    w2 d) as T.
      unfold outcome, events in T. rewrite H in T. cbn [fst snd] in T.
      destruct T as [_ ->]; [|reflexivity|].
      * intros reviewed.
        apply never_throws_and_then; [apply never_throws_notify|intros _].
        apply never_throws_and_then; [apply never_throws_emit|intros _].
        apply never_throws_ret.
      * apply (free_review_diffs posts); intros; reflexivity.
Qed.

(** [review] around its body. *)
Lemma review_run (w : World) :
  review w
  = match review_body w with
    | (Normal rs, w1, t1) =>
      (Normal rs, w1, Consola Info (u "开始代码审查...") :: t1)
    | (Throw d, w1, t1) =>
      (Throw d, w1,
       Consola Info (u "开始代码审查...")
         :: t1 ++ [Consola Error (u "代码审查过程中出错: " ++ d)])
    | (Diverge, w1, t1) =>
      (Diverge, w1, Consola Info (u "开始代码审查...") :: t1)
    end.
Proof.
  unfold Workflow.review, and_then, catch, emit, throw, lift.
  destruct (review_body w) as [[[rs|d|] w1] t1]; reflexivity.
Qed.

(** X15. A review that ends in an exception has posted nothing: no
    comment, no batch of comments and no summary reached the platform.
    The notification manager swallows its own failures, so an exception
    can only come from a step before the notifications. *)
Theorem review_failure_posts_nothing (w : World) (d : jsstring) :
  outcome World (review w) = Throw d ->
  Forall (fun e => posts e = false) (events World (review w)).
Proof.
  rewrite review_run. unfold outcome, events.
  destruct (review_body w) as [[[rs|d'|] w1] t1] eqn:E; cbn [fst snd];
    try discriminate.
  intros _. constructor; [reflexivity|].
  apply Forall_app. split; [exact (review_body_throw _ _ _ _ E)|].
  repeat constructor.
Qed.

(** The summary request of [make_summary]. *)
Lemma make_summary_request (results : list ReviewResult) (w : World) :
  (forall x, In (GenerateSummary x) (events World (make_summary results w)) ->
             x = results /\ 2 <= length results)
  /\ (2 <= length results ->
      In (GenerateSummary results) (events World (make_summary results w))).
Proof.
  unfold Workflow.make_summary.
  destruct (Nat.ltb 1 (length results)) eqn:E1; cbn [andb].
  - apply Nat.ltb_lt in E1.
    replace (Nat.ltb 0 (length results)) with true
      by (symmetry; apply Nat.ltb_lt; lia).
    split.
    + intros x H. apply in_and_then in H.
      destruct H as [H|[summary [w1 [t1 [_ H]]]]].
      * unfold call, events in H. destruct (generateSummary results w).
        cbn [snd] in H. destruct H as [[= <-]|[]]. split; [reflexivity|lia].
      * exfalso.
        assert (F : free World is_summary_request
                      (if JS.truthy summary
                       then and_then World
                              (call World (SaveSummary summary) (saveSummary summary))
                              (fun summaryFilePath =>
                                 and_then World
                                   (emit World
                                      (Consola Info
                                         (u "审查总结已保存到临时文件：" ++ summaryFilePath)))
                                   (fun _ => ret World summary))
                       else ret World summary)).
        { destruct (JS.truthy summary); [|apply free_ret].
          apply free_and_then; [apply free_call; reflexivity|intros path].
          apply free_and_then; [apply free_emit; reflexivity|intros _].
          apply free_ret. }
        pose proof (free_in _ _ _ _ F H) as C. discriminate.
    + intros _. unfold and_then, call, events.
      destruct (generateSummary results w) as [[summary|d|] w1]; cbn [snd];
        try (now left).
      match goal with
      | |- In _ (snd (let (_, _) := ?x in _)) => destruct x as [[r w2] t2]
      end. cbn [snd]. now left.
  - apply Nat.ltb_ge in E1. split.
    + intros x [].
    + intros H. lia.
Qed.

Lemma review_diffs_request (diffs : list CodeDiff) (w w' : World)
    (reviewed : list ReviewResult * jsstring) (t : list event) :
  review_diffs diffs w = (Normal reviewed, w', t) ->
  (forall x, In (GenerateSummary x) t -> x = fst reviewed /\ 2 <= length (fst reviewed))
  /\ (2 <= length (fst reviewed) -> In (GenerateSummary (fst reviewed)) t).
Proof.
  unfold Workflow.review_diffs. intros H.
  apply and_then_normal in H. destruct H as [filtered [w1 [t1 [t1' [E1 [H ->]]]]]].
  apply and_then_normal in H. destruct H as [[] [w2 [t2 [t2' [E2 [H ->]]]]]].
  apply and_then_normal in H. destruct H as [results [w3 [t3 [t3' [E3 [H ->]]]]]].
  apply and_then_normal in H. destruct H as [path [w4 [t4 [t4' [E4 [H ->]]]]]].
  apply and_then_normal in H. destruct H as [[] [w5 [t5 [t5' [E5 [H ->]]]]]].
  apply and_then_normal in H. destruct H as [summary [w6 [t6 [t6' [E6 [H ->]]]]]].
  injection H as <- <- <-. cbn [fst].
  assert (F1 : Forall (fun e => is_summary_request e = false) t1).
  { pose proof (free_filterDiffs is_summary_request diffs (fun _ _ => eq_refl) w) as F.
    unfold events in F. rewrite E1 in F. exact F. }
  assert (F2 : Forall (fun e => is_summary_request e = false) t2).
  { injection E2 as <- <-. repeat constructor. }
  assert (F3 : Forall (fun e => is_summary_request e = false) t3).
  { pose proof (free_review_each is_summary_request (length filtered) filtered []
                  (fun _ _ => eq_refl) (fun _ => eq_refl) w2) as F.
    unfold events in F. rewrite E3 in F. exact F. }
  assert (F4 : Forall (fun e => is_summary_request e = false) t4).
  { unfold call in E4. destruct (saveReviewResults results w3).
    injection E4 as _ _ <-. repeat constructor. }
  assert (F5 : Forall (fun e => is_summary_request e = false) t5).
  { injection E5 as <- <-. repeat constructor. }
  destruct (make_summary_request results w5) as [M1 M2].
  unfold events in M1, M2. rewrite E6 in M1, M2. cbn [snd] in M1, M2.
  split.
  - intros x Hin.
    repeat (apply in_app_or in Hin; destruct Hin as [Hin|Hin]);
      try (match goal with
           | F : Forall _ ?t, Hin : In _ ?t |- _ =>
             rewrite Forall_forall in F; specialize (F _ Hin); discriminate
           end).
    + apply M1. exact Hin.
    + destruct Hin.
  - intros Hlen. do 5 (apply in_or_app; right).
    apply in_or_app. left. exact (M2 Hlen).
Qed.

(** X16. In a review that returns, a summary is requested from the model
    exactly when at least two files gave a result, and then for the
    results that are returned: a run over one file never asks for a
    summary. *)
Theorem summary_requested (w : World) (rs : list ReviewResult) :
  outcome World (review w) = Normal rs ->
  (forall x, In (GenerateSummary x) (events World (review w)) ->
             x = rs /\ 2 <= length rs)
  /\ (2 <= length rs -> In (GenerateSummary rs) (events World (review w))).
Proof.
  rewrite review_run. unfold outcome, events.
  destruct (review_body w) as [[[rs'|d'|] w1] t1] eqn:E; cbn [fst snd];
    try discriminate.
  intros [= ->].
  unfold Workflow.review_body in E.
  apply and_then_normal in E. destruct E as [diffs [w2 [t2 [t2' [E2 [E ->]]]]]].
  apply and_then_normal in E. destruct E as [[] [w3 [t3 [t3' [E3 [E ->]]]]]].
  assert (T2 : t2 = [GetCodeDiffs]).
  { unfold call in E2. destruct (getCodeDiffs w). now injection E2 as _ _ <-. }
  injection E3 as <- <-. subst t2.
  destruct diffs as [|diff rest].
  - apply and_then_normal in E. destruct E as [[] [w4 [t4 [t4' [E4 [E ->]]]]]].
    injection E4 as <- <-. injection E as <- <- <-.
    split.
    + intros x H.
      repeat (destruct H as [H|H]; [discriminate|]). destruct H.
    + cbn [length]. intros H. lia.
  - apply and_then_normal in E. destruct E as [reviewed [w4 [t4 [t4' [E4 [E ->]]]]]].
    apply and_then_normal in E. destruct E as [[] [w5 [t5 [t5' [E5 [E ->]]]]]].
    apply and_then_normal in E. destruct E as [[] [w6 [t6 [t6' [E6 [E ->]]]]]].
    injection E6 as <- <-. injection E as <- <- <-.
    destruct (review_diffs_request _ _ _ _ _ E4) as [R1 R2].
    assert (F5 : Forall (fun e => is_summary_request e = false) t5).
    { pose proof (free_notify is_summary_request (fst reviewed) (snd reviewed)
                    (fun _ _ => eq_refl) (fun _ _ _ => eq_refl) (fun _ => eq_refl)
                    (fun _ => eq_refl) w4) as F.
      unfold events in F. rewrite E5 in F. exact F. }
    split.
    + intros x H. cbn [app In] in H.
      destruct H as [H|H]; [discriminate|].
      destruct H as [H|H]; [discriminate|].
      destruct H as [H|H]; [discriminate|].
      apply in_app_or in H. destruct H as [H|H]; [exact (R1 x H)|].
      apply in_app_or in H. destruct H as [H|H].
      * rewrite Forall_forall in F5. specialize (F5 _ H). discriminate.
      * destruct H as [H|[]]. discriminate.
    + intros Hlen. cbn [app In]. right. right. right.
      apply in_or_app. left. exact (R2 Hlen).
Qed.

(** The requests of the loop are for the diffs it is given. *)
Lemma review_each_requests (total : nat) (diffs : list CodeDiff)
    (acc : list ReviewResult) (w : World) (d : CodeDiff) :
  In (ReviewCode d) (events World (review_each total diffs acc w)) -> In d diffs.
Proof.
  revert acc w. induction diffs as [|diff rest IH]; intros acc w H.
  - destruct H.
  - cbn [Workflow.review_each] in H.
    apply in_and_then in H. destruct H as [H|[[] [w1 [t1 [_ H]]]]].
    { destruct H as [H|[]]. discriminate. }
    apply in_and_then in H. destruct H as [H|[r [w2 [t2 [_ H]]]]].
    { unfold call, events in H. destruct (reviewCode diff w1). cbn [snd] in H.
      destruct H as [[= <-]|[]]. now left. }
    destruct r as [r|]; [|right; exact (IH _ _ H)].
    apply in_and_then in H. destruct H as [H|[[] [w3 [t3 [_ H]]]]].
    { destruct (Nat.eqb total 1); destruct H as [H|[]]; discriminate. }
    right. exact (IH _ _ H).
Qed.

Lemma review_diffs_requests (diffs : list CodeDiff) (w : World) (d : CodeDiff) :
  In (ReviewCode d) (events World (review_diffs diffs w)) ->
  In d diffs /\ Reviewer.keepDiff new_RegExp config d = Normal true.
Proof.
  unfold Workflow.review_diffs. intros H.
  apply in_and_then in H. destruct H as [H|[filtered [w1 [t1 [E1 H]]]]].
  { pose proof (free_in _ _ _ _
                  (free_filterDiffs is_review_request diffs (fun _ _ => eq_refl)) H).
    discriminate. }
  apply in_and_then in H. destruct H as [H|[[] [w2 [t2 [_ H]]]]].
  { destruct H as [H|[]]. discriminate. }
  apply in_and_then in H. destruct H as [H|[results [w3 [t3 [_ H]]]]].
  - apply review_each_requests in H.
    pose proof (filterDiffs_answer diffs w) as A. unfold outcome in A.
    rewrite E1 in A. cbn [fst] in A. symmetry in A.
    unfold Reviewer.filterDiffs in A. apply Core.filter_c_spec in A.
    destruct A as [_ ->]. apply filter_In in H. destruct H as [Hin Hk].
    split; [exact Hin|].
    destruct (Reviewer.keepDiff new_RegExp config d) as [[|]| |];
      try discriminate. reflexivity.
  - exfalso.
    apply in_and_then in H. destruct H as [H|[path [w4 [t4 [_ H]]]]].
    { unfold call, events in H. destruct (saveReviewResults results w3).
      destruct H as [H|[]]. discriminate. }
    apply in_and_then in H. destruct H as [H|[[] [w5 [t5 [_ H]]]]].
    { destruct H as [H|[]]. discriminate. }
    apply in_and_then in H. destruct H as [H|[summary [w6 [t6 [_ H]]]]].
    { pose proof (free_in _ _ _ _
                    (free_make_summary is_review_request results
                       (fun _ _ => eq_refl) (fun _ => eq_refl) (fun _ => eq_refl)) H).
      discriminate. }
    destruct H.
Qed.

(** X17. The model is asked to review a diff only if the platform gave
    that diff and the filter keeps it: no file the filter drops is ever
    sent to the model, whatever else happens in the run. *)
Theorem only_kept_reach_model (w : World) (d : CodeDiff) :
  In (ReviewCode d) (events World (review w)) ->
  exists diffs w1,
    getCodeDiffs w = (Normal diffs, w1)
    /\ In d diffs
    /\ Reviewer.keepDiff new_RegExp config d = Normal true.
Proof.
  rewrite review_run. unfold events. intros H.
  assert (H' : In (ReviewCode d) (events World (review_body w))).
  { unfold events. destruct (review_body w) as [[[rs|e|] w1] t1]; cbn [snd] in *;
      destruct H as [H|H]; try discriminate; try exact H.
    apply in_app_or in H. destruct H as [H|[H|[]]]; [exact H|discriminate]. }
  clear H. rename H' into H.
  unfold Workflow.review_body in H.
  apply in_and_then in H. destruct H as [H|[diffs [w2 [t2 [E2 H]]]]].
  { unfold call, events in H. destruct (getCodeDiffs w).
    destruct H as [H|[]]. discriminate. }
  assert (G : getCodeDiffs w = (Normal diffs, w2)).
  { unfold call in E2. destruct (getCodeDiffs w) as [r w']. now injection E2 as -> ->. }
  apply in_and_then in H. destruct H as [H|[[] [w3 [t3 [E3 H]]]]].
  { destruct H as [H|[]]. discriminate. }
  injection E3 as <- _.
  destruct diffs as [|diff rest].
  { apply in_and_then in H. destruct H as [H|[[] [w4 [t4 [_ H]]]]];
      [destruct H as [H|[]]; discriminate|destruct H]. }
  apply in_and_then in H. destruct H as [H|[reviewed [w4 [t4 [_ H]]]]].
  - apply review_diffs_requests in H. exists (diff :: rest), w2. tauto.
  - exfalso.
    apply in_and_then in H. destruct H as [H|[[] [w5 [t5 [_ H]]]]].
    { pose proof (free_in _ _ _ _
                    (free_notify is_review_request (fst reviewed) (snd reviewed)
                       (fun _ _ => eq_refl) (fun _ _ _ => eq_refl)
                       (fun _ => eq_refl) (fun _ => eq_refl)) H).
      discriminate. }
    apply in_and_then in H. destruct H as [H|[[] [w6 [t6 [_ H]]]]];
      [destruct H as [H|[]]; discriminate|destruct H].
Qed.

End Review.

(** *** The statements on a run *)

Lemma review_no_diffs_witness :
  example_run false []
  = (Normal [], tt,
     [ Consola Info (u "开始代码审查...");
       GetCodeDiffs;
       Consola Info (u "获取到 " ++ Provider.String_of_nat 0 ++ u " 个文件差异");
       Consola Warn (u "没有发现代码差异，审查结束") ]).
Proof.
  exact (review_no_diffs unit (example_getCodeDiffs false [])
           (fun _ _ _ w => (Normal tt, w)) (fun _ w => (Normal tt, w)) None
           example_reviewCode (example_answer "summary")
           (example_answer "/tmp/results.json") (example_answer "/tmp/summary.md")
           (fun _ => u "report") Reviewer.new_RegExp no_patterns tt tt eq_refl).
Defined.

Lemma example_run_offline :
  outcome unit (example_run true example_diffs) = Throw (u "Error: offline").
Proof. vm_compute. reflexivity. Qed.

Lemma review_failure_posts_nothing_witness :
  Forall (fun e => posts e = false) (events unit (example_run true example_diffs)).
Proof.
  exact (review_failure_posts_nothing unit (example_getCodeDiffs true example_diffs)
           (fun _ _ _ w => (Normal tt, w)) (fun _ w => (Normal tt, w)) None
           example_reviewCode (example_answer "summary")
           (example_answer "/tmp/results.json") (example_answer "/tmp/summary.md")
           (fun _ => u "report") Reviewer.new_RegExp no_patterns tt
           (u "Error: offline") example_run_offline).
Defined.

Lemma example_run_results :
  outcome unit (example_run false example_diffs)
  = Normal [example_review (Config.diff_of "src/a.ts");
            example_review (Config.diff_of "src/b.ts")].
Proof. vm_compute. reflexivity. Qed.

Lemma summary_requested_witness :
  (forall x, In (GenerateSummary x) (events unit (example_run false example_diffs)) ->
             x = [example_review (Config.diff_of "src/a.ts");
                  example_review (Config.diff_of "src/b.ts")]
             /\ 2 <= length [example_review (Config.diff_of "src/a.ts");
                             example_review (Config.diff_of "src/b.ts")])
  /\ (2 <= length [example_review (Config.diff_of "src/a.ts");
                   example_review (Config.diff_of "src/b.ts")] ->
      In (GenerateSummary [example_review (Config.diff_of "src/a.ts");
                           example_review (Config.diff_of "src/b.ts")])
         (events unit (example_run false example_diffs))).
Proof.
  exact (summary_requested unit (example_getCodeDiffs false example_diffs)
           (fun _ _ _ w => (Normal tt, w)) (fun _ w => (Normal tt, w)) None
           example_reviewCode (example_answer "summary")
           (example_answer "/tmp/results.json") (example_answer "/tmp/summary.md")
           (fun _ => u "report") Reviewer.new_RegExp no_patterns tt _
           example_run_results).
Defined.

Lemma example_run_asks :
  In (ReviewCode (Config.diff_of "src/b.ts"))
     (events unit (example_run false example_diffs)).
Proof. vm_compute. tauto. Qed.

Lemma only_kept_reach_model_witness :
  exists diffs w1,
    example_getCodeDiffs false example_diffs tt = (Normal diffs, w1)
    /\ In (Config.diff_of "src/b.ts") diffs
    /\ Reviewer.keepDiff Reviewer.new_RegExp no_patterns (Config.diff_of "src/b.ts")
       = Normal true.
Proof.
  exact (only_kept_reach_model unit (example_getCodeDiffs false example_diffs)
           (fun _ _ _ w => (Normal tt, w)) (fun _ w => (Normal tt, w)) None
           example_reviewCode (example_answer "summary")
           (example_answer "/tmp/results.json") (example_answer "/tmp/summary.md")
           (fun _ => u "report") Reviewer.new_RegExp no_patterns tt
           (Config.diff_of "src/b.ts") example_run_asks).
Defined.

End Runs.

(* ================================================================== *)
(** ** The local platform: properties *)
(* ================================================================== *)

Module LocalFacts.

Import Workflow.
Import Local.

(** *** The status lines *)

(** [a+] over a character class: one member, then the longest run first. *)
Lemma run_plus_class (fl : flags) (n : nat) (cls : regex) (p : cu -> bool) :
  (forall st, run fl n cls st = char_step p st) ->
  groups cls = [] ->
  forall s c,
    run fl n (plus cls) (s, c)
    = match s with
      | x :: t => if p x then greedy_results p t c else []
      | [] => []
      end.
Proof.
  intros Hstep Hg s c. unfold plus. cbn [run]. rewrite Hg.
  cbn [repeat_matcher Nat.eqb negb andb fst snd].
  rewrite Hstep, ReFacts.reset_nil. unfold char_step. cbn [fst snd].
  destruct s as [|x t]; [reflexivity|]. destruct (p x); [|reflexivity].
  cbn [flat_map pred option_map]. rewrite app_nil_r.
  rewrite (ReFacts.repeat_char_greedy (run fl n cls) p Hstep)
    by (cbn [length fst]; lia).
  reflexivity.
Qed.

Lemma in_run_plus_class (fl : flags) (n : nat) (cls : regex) (p : cu -> bool)
    (s : jsstring) (c : captures) (st' : state) :
  (forall st, run fl n cls st = char_step p st) ->
  groups cls = [] ->
  (In st' (run fl n (plus cls) (s, c))
   <-> exists x s1, s = x :: s1 ++ fst st' /\ p x = true
                    /\ forallb p s1 = true /\ snd st' = c).
Proof.
  intros Hstep Hg. rewrite (run_plus_class fl n cls p Hstep Hg).
  destruct st' as [t c']. cbn [fst snd]. split.
  - destruct s as [|x s]; [intros []|]. destruct (p x) eqn:Hx; [|intros []].
    intros H. apply Glob.in_greedy_results in H. destruct H as [-> [s1 [-> Hs1]]].
    exists x, s1. auto.
  - intros [x [s1 [-> [Hx [Hs1 ->]]]]]. rewrite Hx.
    apply Glob.in_greedy_results. split; [reflexivity|]. exists s1. auto.
Qed.

Lemma run_not_space (fl : flags) (n : nat) (st : state) :
  run fl n (RSet false [CNotSpace]) st = char_step not_space st.
Proof.
  cbn [run]. unfold char_step, not_space. destruct (fst st) as [|x t]; [reflexivity|].
  cbn [existsb item_matches xorb]. rewrite orb_false_r. reflexivity.
Qed.

Lemma run_status (n : nat) (st : state) :
  run no_flags n (RSet false status_letters) st = char_step is_status st.
Proof.
  cbn [run]. unfold char_step. destruct (fst st) as [|x t]; [reflexivity|].
  replace (xorb false (existsb (item_matches no_flags x) status_letters))
    with (is_status x); [reflexivity|].
  unfold is_status, status_letters. change (u "AMDRT") with [65; 77; 68; 82; 84]%N.
  cbn [existsb item_matches canonicalize ignoreCase no_flags xorb].
  rewrite !(N.eqb_sym x). reflexivity.
Qed.

Lemma name_status_shape :
  re_name_status = {| pattern := RSeq RBegin status_body; re_flags := no_flags |}.
Proof. reflexivity. Qed.

Lemma in_status_body (n : nat) (line : jsstring) (st' : state) :
  In st' (run no_flags n status_body (line, []))
  <-> exists letter gap file,
        line = letter :: gap ++ file
        /\ is_status letter = true
        /\ gap <> [] /\ forallb is_space gap = true
        /\ file <> [] /\ forallb not_space file = true
        /\ st' = ([], [(2, file); (1, [letter])]).
Proof.
  unfold status_body. split.
  - intros H.
    apply ReFacts.in_run_seq in H. destruct H as [y1 [H1 H]].
    apply ReFacts.in_run_group in H1. destruct H1 as [y0 [H0 ->]].
    rewrite run_status in H0. apply ReFacts.in_char_step in H0.
    destruct H0 as [letter [E0 [Hl C0]]]. cbn [fst snd] in E0, C0.
    apply ReFacts.in_run_seq in H. destruct H as [y2 [H2 H]].
    apply (in_run_plus_class no_flags n ws is_space) in H2;
      [|apply ParserFacts.run_ws|reflexivity].
    destruct H2 as [x [s1 [E2 [Hx [Hs1 C2]]]]]. cbn [fst snd] in E2, C2.
    apply ReFacts.in_run_seq in H. destruct H as [y3 [H3 H]].
    apply ReFacts.in_run_group in H3. destruct H3 as [y3' [H3 ->]].
    apply (in_run_plus_class no_flags n (RSet false [CNotSpace]) not_space) in H3;
      [|apply run_not_space|reflexivity].
    destruct y2 as [t2 c2]. cbn [fst snd] in *.
    destruct H3 as [z [s2 [E3 [Hz [Hs2 C3]]]]].
    cbn [run fst] in H. destruct (fst y3') as [|q r] eqn:E4; [|destruct H].
    destruct H as [<-|[]].
    exists letter, (x :: s1), (z :: s2). rewrite app_nil_r in E3.
    repeat split.
    + rewrite E0, E2, E3. reflexivity.
    + exact Hl.
    + discriminate.
    + cbn [forallb]. rewrite Hx, Hs1. reflexivity.
    + discriminate.
    + cbn [forallb]. rewrite Hz, Hs2. reflexivity.
    + f_equal. rewrite C3, C2, C0.
      rewrite (ReFacts.consumed_app (t2, _) y3' (z :: s2))
        by (cbn [fst]; rewrite E4, app_nil_r; exact E3).
      rewrite (ReFacts.consumed_app (line, []) y0 [letter])
        by (cbn [fst app]; exact E0).
      reflexivity.
  - intros [letter [gap [file [-> [Hl [Hg [Hgs [Hf [Hfs ->]]]]]]]]].
    destruct gap as [|x s1]; [congruence|]. destruct file as [|z s2]; [congruence|].
    cbn [forallb] in Hgs, Hfs. apply andb_prop in Hgs, Hfs.
    destruct Hgs as [Hx Hs1]. destruct Hfs as [Hz Hs2].
    apply ReFacts.in_run_seq. exists (x :: s1 ++ z :: s2, [(1, [letter])]). split.
    { apply ReFacts.in_run_group. exists (x :: s1 ++ z :: s2, []). split.
      - rewrite run_status. unfold char_step. cbn [fst snd app]. rewrite Hl. now left.
      - cbn [fst snd]. f_equal. f_equal. f_equal.
        rewrite (ReFacts.consumed_app _ _ [letter]) by reflexivity. reflexivity. }
    apply ReFacts.in_run_seq. exists (z :: s2, [(1, [letter])]). split.
    { apply (in_run_plus_class no_flags n ws is_space);
        [apply ParserFacts.run_ws|reflexivity|].
      exists x, s1. cbn [fst snd]. auto. }
    apply ReFacts.in_run_seq. exists ([], [(2, z :: s2); (1, [letter])]). split.
    { apply ReFacts.in_run_group. exists ([], [(1, [letter])]). split.
      - apply (in_run_plus_class no_flags n (RSet false [CNotSpace]) not_space);
          [apply run_not_space|reflexivity|].
        exists z, s2. cbn [fst snd]. rewrite app_nil_r. auto.
      - cbn [fst snd]. f_equal. f_equal. f_equal.
        rewrite (ReFacts.consumed_app _ _ (z :: s2))
          by (cbn [fst]; rewrite app_nil_r; reflexivity).
        reflexivity. }
    cbn [run fst]. now left.
Qed.

(** The white space between the letter and the path is all the white
    space there is: a line has one reading at most. *)
Lemma gap_unique (gap gap' file file' : jsstring) :
  gap ++ file = gap' ++ file' ->
  forallb is_space gap = true -> forallb is_space gap' = true ->
  file <> [] -> forallb not_space file = true ->
  file' <> [] -> forallb not_space file' = true ->
  gap = gap' /\ file = file'.
Proof.
  revert gap'. induction gap as [|x gap IH]; intros gap' E Hg Hg' Hf Hfs Hf' Hfs'.
  - destruct gap' as [|y gap']; [auto|]. exfalso.
    destruct file as [|z file]; [congruence|]. cbn [app] in E. injection E as -> _.
    cbn [forallb] in Hfs, Hg'. apply andb_prop in Hfs, Hg'.
    unfold not_space in Hfs. destruct Hfs as [Hz _], Hg' as [Hy _].
    rewrite Hy in Hz. discriminate.
  - destruct gap' as [|y gap'].
    + exfalso. destruct file' as [|z file']; [congruence|]. cbn [app] in E.
      injection E as -> _.
      cbn [forallb] in Hfs', Hg. apply andb_prop in Hfs', Hg.
      unfold not_space in Hfs'. destruct Hfs' as [Hz _], Hg as [Hx _].
      rewrite Hx in Hz. discriminate.
    + cbn [app] in E. injection E as -> E.
      cbn [forallb] in Hg, Hg'. apply andb_prop in Hg, Hg'.
      destruct (IH gap' E (proj2 Hg) (proj2 Hg') Hf Hfs Hf' Hfs') as [-> ->].
      auto.
Qed.

Lemma hd_error_none_in {A : Type} (l : list A) (x : A) :
  hd_error l = None -> In x l -> False.
Proof. destruct l; [intros _ []|discriminate]. Qed.

(** X18. A line of the listing is read as a changed file exactly when it
    is one status letter among A, M, D, R and T, then white space, then a
    path without white space up to the end of the line; the status is the
    letter and the file is the path. A rename line (a letter with a score
    and two paths), a path with a blank in it and a line that ends with a
    carriage return are not read. *)
Theorem status_line_shape (line status file : jsstring) :
  status_line line = Some (status, file) <-> status_shape line status file.
Proof.
  unfold status_line, exec. rewrite name_status_shape, Glob.search_from_eq.
  unfold match_here. cbn [pattern re_flags run fst]. rewrite Nat.eqb_refl.
  cbn [flat_map]. rewrite app_nil_r.
  destruct (hd_error (run no_flags (length line) status_body (line, [])))
    as [st'|] eqn:E.
  - apply ReFacts.hd_error_in in E. apply in_status_body in E.
    destruct E as [letter [gap [f [-> [Hl [Hg [Hgs [Hf [Hfs ->]]]]]]]]].
    unfold Provider.group_text, group. cbn [m_groups snd capture Nat.eqb].
    split.
    + intros [= <- <-]. exists letter, gap. auto 10.
    + intros [letter' [gap' [E [-> [Hl' [Hg' [Hgs' [Hf' Hfs']]]]]]]].
      injection E as <- E.
      destruct (gap_unique _ _ _ _ E Hgs Hgs' Hf Hfs Hf' Hfs') as [_ ->].
      reflexivity.
  - split.
    + destruct line as [|x s]; [discriminate|].
      rewrite Glob.search_after_begin by (cbn [length]; lia). discriminate.
    + intros [letter [gap [-> [-> [Hl [Hg [Hgs [Hf Hfs]]]]]]]]. exfalso.
      assert (Hin : In ([], [(2, file); (1, [letter])])
                       (run no_flags (length (letter :: gap ++ file)) status_body
                            (letter :: gap ++ file, []))).
      { apply in_status_body. exists letter, gap, file. auto 10. }
      exact (hd_error_none_in _ _ E Hin).
Qed.

(** *** The diffs of the working tree *)

Section Platform.

Variable World : Type.
Variable isNode : bool.
Variable cwd : jsstring.
Variable resolve : jsstring -> jsstring -> jsstring.
Variable execAsync : jsstring -> jsstring -> World -> completion jsstring * World.
Variable readFile : jsstring -> World -> completion jsstring * World.
Variable path : jsstring.
Variable commitSha : option jsstring.

Abbreviation getCodeDiffs :=
  (Local.getCodeDiffs World isNode cwd resolve execAsync readFile path commitSha).
Abbreviation collect :=
  (Local.collect World isNode cwd resolve execAsync readFile path commitSha).
Abbreviation getFileContent :=
  (Local.getFileContent World isNode cwd resolve readFile path).
Abbreviation list_command := (Local.list_command commitSha).

Lemma never_throws_getFileContent (filePath : jsstring) :
  never_throws World (getFileContent filePath).
Proof.
  unfold Local.getFileContent. apply Runs.never_throws_catch. intros error.
  apply Runs.never_throws_and_then; [apply Runs.never_throws_emit|intros _].
  apply Runs.never_throws_ret.
Qed.

Lemma never_throws_collect (files : list (jsstring * jsstring)) (diffs : list RawDiff) :
  never_throws World (collect files diffs).
Proof.
  revert diffs. induction files as [|[status file] rest IH]; intros diffs;
    cbn [Local.collect]; [apply Runs.never_throws_ret|].
  destruct (JS.eqb status (u "D")); [apply IH|].
  apply Runs.never_throws_and_then; [|intros diffs'; apply IH].
  apply Runs.never_throws_catch. intros error.
  apply Runs.never_throws_and_then; [apply Runs.never_throws_emit|intros _].
  apply Runs.never_throws_ret.
Qed.

(** X19. [getCodeDiffs] of the local platform ends in an exception only
    when the command that lists the changed files does: a failure of the
    diff command of one file, or of reading its content, is logged and
    that file is left out, the others are still returned. *)
Theorem local_failure_is_the_listing (w : World) (d : jsstring) :
  outcome World (getCodeDiffs w) = Throw d ->
  isNode = true
  /\ exists w', execAsync list_command path w = (Throw d, w').
Proof.
  unfold Local.getCodeDiffs, catch, outcome.
  destruct (negb isNode) eqn:En.
  { unfold and_then, emit, ret. cbn [fst]. discriminate. }
  apply negb_false_iff in En.
  match goal with
  | |- fst (fst (match ?m w with _ => _ end)) = _ -> _ =>
    destruct (m w) as [[[diffs|e|] w1] t1] eqn:E
  end; cbn [fst]; try discriminate.
  unfold and_then at 1, emit at 1, throw, lift. cbn [fst]. intros [= ->].
  split; [exact En|].
  apply Runs.and_then_throw in E. destruct E as [E|[[] [w2 [t2 [t3 [E2 [E _]]]]]]];
    [discriminate|].
  injection E2 as <- _.
  apply Runs.and_then_throw in E.
  destruct E as [E|[stdout [w3 [t4 [t5 [_ [E _]]]]]]].
  - unfold call in E. destruct (execAsync list_command path w) as [r w'].
    injection E as -> -> _. now exists w1.
  - exfalso. pose proof (never_throws_collect (changed_files stdout) [] w3) as N.
    unfold outcome in N. rewrite E in N. exact N.
Qed.

(** What [collect] adds comes from the files it is given. *)
Lemma collect_shape (files : list (jsstring * jsstring)) :
  forall (acc diffs : list RawDiff) (w : World),
    outcome World (collect files acc w) = Normal diffs ->
    exists added,
      diffs = acc ++ added
      /\ Forall (fun diff =>
                   r_oldPath diff = r_newPath diff
                   /\ r_oldContent diff = []
                   /\ r_language diff = Language.detectLanguage (r_newPath diff)
                   /\ exists status,
                        In (status, r_newPath diff) files
                        /\ JS.eqb status (u "D") = false)
                added.
Proof.
  induction files as [|[status file] rest IH]; intros acc diffs w;
    cbn [Local.collect].
  - unfold ret, outcome. cbn [fst]. intros [= <-]. exists [].
    rewrite app_nil_r. auto.
  - destruct (JS.eqb status (u "D")) eqn:Ed.
    + intros H. destruct (IH acc diffs w H) as [added [-> Hall]].
      exists added. split; [reflexivity|].
      eapply Forall_impl; [|exact Hall].
      intros diff [H1 [H2 [H3 [st [Hin Hst]]]]]. repeat split; try assumption.
      exists st. split; [right; exact Hin|exact Hst].
    + unfold outcome. intros H.
      destruct (and_then World _ _ w) as [[r w'] t] eqn:E in H. cbn [fst] in H.
      subst r. apply Runs.and_then_normal in E.
      destruct E as [acc' [w1 [t1 [t2 [E1 [E2 _]]]]]].
      assert (Hacc : acc' = acc
                     \/ exists newContent diffOutput,
                          acc' = acc ++ [ {| r_oldPath := file; r_newPath := file;
                                             r_oldContent := [];
                                             r_newContent := newContent;
                                             r_diffContent := diffOutput;
                                             r_language := Language.detectLanguage file |} ]).
      { unfold catch in E1.
        match type of E1 with
        | match ?m w with _ => _ end = _ =>
          destruct (m w) as [[[x|e|] w2] t3] eqn:E3
        end.
        - injection E1 as -> _ _. right.
          apply Runs.and_then_normal in E3.
          destruct E3 as [diffOutput [w3 [t4 [t5 [_ [E3 _]]]]]].
          apply Runs.and_then_normal in E3.
          destruct E3 as [newContent [w4 [t6 [t7 [_ [E3 _]]]]]].
          injection E3 as <- _ _. now exists newContent, diffOutput.
        - unfold and_then, emit, ret in E1. injection E1 as <- _ _. now left.
        - discriminate. }
      assert (H2 : outcome World (collect rest acc' w1) = Normal diffs)
        by (unfold outcome; rewrite E2; reflexivity).
      destruct (IH acc' diffs w1 H2) as [added [-> Hall]].
      assert (Hall' : Forall
                (fun diff =>
                   r_oldPath diff = r_newPath diff
                   /\ r_oldContent diff = []
                   /\ r_language diff = Language.detectLanguage (r_newPath diff)
                   /\ exists st,
                        In (st, r_newPath diff) ((status, file) :: rest)
                        /\ JS.eqb st (u "D") = false)
                added).
      { eapply Forall_impl; [|exact Hall].
        intros diff [H1 [H3 [H4 [st [Hin Hst]]]]]. repeat split; try assumption.
        exists st. split; [right; exact Hin|exact Hst]. }
      destruct Hacc as [->|[newContent [diffOutput ->]]].
      * exists added. auto.
      * eexists. rewrite <- app_assoc. split; [reflexivity|].
        cbn [app]. constructor; [|exact Hall'].
        cbn [r_oldPath r_newPath r_oldContent r_language]. repeat split.
        exists status. split; [now left|exact Ed].
Qed.

(** X20. Every diff the local platform returns is for a file of the
    listing whose status is not D: a deleted file gives no diff. Its old
    path is its new path and its old content is empty, whatever the
    change was, and its language is what [detectLanguage] gives for the
    path. Outside Node.js the list is empty and no command is run. *)
Theorem local_diffs_shape (w : World) (diffs : list RawDiff) :
  outcome World (getCodeDiffs w) = Normal diffs ->
  (isNode = false /\ diffs = [] /\ Forall (fun e => match e with
                                                    | Exec _ _ => False
                                                    | _ => True
                                                    end)
                                          (events World (getCodeDiffs w)))
  \/ (isNode = true
      /\ exists stdout w',
           execAsync list_command path w = (Normal stdout, w')
           /\ Forall (fun diff =>
                        r_oldPath diff = r_newPath diff
                        /\ r_oldContent diff = []
                        /\ r_language diff = Language.detectLanguage (r_newPath diff)
                        /\ exists status,
                             In (status, r_newPath diff) (changed_files stdout)
                             /\ JS.eqb status (u "D") = false)
                     diffs).
Proof.
  unfold Local.getCodeDiffs, catch, outcome, events.
  destruct (negb isNode) eqn:En.
  { unfold and_then, emit, ret. cbn [fst snd]. intros [= <-]. left.
    apply negb_true_iff in En. repeat split; [exact En|]. repeat constructor. }
  apply negb_false_iff in En.
  match goal with
  | |- fst (fst (match ?m w with _ => _ end)) = _ -> _ =>
    destruct (m w) as [[[ds|e|] w1] t1] eqn:E
  end; cbn [fst]; try discriminate.
  intros [= ->]. right. split; [exact En|].
  apply Runs.and_then_normal in E. destruct E as [[] [w2 [t2 [t3 [E2 [E _]]]]]].
  injection E2 as <- _.
  apply Runs.and_then_normal in E. destruct E as [stdout [w3 [t4 [t5 [E3 [E _]]]]]].
  exists stdout, w3. split.
  - unfold call in E3. destruct (execAsync list_command path w) as [r w'].
    now injection E3 as -> ->.
  - assert (H : outcome World (collect (changed_files stdout) [] w3) = Normal diffs)
      by (unfold outcome; rewrite E; reflexivity).
    destruct (collect_shape _ _ _ _ H) as [added [-> Hall]]. exact Hall.
Qed.

End Platform.

Lemma example_offline_throws :
  outcome unit
    (Local.getCodeDiffs unit true (u "/repo") example_resolve example_offline
       example_readFile (u "/repo") None tt)
  = Throw (u "Error: not a git repository").
Proof. vm_compute. reflexivity. Qed.

Lemma local_failure_is_the_listing_witness :
  true = true
  /\ exists w',
       example_offline (Local.list_command None) (u "/repo") tt
       = (Throw (u "Error: not a git repository"), w').
Proof.
  exact (local_failure_is_the_listing unit true (u "/repo") example_resolve
           example_offline example_readFile (u "/repo") None tt
           (u "Error: not a git repository") example_offline_throws).
Defined.

(** One failing diff command: the listing still returns, without the file. *)
Lemma example_local_fails :
  outcome unit (example_local true) = Normal [].
Proof. vm_compute. reflexivity. Qed.

Lemma example_local_diffs :
  outcome unit
    (Local.getCodeDiffs unit true (u "/repo") example_resolve (example_exec false)
       example_readFile (u "/repo") None tt)
  = Normal [ {| r_oldPath := u "src/a.ts"; r_newPath := u "src/a.ts";
                r_oldContent := []; r_newContent := u "content";
                r_diffContent := u "+x";
                r_language := Some (Language.Text (u "typescript")) |} ].
Proof. vm_compute. reflexivity. Qed.

Lemma local_diffs_shape_witness :
  (true = false
   /\ [ {| r_oldPath := u "src/a.ts"; r_newPath := u "src/a.ts";
           r_oldContent := []; r_newContent := u "content";
           r_diffContent := u "+x";
           r_language := Some (Language.Text (u "typescript")) |} ] = []
   /\ Forall (fun e => match e with
                       | Exec _ _ => False
                       | _ => True
                       end)
             (events unit
                (Local.getCodeDiffs unit true (u "/repo") example_resolve
                   (example_exec false) example_readFile (u "/repo") None tt)))
  \/ (true = true
      /\ exists stdout w',
           example_exec false (Local.list_command None) (u "/repo") tt
           = (Normal stdout, w')
           /\ Forall (fun diff =>
                        r_oldPath diff = r_newPath diff
                        /\ r_oldContent diff = []
                        /\ r_language diff = Language.detectLanguage (r_newPath diff)
                        /\ exists status,
                             In (status, r_newPath diff) (changed_files stdout)
                             /\ JS.eqb status (u "D") = false)
                     [ {| r_oldPath := u "src/a.ts"; r_newPath := u "src/a.ts";
                          r_oldContent := []; r_newContent := u "content";
                          r_diffContent := u "+x";
                          r_language := Some (Language.Text (u "typescript")) |} ]).
Proof.
  exact (local_diffs_shape unit true (u "/repo") example_resolve
           (example_exec false) example_readFile (u "/repo") None tt _
           example_local_diffs).
Defined.

End LocalFacts.

(* ================================================================== *)
(** ** The saved results are read back *)
(* ================================================================== *)

Module SavedResults.
Import JSONText.

(** Induction on a value and the values it holds. *)
Lemma json_induction (P : json -> Prop) :
  P JNull -> (forall b, P (JBool b)) -> (forall n, P (JNum n)) ->
  (forall s, P (JStr s)) ->
  (forall items, Forall P items -> P (JArr items)) ->
  (forall members, Forall (fun kv => P (snd kv)) members -> P (JObj members)) ->
  forall v, P v.
Proof.
  intros HN HB HNu HS HA HO. fix IH 1. intros [ | b | n | s | items | members].
  - exact HN.
  - apply HB.
  - apply HNu.
  - apply HS.
  - apply HA. induction items as [|x r IHr]; constructor; [apply IH | exact IHr].
  - apply HO. induction members as [|kv r IHr]; constructor; [apply IH | exact IHr].
Qed.

Lemma lex_run_app (s t : jsstring) (st : lex_state) :
  lex_run st (s ++ t)
  = match lex_run st s with Some st' => lex_run st' t | None => None end.
Proof.
  revert st. induction s as [|c s IH]; intros st; cbn [app lex_run].
  - reflexivity.
  - destruct (lex_step st c); [apply IH | reflexivity].
Qed.

(** *** Numbers *)

Lemma is_digit_range (c : cu) :
  is_digit c = true <-> (48 <= c <= 57)%N.
Proof.
  unfold is_digit. rewrite andb_true_iff, !N.leb_le. reflexivity.
Qed.

Lemma digits_fuel_shape (fuel : nat) :
  forall n acc, (n < 2 ^ N.of_nat fuel)%N -> fuel <> O ->
  exists d t,
    digits_fuel fuel n acc = (d :: t) ++ acc
    /\ Forall (fun c => is_digit c = true) (d :: t)
    /\ digits_value (d :: t) = n
    /\ (d = 48%N -> n = 0%N /\ t = []).
Proof.
  induction fuel as [|f IH]; intros n acc Hn Hf.
  - contradiction.
  - cbn [digits_fuel]. destruct (n <? 10)%N eqn:E.
    + apply N.ltb_lt in E. exists (48 + n mod 10)%N, [].
      rewrite N.mod_small by exact E.
      split; [reflexivity|]. split.
      * constructor; [|constructor]. apply is_digit_range. lia.
      * split; [unfold digits_value; cbn [fold_left]; lia | intros; split; [lia | reflexivity]].
    + apply N.ltb_ge in E.
      assert (Hdm : (n = 10 * (n / 10) + n mod 10)%N) by (apply N.div_mod; lia).
      assert (Hr : (n mod 10 < 10)%N) by (apply N.mod_upper_bound; lia).
      rewrite Nat2N.inj_succ, N.pow_succ_r' in Hn.
      remember (n / 10)%N as q eqn:Eq. remember (n mod 10)%N as r eqn:Er.
      assert (Hq : (q < 2 ^ N.of_nat f)%N) by lia.
      assert (Hf' : f <> O).
      { intros ->. change (2 ^ N.of_nat 0)%N with 1%N in Hq. lia. }
      destruct (IH q ((48 + r)%N :: acc) Hq Hf') as (d & t & Hd & Hall & Hv & Hz).
      exists d, (t ++ [(48 + r)%N]). split.
      { rewrite Hd. cbn [app]. rewrite <- app_assoc. reflexivity. }
      split.
      { change (d :: t ++ [(48 + r)%N]) with ((d :: t) ++ [(48 + r)%N]).
        apply Forall_app. split; [exact Hall|].
        constructor; [|constructor]. apply is_digit_range. lia. }
      split.
      { change (d :: t ++ [(48 + r)%N]) with ((d :: t) ++ [(48 + r)%N]).
        unfold digits_value in *. rewrite fold_left_app.
        assert (G : forall x : N, x = q -> (x * 10 + (48 + r - 48) = n)%N)
          by (intros; lia).
        apply G. exact Hv. }
      intros H48. destruct (Hz H48) as [Hq0 _]. exfalso. lia.
Qed.

Lemma String_of_N_shape (n : N) :
  exists d t,
    String_of_N n = d :: t
    /\ Forall (fun c => is_digit c = true) (d :: t)
    /\ digits_value (d :: t) = n
    /\ (d = 48%N -> n = 0%N /\ t = []).
Proof.
  unfold String_of_N.
  destruct (digits_fuel_shape (S (N.to_nat (N.log2 n))) n []) as (d & t & H & R).
  - rewrite Nat2N.inj_succ, N2Nat.id.
    destruct (N.eq_dec n 0) as [->|Hn]; [reflexivity|].
    apply N.log2_spec. lia.
  - discriminate.
  - exists d, t. rewrite H, app_nil_r. split; [reflexivity | exact R].
Qed.

Lemma number_of_digits (ds : jsstring) :
  forall a,
    number_of (fold_left push_digit ds a)
    = {| neg := a_neg a;
         mantissa := fold_left (fun acc c => (acc * 10 + (c - 48))%N) ds (a_mant a);
         exponent := exponent (number_of a) |}.
Proof.
  induction ds as [|c ds IH]; intros a; cbn [fold_left].
  - destruct a; reflexivity.
  - rewrite IH. destruct a; reflexivity.
Qed.

Lemma lex_int_digits (ds : jsstring) :
  forall a toks rest,
    Forall (fun c => is_digit c = true) ds ->
    lex_run (LNumber NInt a, toks) (ds ++ rest)
    = lex_run (LNumber NInt (fold_left push_digit ds a), toks) rest.
Proof.
  induction ds as [|c ds IH]; intros a toks rest Hall; cbn [app fold_left].
  - reflexivity.
  - inversion Hall as [|? ? Hc Hds]; subst.
    cbn [lex_run lex_step lex_number]. rewrite Hc. apply IH. exact Hds.
Qed.

Lemma lex_idle_digit (c : cu) (toks : list token) :
  is_digit c = true ->
  lex_idle toks c
  = if (c =? 48)%N then Some (LNumber NZero (new_acc false), toks)
    else Some (LNumber NInt (push_digit (new_acc false) c), toks).
Proof.
  intros Hc. pose proof (proj1 (is_digit_range c) Hc) as R.
  unfold lex_idle, json_space. rewrite Hc.
  repeat match goal with
         | |- context [(c =? ?k)%N] =>
           lazymatch k with
           | 48%N => fail
           | _ => replace (c =? k)%N with false by (symmetry; apply N.eqb_neq; lia)
           end
         end.
  cbn [orb]. reflexivity.
Qed.

(** After the digits of [n] the lexer holds the number [n]. *)
Lemma lex_natural (n : N) :
  exists ph a,
    (ph = NZero \/ ph = NInt)
    /\ number_of a = nat_number n
    /\ forall toks rest,
         lex_run (LIdle, toks) (String_of_N n ++ rest)
         = lex_run (LNumber ph a, toks) rest.
Proof.
  destruct (String_of_N_shape n) as (d & t & -> & Hall & Hv & Hz).
  inversion Hall as [|? ? Hd Ht]; subst.
  destruct (N.eq_dec d 48) as [->|Hd48].
  - destruct (Hz eq_refl) as [-> ->].
    exists NZero, (new_acc false). split; [left; reflexivity|].
    split; [reflexivity|]. intros toks rest. reflexivity.
  - exists NInt, (fold_left push_digit t (push_digit (new_acc false) d)).
    split; [right; reflexivity|]. split.
    + rewrite number_of_digits. unfold nat_number. reflexivity.
    + intros toks rest. cbn [app lex_run lex_step].
      rewrite (lex_idle_digit d toks Hd).
      apply N.eqb_neq in Hd48. rewrite Hd48.
      apply lex_int_digits. exact Ht.
Qed.

Lemma lex_number_ends (ph : num_phase) (a : num_acc) (toks : list token) (c : cu) :
  ph = NZero \/ ph = NInt -> ends_number c = true ->
  lex_step (LNumber ph a, toks) c = lex_step (LIdle, TNumber (number_of a) :: toks) c.
Proof.
  unfold ends_number. rewrite !andb_true_iff, !negb_true_iff.
  intros [-> | ->] [[Hd Hp] He]; cbn [lex_step lex_number lex_number_end];
    rewrite ?Hd, Hp, He; reflexivity.
Qed.

(** *** Strings *)

Lemma hex_value_digit (d : N) :
  (d < 16)%N -> hex_value (hex_digit d) = Some d.
Proof.
  intros Hd. unfold hex_digit, hex_value, is_digit.
  destruct (N.ltb_spec d 10).
  - replace (48 <=? 48 + d)%N with true by (symmetry; apply N.leb_le; lia).
    replace (48 + d <=? 57)%N with true by (symmetry; apply N.leb_le; lia).
    cbn [andb]. f_equal. lia.
  - replace (87 + d <=? 57)%N with false by (symmetry; apply N.leb_gt; lia).
    replace (87 + d <=? 70)%N with false by (symmetry; apply N.leb_gt; lia).
    replace (97 <=? 87 + d)%N with true by (symmetry; apply N.leb_le; lia).
    replace (87 + d <=? 102)%N with true by (symmetry; apply N.leb_le; lia).
    rewrite !andb_false_r. cbn [andb]. f_equal. lia.
Qed.

Lemma hex_digits_value (c : cu) :
  (c < 65536)%N ->
  (c / 4096 < 16)%N /\ ((c / 256) mod 16 < 16)%N /\ ((c / 16) mod 16 < 16)%N
  /\ (c mod 16 < 16)%N
  /\ (((c / 4096 * 16 + (c / 256) mod 16) * 16 + (c / 16) mod 16) * 16 + c mod 16 = c)%N.
Proof.
  intros Hc.
  assert (H1 : (c = 16 * (c / 16) + c mod 16)%N) by (apply N.div_mod; lia).
  assert (H2 : (c / 16 = 16 * (c / 16 / 16) + (c / 16) mod 16)%N) by (apply N.div_mod; lia).
  assert (H3 : (c / 256 = 16 * (c / 256 / 16) + (c / 256) mod 16)%N) by (apply N.div_mod; lia).
  assert (B1 : (c mod 16 < 16)%N) by (apply N.mod_upper_bound; lia).
  assert (B2 : ((c / 16) mod 16 < 16)%N) by (apply N.mod_upper_bound; lia).
  assert (B3 : ((c / 256) mod 16 < 16)%N) by (apply N.mod_upper_bound; lia).
  assert (D1 : (c / 16 / 16 = c / 256)%N) by (rewrite N.Div0.div_div; reflexivity).
  assert (D2 : (c / 256 / 16 = c / 4096)%N) by (rewrite N.Div0.div_div; reflexivity).
  rewrite D1 in H2. rewrite D2 in H3.
  remember (c mod 16)%N as r1. remember ((c / 16) mod 16)%N as r2.
  remember ((c / 256) mod 16)%N as r3.
  remember (c / 16)%N as q1. remember (c / 256)%N as q2. remember (c / 4096)%N as q3.
  repeat split; lia.
Qed.

Lemma lex_unicode_escape (c : cu) (acc : jsstring) (toks : list token) (rest : jsstring) :
  (c < 65536)%N ->
  lex_run (LString acc, toks) (unicode_escape c ++ rest)
  = lex_run (LString (c :: acc), toks) rest.
Proof.
  intros Hc. destruct (hex_digits_value c Hc) as (B4 & B3 & B2 & B1 & E).
  unfold unicode_escape. cbn [app lex_run].
  change (lex_step (LString acc, toks) 92%N) with (Some (LEscape acc, toks)).
  cbv beta iota.
  change (lex_step (LEscape acc, toks) 117%N) with (Some (LUnicode acc [], toks)).
  cbv beta iota. cbn [lex_step].
  rewrite (hex_value_digit _ B4). cbn [app lex_run lex_step].
  rewrite (hex_value_digit _ B3). cbn [app lex_run lex_step].
  rewrite (hex_value_digit _ B2). cbn [app lex_run lex_step].
  rewrite (hex_value_digit _ B1). rewrite E. reflexivity.
Qed.

Lemma lex_literal (c : cu) (acc : jsstring) (toks : list token) :
  c <> 34%N -> c <> 92%N -> (32 <= c)%N ->
  lex_step (LString acc, toks) c = Some (LString (c :: acc), toks).
Proof.
  intros H1 H2 H3. cbn [lex_step].
  apply N.eqb_neq in H1. apply N.eqb_neq in H2. rewrite H1, H2.
  replace (c <? 32)%N with false by (symmetry; apply N.ltb_ge; exact H3).
  reflexivity.
Qed.

Lemma lex_quote_unit (c : cu) (acc : jsstring) (toks : list token) (rest : jsstring) :
  (c < 65536)%N ->
  lex_run (LString acc, toks) (quote_unit c ++ rest)
  = lex_run (LString (c :: acc), toks) rest.
Proof.
  intros Hc. unfold quote_unit.
  destruct (N.eqb_spec c 8) as [->|N8]; [reflexivity|].
  destruct (N.eqb_spec c 9) as [->|N9]; [reflexivity|].
  destruct (N.eqb_spec c 10) as [->|N10]; [reflexivity|].
  destruct (N.eqb_spec c 12) as [->|N12]; [reflexivity|].
  destruct (N.eqb_spec c 13) as [->|N13]; [reflexivity|].
  destruct (N.eqb_spec c 34) as [->|N34]; [reflexivity|].
  destruct (N.eqb_spec c 92) as [->|N92]; [reflexivity|].
  destruct (N.ltb_spec c 32) as [Lt|Ge].
  - apply lex_unicode_escape. exact Hc.
  - cbn [app lex_run]. rewrite (lex_literal c acc toks N34 N92 Ge). reflexivity.
Qed.

Lemma leading_range (c : cu) : is_leading c = true -> (55296 <= c <= 56319)%N.
Proof.
  unfold is_leading. rewrite andb_true_iff, !N.leb_le. tauto.
Qed.

Lemma trailing_range (c : cu) : is_trailing c = true -> (56320 <= c <= 57343)%N.
Proof.
  unfold is_trailing. rewrite andb_true_iff, !N.leb_le. tauto.
Qed.

Lemma lex_quote_units_upto (n : nat) :
  forall s acc toks rest,
    (length s <= n)%nat -> units s ->
    lex_run (LString acc, toks) (quote_units s ++ rest)
    = lex_run (LString (rev s ++ acc), toks) rest.
Proof.
  induction n as [|n IH]; intros s acc toks rest Hlen Hu.
  - destruct s; [reflexivity | cbn [length] in Hlen; lia].
  - destruct s as [|c t]; [reflexivity|].
    inversion Hu as [|? ? Hc Ht]; subst.
    cbn [length] in Hlen. cbn [quote_units rev]. rewrite <- app_assoc. cbn [app].
    destruct (is_leading c) eqn:Lc.
    + apply leading_range in Lc. destruct t as [|d t'].
      * rewrite lex_unicode_escape by exact Hc. reflexivity.
      * inversion Ht as [|? ? Hd Ht']; subst.
        destruct (is_trailing d) eqn:Td.
        -- apply trailing_range in Td. cbn [app lex_run].
           rewrite (lex_literal c acc toks) by lia. cbv beta iota.
           rewrite (lex_literal d (c :: acc) toks) by lia. cbv beta iota.
           cbn [length] in Hlen. rewrite IH by (try exact Ht'; lia).
           cbn [rev]. rewrite <- !app_assoc. reflexivity.
        -- rewrite <- app_assoc, lex_unicode_escape by exact Hc.
           rewrite IH by (try exact Ht; lia).
           cbn [rev]. rewrite <- !app_assoc. reflexivity.
    + destruct (is_trailing c) eqn:Tc.
      * rewrite <- app_assoc, lex_unicode_escape by exact Hc.
        apply IH; [lia | exact Ht].
      * rewrite <- app_assoc, lex_quote_unit by exact Hc.
        apply IH; [lia | exact Ht].
Qed.

Lemma lex_QuoteJSONString (s : jsstring) (toks : list token) (rest : jsstring) :
  units s ->
  lex_run (LIdle, toks) (QuoteJSONString s ++ rest)
  = lex_run (LIdle, TString s :: toks) rest.
Proof.
  intros Hu. unfold QuoteJSONString. cbn [app lex_run].
  change (lex_step (LIdle, toks) 34%N) with (Some (LString [], toks)).
  cbv beta iota. rewrite <- app_assoc.
  rewrite (lex_quote_units_upto (length s)) by (try exact Hu; lia).
  cbn [app lex_run lex_step]. change (34 =? 34)%N with true. cbv beta iota.
  rewrite app_nil_r, rev_involutive. reflexivity.
Qed.

(** *** Values *)

Lemma lex_blank (s : jsstring) (toks : list token) (rest : jsstring) :
  blank s -> lex_run (LIdle, toks) (s ++ rest) = lex_run (LIdle, toks) rest.
Proof.
  induction 1 as [|c s Hc _ IH]; [reflexivity|].
  cbn [app lex_run lex_step]. unfold lex_idle. rewrite Hc. exact IH.
Qed.

Lemma blank_app (a b : jsstring) : blank a -> blank b -> blank (a ++ b).
Proof. intros Ha Hb. apply Forall_app. split; assumption. Qed.

Lemma blank_gap : blank gap.
Proof. repeat constructor. Qed.

Lemma blank_nl : blank nl.
Proof. repeat constructor. Qed.

Lemma join_cons (sep p : jsstring) (ps : list jsstring) :
  JS.join sep (p :: ps) = p ++ concat (map (app sep) ps).
Proof.
  revert p. induction ps as [|q ps IH]; intros p.
  - cbn [JS.join map concat]. rewrite app_nil_r. reflexivity.
  - change (JS.join sep (p :: q :: ps)) with (p ++ sep ++ JS.join sep (q :: ps)).
    rewrite IH. cbn [map concat]. rewrite <- app_assoc. reflexivity.
Qed.

Lemma between_cons (t : list token) (ts : list (list token)) :
  between (t :: ts) = t ++ concat (map (cons TComma) ts).
Proof.
  revert t. induction ts as [|q ts IH]; intros t.
  - cbn [between map concat]. rewrite app_nil_r. reflexivity.
  - change (between (t :: q :: ts)) with (t ++ TComma :: between (q :: ts)).
    rewrite IH. reflexivity.
Qed.

Lemma delimited_follows (v : json) (rest : jsstring) :
  delimited rest -> follows v rest.
Proof. intros H. destruct v; cbn [follows]; trivial. Qed.

Lemma delimited_tail (sep : jsstring) (ps : list jsstring) (rest : jsstring) :
  delimited rest -> delimited ((44%N :: sep) ++ rest) ->
  delimited (concat (map (app (44%N :: sep)) ps) ++ rest).
Proof.
  intros Hr _. destruct ps as [|p ps]; [exact Hr | reflexivity].
Qed.

(** The pieces after the first one, each behind its comma. *)
Lemma lex_tail (indent : jsstring) (ps : list jsstring) (ts : list (list token)) :
  blank indent -> Forall2 lexes_to ps ts ->
  forall toks rest, delimited rest ->
    lex_run (LIdle, toks)
            (concat (map (app (u "," ++ nl ++ indent)) ps) ++ rest)
    = lex_run (LIdle, rev (concat (map (cons TComma) ts)) ++ toks) rest.
Proof.
  intros Hb H. induction H as [|p t ps ts Hp _ IH]; intros toks rest Hr.
  - reflexivity.
  - cbn [map concat]. rewrite <- !app_assoc.
    change (u "," ++ nl ++ indent ++ p ++ concat (map (app (u "," ++ nl ++ indent)) ps) ++ rest)
      with (44%N :: 10%N :: indent ++ p ++ concat (map (app (u "," ++ nl ++ indent)) ps) ++ rest).
    cbn [lex_run].
    change (lex_step (LIdle, toks) 44%N) with (Some (LIdle, TComma :: toks)).
    cbv beta iota.
    change (lex_step (LIdle, TComma :: toks) 10%N) with (Some (LIdle, TComma :: toks)).
    cbv beta iota.
    rewrite lex_blank by exact Hb.
    rewrite Hp.
    + rewrite IH by exact Hr. rewrite rev_app_distr. cbn [rev].
      rewrite <- !app_assoc. reflexivity.
    + destruct ps as [|q ps]; [exact Hr | reflexivity].
Qed.

(** The pieces between an opening and a closing bracket. *)
Lemma lex_wrap (o c : cu) (To Tc : token) (indent : jsstring)
    (ps : list jsstring) (ts : list (list token)) :
  (forall toks, lex_step (LIdle, toks) o = Some (LIdle, To :: toks)) ->
  (forall toks, lex_step (LIdle, toks) c = Some (LIdle, Tc :: toks)) ->
  blank indent -> Forall2 lexes_to ps ts ->
  forall toks rest,
    lex_run (LIdle, toks) (wrap [o] [c] indent ps ++ rest)
    = lex_run (LIdle, rev (To :: between ts ++ [Tc]) ++ toks) rest.
Proof.
  intros Ho Hc Hb H toks rest. destruct H as [|p t ps ts Hp Hps].
  - cbn [wrap app lex_run]. rewrite Ho, Hc. reflexivity.
  - cbn [wrap]. rewrite join_cons, between_cons. rewrite <- !app_assoc.
    cbn [app lex_run]. rewrite Ho.
    rewrite (lex_blank nl) by exact blank_nl.
    rewrite lex_blank by exact Hb. rewrite lex_blank by exact blank_gap.
    rewrite Hp.
    + rewrite (lex_tail (indent ++ gap) ps ts (blank_app _ _ Hb blank_gap) Hps)
        by reflexivity.
      rewrite (lex_blank nl) by exact blank_nl.
      rewrite lex_blank by exact Hb.
      cbn [app lex_run]. rewrite Hc. cbn [rev].
      rewrite !rev_app_distr. cbn [rev app]. rewrite <- !app_assoc. reflexivity.
    + destruct ps as [|q ps]; reflexivity.
Qed.

Lemma all_some_map {A B : Type} (f : A -> option B) (l : list A) :
  forall parts, all_some (map f l) = Some parts ->
  Forall2 (fun x p => f x = Some p) l parts.
Proof.
  induction l as [|x l IH]; intros parts H; cbn [map all_some fold_right] in H.
  - injection H as <-. constructor.
  - fold (all_some (map f l)) in H.
    destruct (f x) as [a|] eqn:Ea; [|discriminate].
    destruct (all_some (map f l)) as [b|]; [|discriminate].
    injection H as <-. constructor; [exact Ea | apply IH; reflexivity].
Qed.

Lemma option_map_some {A B : Type} (f : A -> B) (o : option A) (b : B) :
  option_map f o = Some b -> exists a, o = Some a /\ b = f a.
Proof.
  destruct o as [a|]; [|discriminate]. intros [= <-]. exists a. split; reflexivity.
Qed.

Lemma printable_items (items : list json) :
  printable (JArr items) -> Forall printable items.
Proof.
  cbn [printable]. induction items as [|x r IH]; cbn [fold_right].
  - constructor.
  - intros [Hx Hr]. constructor; [exact Hx | apply IH; exact Hr].
Qed.

Lemma printable_members (members : list (jsstring * json)) :
  printable (JObj members) ->
  Forall (fun kv => units (fst kv) /\ printable (snd kv)) members.
Proof.
  cbn [printable]. induction members as [|x r IH]; cbn [fold_right].
  - constructor.
  - intros (Hk & Hx & Hr). constructor; [split; assumption | apply IH; exact Hr].
Qed.

Lemma natural_number (n : number) : natural n = true -> nat_number (mantissa n) = n.
Proof.
  unfold natural, nat_number. rewrite !andb_true_iff, negb_true_iff, Z.eqb_eq.
  intros [[Hn He] _]. destruct n as [ng m e]. cbn in *. subst. reflexivity.
Qed.

Lemma lex_number_text (n : number) (toks : list token) (rest : jsstring) :
  natural n = true -> delimited rest ->
  lex_run (LIdle, toks) (String_of_N (mantissa n) ++ rest)
  = lex_run (LIdle, TNumber n :: toks) rest.
Proof.
  intros Hn Hr. destruct rest as [|c r]; [destruct Hr|]. cbn [delimited] in Hr.
  destruct (lex_natural (mantissa n)) as (ph & a & Hph & Ha & Hl).
  rewrite Hl. cbn [lex_run]. rewrite (lex_number_ends ph a toks c Hph Hr).
  rewrite Ha, (natural_number n Hn). reflexivity.
Qed.

(** The lexer reads the text of a value as the tokens of the value. *)
Lemma lex_serialize :
  forall v, printable v ->
  forall indent s, blank indent -> serialize indent v = Some s ->
  forall toks rest, follows v rest ->
    lex_run (LIdle, toks) (s ++ rest) = lex_run (LIdle, rev (tokens v) ++ toks) rest.
Proof.
  apply (json_induction
           (fun v => printable v ->
              forall indent s, blank indent -> serialize indent v = Some s ->
              forall toks rest, follows v rest ->
                lex_run (LIdle, toks) (s ++ rest)
                = lex_run (LIdle, rev (tokens v) ++ toks) rest)).
  - intros _ indent s _ [= <-] toks rest _. reflexivity.
  - intros [|] _ indent s _ [= <-] toks rest _; reflexivity.
  - intros n Hn indent s _ H toks rest Hr. cbn [printable] in Hn.
    cbn [serialize] in H. rewrite Hn in H. injection H as <-.
    apply lex_number_text; assumption.
  - intros s0 Hu indent s _ [= <-] toks rest _. cbn [printable] in Hu.
    apply lex_QuoteJSONString. exact Hu.
  - intros items IH Hp indent s Hb H toks rest _.
    cbn [serialize] in H. apply option_map_some in H. destruct H as (parts & Hparts & ->).
    apply all_some_map in Hparts. apply printable_items in Hp.
    change (u "[") with [91%N]. change (u "]") with [93%N].
    change (tokens (JArr items)) with (TLBracket :: between (map tokens items) ++ [TRBracket]).
    apply lex_wrap; try exact Hb; try (intros; reflexivity).
    clear toks rest.
    induction Hparts as [|x p items parts Hx _ IHparts]; cbn [map]; constructor.
    + inversion IH as [|? ? IHx _]; subst. inversion Hp as [|? ? Hpx _]; subst.
      intros toks rest Hr.
      apply (IHx Hpx (indent ++ gap) p (blank_app _ _ Hb blank_gap) Hx).
      apply delimited_follows. exact Hr.
    + inversion IH; subst. inversion Hp; subst. apply IHparts; assumption.
  - intros members IH Hp indent s Hb H toks rest _.
    cbn [serialize] in H. apply option_map_some in H. destruct H as (parts & Hparts & ->).
    apply all_some_map in Hparts. apply printable_members in Hp.
    change (u "{") with [123%N]. change (u "}") with [125%N].
    change (tokens (JObj members))
      with (TLBrace ::
            between (map (fun kv => TString (fst kv) :: TColon :: tokens (snd kv)) members)
            ++ [TRBrace]).
    apply lex_wrap; try exact Hb; try (intros; reflexivity).
    clear toks rest.
    induction Hparts as [|kv p members parts Hx _ IHparts]; cbn [map]; constructor.
    + inversion IH as [|? ? IHx _]; subst. inversion Hp as [|? ? [Hk Hpx] _]; subst.
      apply option_map_some in Hx. destruct Hx as (a & Ha & ->).
      intros toks rest Hr. rewrite <- !app_assoc.
      rewrite lex_QuoteJSONString by exact Hk.
      change (u ": " ++ a ++ rest) with (58%N :: 32%N :: a ++ rest).
      cbn [lex_run].
      change (lex_step (LIdle, TString (fst kv) :: toks) 58%N)
        with (Some (LIdle, TColon :: TString (fst kv) :: toks)).
      cbv beta iota.
      change (lex_step (LIdle, TColon :: TString (fst kv) :: toks) 32%N)
        with (Some (LIdle, TColon :: TString (fst kv) :: toks)).
      cbv beta iota.
      rewrite (IHx Hpx (indent ++ gap) a (blank_app _ _ Hb blank_gap) Ha)
        by (apply delimited_follows; exact Hr).
      cbn [rev]. rewrite <- !app_assoc. reflexivity.
    + inversion IH; subst. inversion Hp; subst. apply IHparts; assumption.
Qed.

(** *** The parser *)

Lemma parse_run_app (a b : list token) (st : pstate) :
  parse_run st (a ++ b)
  = match parse_run st a with Some st' => parse_run st' b | None => None end.
Proof.
  revert st. induction a as [|t a IH]; intros st; cbn [app parse_run].
  - reflexivity.
  - destruct (parse_step st t); [apply IH | reflexivity].
Qed.

(** A value begins with a token that is no closing bracket. *)
Lemma tokens_head (v : json) :
  exists tok more,
    tokens v = tok :: more
    /\ forall stack,
         parse_step (PArrayStart stack) tok
         = parse_step (PValue (FArray [] :: stack)) tok.
Proof.
  destruct v as [ | [|] | n | s | items | members]; cbn [tokens];
    eexists; eexists; (split; [reflexivity | intros; reflexivity]).
Qed.

Lemma parse_array_start (x : json) (stack : list frame) (rest : list token) :
  parse_run (PArrayStart stack) (tokens x ++ rest)
  = parse_run (PValue (FArray [] :: stack)) (tokens x ++ rest).
Proof.
  destruct (tokens_head x) as (tok & more & E & Hs).
  rewrite E. cbn [app parse_run]. rewrite Hs. reflexivity.
Qed.

Lemma parse_items (items : list json) :
  Forall (fun v => forall stack rest,
            parse_run (PValue stack) (tokens v ++ rest)
            = parse_run (complete v stack) rest) items ->
  forall done stack rest,
    parse_run (PArrayNext done stack)
              (concat (map (cons TComma) (map tokens items)) ++ TRBracket :: rest)
    = parse_run (complete (JArr (rev done ++ items)) stack) rest.
Proof.
  induction 1 as [|x r Hx _ IH]; intros done stack rest.
  - cbn [map concat app parse_run parse_step]. rewrite app_nil_r. reflexivity.
  - cbn [map concat]. rewrite <- app_assoc. cbn [app parse_run parse_step].
    rewrite Hx. cbn [complete]. rewrite IH. cbn [rev]. rewrite <- app_assoc.
    reflexivity.
Qed.

Lemma parse_members (members : list (jsstring * json)) :
  Forall (fun kv => forall stack rest,
            parse_run (PValue stack) (tokens (snd kv) ++ rest)
            = parse_run (complete (snd kv) stack) rest) members ->
  forall done stack rest,
    parse_run (PObjectNext done stack)
              (concat (map (cons TComma)
                           (map (fun kv => TString (fst kv) :: TColon :: tokens (snd kv))
                                members))
               ++ TRBrace :: rest)
    = parse_run (complete (JObj (rev done ++ members)) stack) rest.
Proof.
  induction 1 as [|[k x] r Hx _ IH]; intros done stack rest.
  - cbn [map concat app parse_run parse_step]. rewrite app_nil_r. reflexivity.
  - cbn [map concat fst snd] in *. rewrite <- app_assoc.
    cbn [app parse_run parse_step]. rewrite <- ?app_assoc.
    rewrite Hx. cbn [complete]. rewrite IH. cbn [rev]. rewrite <- app_assoc.
    reflexivity.
Qed.

(** The parser reads the tokens of a value as the value. *)
Lemma parse_tokens :
  forall v stack rest,
    parse_run (PValue stack) (tokens v ++ rest) = parse_run (complete v stack) rest.
Proof.
  apply (json_induction
           (fun v => forall stack rest,
              parse_run (PValue stack) (tokens v ++ rest)
              = parse_run (complete v stack) rest)).
  - reflexivity.
  - intros [|]; reflexivity.
  - reflexivity.
  - reflexivity.
  - intros items IH stack rest. cbn [tokens]. destruct items as [|x r].
    + reflexivity.
    + cbn [map]. rewrite between_cons. inversion IH as [|? ? Hx Hr]; subst.
      cbn [app parse_run parse_step parse_value]. rewrite <- !app_assoc.
      rewrite parse_array_start, Hx. cbn [complete].
      apply (parse_items r Hr [x] stack rest).
  - intros members IH stack rest. cbn [tokens]. destruct members as [|[k x] r].
    + reflexivity.
    + cbn [map]. rewrite between_cons. inversion IH as [|? ? Hx Hr]; subst.
      cbn [fst snd] in *.
      cbn [app parse_run parse_step parse_value]. rewrite <- !app_assoc.
      rewrite Hx. cbn [complete].
      apply (parse_members r Hr [(k, x)] stack rest).
Qed.

(** *** Reading a value back *)

Lemma serialize_total :
  forall v, printable v -> forall indent, exists s, serialize indent v = Some s.
Proof.
  apply (json_induction
           (fun v => printable v -> forall indent, exists s, serialize indent v = Some s)).
  - intros _ indent. eexists. reflexivity.
  - intros [|] _ indent; eexists; reflexivity.
  - intros n Hn indent. cbn [printable] in Hn. cbn [serialize]. rewrite Hn.
    eexists. reflexivity.
  - intros s _ indent. eexists. reflexivity.
  - intros items IH Hp indent. apply printable_items in Hp. cbn [serialize].
    assert (H : exists parts, all_some (map (serialize (indent ++ gap)) items) = Some parts).
    { induction items as [|x r IHr].
      - eexists. reflexivity.
      - inversion IH as [|? ? Hx Hr]; subst. inversion Hp as [|? ? Px Pr]; subst.
        destruct (Hx Px (indent ++ gap)) as [a Ea].
        destruct (IHr Hr Pr) as [b Eb].
        exists (a :: b). cbn [map all_some fold_right].
        fold (all_some (map (serialize (indent ++ gap)) r)).
        rewrite Ea, Eb. reflexivity. }
    destruct H as [parts ->]. eexists. reflexivity.
  - intros members IH Hp indent. apply printable_members in Hp. cbn [serialize].
    set (f := fun kv : jsstring * json =>
                option_map (fun a => QuoteJSONString (fst kv) ++ u ": " ++ a)
                           (serialize (indent ++ gap) (snd kv))).
    assert (H : exists parts, all_some (map f members) = Some parts).
    { induction members as [|x r IHr].
      - eexists. reflexivity.
      - inversion IH as [|? ? Hx Hr]; subst. inversion Hp as [|? ? [_ Px] Pr]; subst.
        destruct (Hx Px (indent ++ gap)) as [a Ea].
        destruct (IHr Hr Pr) as [b Eb].
        eexists. cbn [map all_some fold_right].
        fold (all_some (map f r)).
        rewrite Eb. unfold f at 1. rewrite Ea. reflexivity. }
    destruct H as [parts ->]. eexists. reflexivity.
Qed.

(** The text of a number on its own. *)
Lemma lex_number_alone (n : number) :
  natural n = true -> lex (String_of_N (mantissa n)) = Some [TNumber n].
Proof.
  intros Hn. destruct (lex_natural (mantissa n)) as (ph & a & Hph & Ha & Hl).
  unfold lex. rewrite <- (app_nil_r (String_of_N (mantissa n))), Hl.
  cbn [lex_run]. rewrite <- (natural_number n Hn), <- Ha.
  destruct Hph as [-> | ->]; reflexivity.
Qed.

Lemma lex_stringify (v : json) (text : jsstring) :
  printable v -> stringify v = Some text -> lex text = Some (tokens v).
Proof.
  intros Hp H. unfold stringify in H.
  destruct v as [ | b | n | s | items | members].
  5,6: unfold lex; rewrite <- (app_nil_r text);
       rewrite (lex_serialize _ Hp [] text (Forall_nil _) H [] [] I);
       cbn [lex_run lex_finish]; rewrite app_nil_r, rev_involutive; reflexivity.
  1,2,4: unfold lex; rewrite <- (app_nil_r text);
       rewrite (lex_serialize _ Hp [] text (Forall_nil _) H [] [] I);
       cbn [lex_run lex_finish]; rewrite app_nil_r, rev_involutive; reflexivity.
  cbn [printable] in Hp. cbn [serialize] in H. rewrite Hp in H. injection H as <-.
  apply lex_number_alone. exact Hp.
Qed.

(** What [JSON.stringify] writes, [JSON.parse] reads as the same value. *)
Lemma parse_stringify (v : json) (text : jsstring) :
  printable v -> stringify v = Some text -> JSON.parse text = Some v.
Proof.
  intros Hp H. unfold JSON.parse. rewrite (lex_stringify v text Hp H).
  rewrite <- (app_nil_r (tokens v)), parse_tokens. reflexivity.
Qed.

(** *** No surrogate alone *)

Lemma paired_app_upto (n : nat) :
  forall a b, (length a <= n)%nat ->
    paired a = true -> paired b = true -> paired (a ++ b) = true.
Proof.
  induction n as [|n IH]; intros a b Hlen Ha Hb.
  - destruct a; [exact Hb | cbn [length] in Hlen; lia].
  - destruct a as [|c t]; [exact Hb|]. cbn [length] in Hlen.
    cbn [app paired] in *. destruct (is_leading c).
    + destruct t as [|d t']; [discriminate|]. cbn [app length] in *.
      apply andb_true_iff in Ha. destruct Ha as [Hd Ht].
      rewrite Hd. cbn [andb]. apply IH; [lia | exact Ht | exact Hb].
    + apply andb_true_iff in Ha. destruct Ha as [Hc Ht].
      rewrite Hc. cbn [andb]. apply IH; [lia | exact Ht | exact Hb].
Qed.

Lemma paired_app (a b : jsstring) :
  paired a = true -> paired b = true -> paired (a ++ b) = true.
Proof. apply (paired_app_upto (length a)). lia. Qed.

Lemma plain_paired (s : jsstring) :
  Forall (fun c => (c < 55296)%N) s -> paired s = true.
Proof.
  induction 1 as [|c s Hc _ IH]; [reflexivity|]. cbn [paired].
  unfold is_leading, is_trailing.
  replace (55296 <=? c)%N with false by (symmetry; apply N.leb_gt; exact Hc).
  replace (56320 <=? c)%N with false by (symmetry; apply N.leb_gt; lia).
  cbn [andb negb]. exact IH.
Qed.

Lemma hex_digit_plain (d : N) : (d < 16)%N -> (hex_digit d < 55296)%N.
Proof. intros Hd. unfold hex_digit. destruct (d <? 10)%N; lia. Qed.

Lemma paired_unicode_escape (c : cu) :
  (c < 65536)%N -> paired (unicode_escape c) = true.
Proof.
  intros Hc. destruct (hex_digits_value c Hc) as (B4 & B3 & B2 & B1 & _).
  apply plain_paired. unfold unicode_escape.
  repeat (constructor; [first [apply hex_digit_plain; assumption | reflexivity]|]).
  constructor.
Qed.

Lemma paired_quote_unit (c : cu) :
  (c < 65536)%N -> is_leading c = false -> is_trailing c = false ->
  paired (quote_unit c) = true.
Proof.
  intros Hc Lc Tc. unfold quote_unit.
  repeat match goal with
         | |- context [if ?b then _ else _] => destruct b; [try reflexivity|]
         end.
  - apply paired_unicode_escape. exact Hc.
  - cbn [paired]. rewrite Lc, Tc. reflexivity.
Qed.

Lemma paired_quote_units_upto (n : nat) :
  forall s, (length s <= n)%nat -> units s -> paired (quote_units s) = true.
Proof.
  induction n as [|n IH]; intros s Hlen Hu.
  - destruct s; [reflexivity | cbn [length] in Hlen; lia].
  - destruct s as [|c t]; [reflexivity|].
    inversion Hu as [|? ? Hc Ht]; subst. cbn [length] in Hlen. cbn [quote_units].
    destruct (is_leading c) eqn:Lc.
    + destruct t as [|d t'].
      * apply paired_unicode_escape. exact Hc.
      * inversion Ht as [|? ? Hd Ht']; subst. cbn [length] in Hlen.
        destruct (is_trailing d) eqn:Td.
        -- cbn [paired]. rewrite Lc, Td. cbn [andb]. apply IH; [lia | exact Ht'].
        -- apply paired_app; [apply paired_unicode_escape; exact Hc|].
           apply IH; [cbn [length]; lia | exact Ht].
    + destruct (is_trailing c) eqn:Tc.
      * apply paired_app; [apply paired_unicode_escape; exact Hc|].
        apply IH; [lia | exact Ht].
      * apply paired_app; [apply paired_quote_unit; assumption|].
        apply IH; [lia | exact Ht].
Qed.

Lemma paired_QuoteJSONString (s : jsstring) :
  units s -> paired (QuoteJSONString s) = true.
Proof.
  intros Hu. unfold QuoteJSONString.
  apply (paired_app [34%N]); [reflexivity|].
  apply paired_app; [|reflexivity].
  apply (paired_quote_units_upto (length s)); [lia | exact Hu].
Qed.

Lemma paired_blank (s : jsstring) : blank s -> paired s = true.
Proof.
  intros Hb. apply plain_paired. induction Hb as [|c s Hc _ IH]; constructor.
  - unfold json_space in Hc. rewrite !orb_true_iff, !N.eqb_eq in Hc. lia.
  - exact IH.
Qed.

Lemma paired_number (n : N) : paired (String_of_N n) = true.
Proof.
  destruct (String_of_N_shape n) as (d & t & -> & Hall & _).
  apply plain_paired. induction Hall as [|c s Hc _ IH]; constructor.
  - apply is_digit_range in Hc. lia.
  - exact IH.
Qed.

Lemma paired_concat (sep : jsstring) (ps : list jsstring) :
  paired sep = true -> Forall (fun p => paired p = true) ps ->
  paired (concat (map (app sep) ps)) = true.
Proof.
  intros Hs. induction 1 as [|p ps Hp _ IH]; [reflexivity|].
  cbn [map concat]. repeat apply paired_app; assumption.
Qed.

Lemma paired_wrap (o c : cu) (indent : jsstring) (ps : list jsstring) :
  (o < 55296)%N -> (c < 55296)%N -> blank indent ->
  Forall (fun p => paired p = true) ps ->
  paired (wrap [o] [c] indent ps) = true.
Proof.
  intros Ho Hc Hb Hps.
  assert (Po : paired [o] = true) by (apply plain_paired; repeat constructor; exact Ho).
  assert (Pc : paired [c] = true) by (apply plain_paired; repeat constructor; exact Hc).
  assert (Pi : paired (indent ++ gap) = true)
    by (apply paired_blank, blank_app; [exact Hb | exact blank_gap]).
  destruct Hps as [|p ps Hp Hps].
  - cbn [wrap]. apply paired_app; assumption.
  - cbn [wrap]. rewrite join_cons.
    repeat (apply paired_app;
            [first [assumption | reflexivity | apply paired_blank; assumption]|]);
      try assumption.
    apply paired_app; [|apply paired_app; [reflexivity|]].
    + apply paired_app; [exact Hp|].
      apply paired_concat; [|exact Hps].
      apply (paired_app (u ",")); [reflexivity|].
      apply (paired_app nl); [reflexivity | exact Pi].
    + apply paired_app; [apply paired_blank; exact Hb | exact Pc].
Qed.

(** The text [JSON.stringify] writes holds no surrogate alone. *)
Lemma paired_serialize :
  forall v, printable v ->
  forall indent s, blank indent -> serialize indent v = Some s -> paired s = true.
Proof.
  apply (json_induction
           (fun v => printable v ->
              forall indent s, blank indent -> serialize indent v = Some s ->
              paired s = true)).
  - intros _ indent s _ [= <-]. reflexivity.
  - intros [|] _ indent s _ [= <-]; reflexivity.
  - intros n Hn indent s _ H. cbn [printable] in Hn. cbn [serialize] in H.
    rewrite Hn in H. injection H as <-. apply paired_number.
  - intros s0 Hu indent s _ [= <-]. apply paired_QuoteJSONString. exact Hu.
  - intros items IH Hp indent s Hb H.
    cbn [serialize] in H. apply option_map_some in H. destruct H as (parts & Hparts & ->).
    apply all_some_map in Hparts. apply printable_items in Hp.
    change (u "[") with [91%N]. change (u "]") with [93%N].
    apply paired_wrap; try exact Hb; try reflexivity.
    induction Hparts as [|x p items parts Hx _ IHparts]; constructor.
    + inversion IH as [|? ? IHx _]; subst. inversion Hp as [|? ? Hpx _]; subst.
      apply (IHx Hpx (indent ++ gap) p (blank_app _ _ Hb blank_gap) Hx).
    + inversion IH; subst. inversion Hp; subst. apply IHparts; assumption.
  - intros members IH Hp indent s Hb H.
    cbn [serialize] in H. apply option_map_some in H. destruct H as (parts & Hparts & ->).
    apply all_some_map in Hparts. apply printable_members in Hp.
    change (u "{") with [123%N]. change (u "}") with [125%N].
    apply paired_wrap; try exact Hb; try reflexivity.
    induction Hparts as [|kv p members parts Hx _ IHparts]; constructor.
    + inversion IH as [|? ? IHx _]; subst. inversion Hp as [|? ? [Hk Hpx] _]; subst.
      apply option_map_some in Hx. destruct Hx as (a & Ha & ->).
      apply paired_app; [apply paired_QuoteJSONString; exact Hk|].
      apply (paired_app (u ": ")); [reflexivity|].
      apply (IHx Hpx (indent ++ gap) a (blank_app _ _ Hb blank_gap) Ha).
    + inversion IH; subst. inversion Hp; subst. apply IHparts; assumption.
Qed.

(** *** The results *)

Lemma units_key (key : string) :
  forallb (fun c => (c <? 65536)%N) (u key) = true -> units (u key).
Proof.
  intros H. apply Forall_forall. intros c Hc.
  rewrite forallb_forall in H. apply N.ltb_lt. apply H. exact Hc.
Qed.

Lemma printable_issue (i : Issue) : issue_fits i -> printable (issue_json i).
Proof.
  assert (K1 : units (u "line")) by (apply units_key; vm_compute; reflexivity).
  assert (K2 : units (u "severity")) by (apply units_key; vm_compute; reflexivity).
  assert (K3 : units (u "message")) by (apply units_key; vm_compute; reflexivity).
  assert (K4 : units (u "suggestion")) by (apply units_key; vm_compute; reflexivity).
  assert (K5 : units (u "code")) by (apply units_key; vm_compute; reflexivity).
  destruct i as [ln sev msg sg cd]. unfold issue_fits, issue_json.
  cbn [line severity message suggestion code].
  intros (Hl & Hs & Hm & Hg & Hc).
  destruct ln as [n|], sg as [g|], cd as [c|];
    cbn [option_map optional app printable fold_right fst snd];
    repeat split; try assumption;
    unfold natural; cbn [neg exponent mantissa negb andb Z.eqb];
    apply N.ltb_lt; exact Hl.
Qed.

Lemma printable_result (r : ReviewResult) : result_fits r -> printable (result_json r).
Proof.
  assert (K1 : units (u "file")) by (apply units_key; vm_compute; reflexivity).
  assert (K2 : units (u "issues")) by (apply units_key; vm_compute; reflexivity).
  assert (K3 : units (u "summary")) by (apply units_key; vm_compute; reflexivity).
  destruct r as [f iss sm]. unfold result_fits, result_json.
  cbn [file issues summary]. intros (Hf & Hi & Hs).
  cbn [printable fold_right fst snd]. repeat split; try assumption.
  induction Hi as [|i iss Hi _ IH]; cbn [map fold_right].
  - exact I.
  - split; [apply printable_issue; exact Hi | exact IH].
Qed.

Lemma printable_results (results : list ReviewResult) :
  Forall result_fits results -> printable (results_json results).
Proof.
  unfold results_json. cbn [printable].
  induction 1 as [|r rs Hr _ IH]; cbn [map fold_right].
  - exact I.
  - split; [apply printable_result; exact Hr | exact IH].
Qed.

(** X21. The text [saveReviewResults] writes for results whose line
    numbers are below 2^53 exists, holds no surrogate alone, so that it is
    the same after it is written as UTF-8 and read again, and
    [readReviewResults] parses it as the same results: the same files,
    issues and summaries, with the properties that were [undefined] absent. *)
Theorem saved_results_read_back (results : list ReviewResult) :
  Forall result_fits results ->
  exists text,
    stringify (results_json results) = Some text
    /\ paired text = true
    /\ JSON.parse text = Some (results_json results).
Proof.
  intros Hfit. pose proof (printable_results results Hfit) as Hp.
  destruct (serialize_total _ Hp []) as [text Ht].
  exists text. split; [exact Ht|]. split.
  - exact (paired_serialize _ Hp [] text (Forall_nil _) Ht).
  - exact (parse_stringify _ text Hp Ht).
Qed.

Lemma example_results_fit : Forall result_fits example_results.
Proof.
  unfold example_results.
  repeat (constructor; [unfold result_fits, issue_fits;
                        cbn [file issues summary line severity message suggestion code];
                        repeat split;
                        repeat (constructor;
                                [first [unfold result_fits, issue_fits;
                                        cbn [line severity message suggestion code];
                                        repeat split
                                       | idtac]|]);
                        try constructor|]);
    try constructor.
  all: try (apply units_key; vm_compute; reflexivity).
  all: try (apply Forall_forall; intros c Hc; vm_compute in Hc;
            repeat (destruct Hc as [<- | Hc]; [reflexivity|]); destruct Hc).
  all: try reflexivity.
Qed.

Lemma saved_results_read_back_witness :
  exists text,
    stringify (results_json example_results) = Some text
    /\ paired text = true
    /\ JSON.parse text = Some (results_json example_results).
Proof.
  exact (saved_results_read_back example_results example_results_fit).
Defined.

End SavedResults.
